(** * Pixel Defender: the game rules and the score file, verified

    A shallow embedding of [Project/modules] (bullet.py, heart.py,
    spaceship.py, entity.py and game_logic.py) together with the
    properties its specification states about it.

    Conventions of the embedding.
    - Python [int] is [Z].  Python [float] is [Q]: every number the game
      computes is an integer multiple of 1/4 far below 2^53 (speeds 0.75,
      1.5, 3, 10, 30 and halves of integer sizes), so binary floating
      point computes all of them exactly.
    - Python [str] is [string]; a character is a code point below 256.
    - [pygame.Rect] stores integers; a float assigned to a coordinate is
      rounded to the nearest integer, a half away from zero.  Every
      coordinate of the game is far inside the range of a C [int],
      outside of which the assignment raises.
    - [str] of an integer is its decimal text; the interpreter refuses
      to format an integer of more than 4300 digits, a size that no
      score of the game comes near, and such integers are left out.
    - Drawing, sounds, fonts and the frame-rate wait do not touch the
      state that the properties are about and are left out.
    - [random.randint] is a node of a computation tree, which is run on
      given draws, searched for its possible results, or weighed with
      every value of the range equally likely.
    - A file system is a finite map from paths to files; the text of a
      file is the file as [open] decodes it.
    - A frame is one pass of the loop of [game_loop] on the keys held
      down in it.  The pause menu and the QUIT event change nothing of
      the game: they only decide whether a further frame is played. *)

From Stdlib Require Import ZArith QArith Lia Lqa List Ascii String.
From Stdlib Require Import Permutation Sorted.
From stdpp Require Import base option list gmap strings pretty.

Local Open Scope Z_scope.

(** ** Python text operations used by the score file *)

Module Text.

Definition LF : ascii := ascii_of_nat 10.
Definition CR : ascii := ascii_of_nat 13.

(** [str.isspace] on a character of the Latin-1 range. *)
Definition isspace (c : ascii) : bool :=
  let n := nat_of_ascii c in
  ((9 <=? n) && (n <=? 13) || (28 <=? n) && (n <=? 32)
   || (n =? 133) || (n =? 160))%nat.

Fixpoint lstrip (s : list ascii) : list ascii :=
  match s with
  | c :: s' => if isspace c then lstrip s' else s
  | [] => []
  end.

Definition rstrip (s : list ascii) : list ascii := rev (lstrip (rev s)).

(** [s.strip()] *)
Definition strip (s : string) : string :=
  string_of_list_ascii (rstrip (lstrip (list_ascii_of_string s))).

(** [s.split(sep)] for a separator of at least one character: the
    occurrences of [sep] are found from the left and do not overlap.
    [skip] counts the characters of a separator that was just matched
    and are still to be passed over; [cur] is the current part,
    reversed. *)
Fixpoint split_go (sep : string) (skip : nat) (cur : list ascii)
    (s : string) : list string :=
  match s with
  | EmptyString => [string_of_list_ascii (rev cur)]
  | String c s' =>
      match skip with
      | S k => split_go sep k cur s'
      | O =>
          if String.prefix sep s
          then string_of_list_ascii (rev cur)
                 :: split_go sep (String.length sep - 1) [] s'
          else split_go sep O (c :: cur) s'
      end
  end.

Definition split (s sep : string) : list string := split_go sep O [] s.

(** [file.readlines()] of a text file opened with universal newlines:
    a line ends at "\n", "\r\n" or "\r", each handed over as "\n". *)
Fixpoint readlines_go (cur : list ascii) (s : list ascii) : list string :=
  match s with
  | [] => match cur with
          | [] => []
          | _ => [string_of_list_ascii (rev cur)]
          end
  | c :: s' =>
      if Ascii.eqb c LF
      then string_of_list_ascii (rev (LF :: cur)) :: readlines_go [] s'
      else if Ascii.eqb c CR
      then string_of_list_ascii (rev (LF :: cur))
             :: match s' with
                | c' :: s'' =>
                    if Ascii.eqb c' LF then readlines_go [] s''
                    else readlines_go [] s'
                | [] => []
                end
      else readlines_go (c :: cur) s'
  end.

Definition readlines (data : string) : list string :=
  readlines_go [] (list_ascii_of_string data).

Definition digit (c : ascii) : option Z :=
  let n := nat_of_ascii c in
  if ((48 <=? n) && (n <=? 57))%nat then Some (Z.of_nat n - 48) else None.

(** The digits of a decimal literal after its sign: digits, with single
    underscores allowed between two digits.  [prev] says whether the
    previous character was a digit; the result is the value and the
    number of digits read. *)
Fixpoint digits_go (prev : bool) (acc : Z) (n : nat) (s : list ascii)
    : option (Z * nat) :=
  match s with
  | [] => if prev then Some (acc, n) else None
  | c :: s' =>
      match digit c with
      | Some d => digits_go true (10 * acc + d) (S n) s'
      | None =>
          if Ascii.eqb c "_" && prev then digits_go false acc n s'
          else None
      end
  end.

(** [sys.get_int_max_str_digits()], the default of the interpreter. *)
Definition int_max_str_digits : nat := 4300.

Definition unsigned (s : list ascii) : option Z :=
  match digits_go false 0 O s with
  | Some (v, n) => if (n <=? int_max_str_digits)%nat then Some v else None
  | None => None
  end.

(** [int(s)] for a string: [None] is [ValueError]. *)
Definition int (s : string) : option Z :=
  match rstrip (lstrip (list_ascii_of_string s)) with
  | c :: s' =>
      if Ascii.eqb c "-" then Z.opp <$> unsigned s'
      else if Ascii.eqb c "+" then unsigned s'
      else unsigned (c :: s')
  | [] => None
  end.

(** [str(n)] for an integer of at most 4300 digits: its decimal text.
    For an integer of more digits the interpreter raises [ValueError];
    such integers are left out. *)
Definition str (n : Z) : string := pretty n.

End Text.

(** ** The score file *)

(** What [open] finds at a path.  [Data] is a file that may be read and
    appended to, [ReadOnly] a file that may be read but not written, and
    [Locked] stands for everything [open] refuses in every mode: a
    directory, a file without permission, a path under a directory that
    is missing or may not be entered.  A path that the map does not
    hold is a missing file in a directory where it can be created. *)
Inductive entry :=
| Locked
| ReadOnly (text : string)
| Data (text : string).

Abbreviation filesystem := (gmap string entry).

Definition DEFAULT_FILE : string := "scores/score-list.txt".

(** [open(path, 'r')] followed by reading the whole file. *)
Definition open_read (fs : filesystem) (path : string) : option string :=
  match fs !! path with
  | Some (Data text) | Some (ReadOnly text) => Some text
  | Some Locked | None => None
  end.

(** [open(path, 'a')]: the text already there; a missing file is
    created where its directory allows it; [None] is the [OSError] of a
    path that cannot be opened for writing. *)
Definition open_append (fs : filesystem) (path : string) : option string :=
  match fs !! path with
  | Some (Data text) => Some text
  | Some (ReadOnly _) | Some Locked => None
  | None => Some ""%string
  end.

(** [write_scores(name, path, score)]: the new file system and [res]. *)
Definition write_scores (fs : filesystem) (name path : string) (score : Z)
    : filesystem * bool :=
  match open_append fs path with
  | Some text =>
      (<[path := Data (text +:+ name +:+ " - Score: " +:+ Text.str score
                         +:+ String Text.LF "")]> fs, true)
  | None => (fs, false)
  end.

(** One turn of the loop of [read_scores].  [None] is the [ValueError]
    of [int]; a line that is kept or passed over gives the new list. *)
Definition read_line (score_list : list (string * Z)) (line : string)
    : option (list (string * Z)) :=
  let line := Text.strip line in
  let parts := Text.split line ": " in
  if (length parts =? 2)%nat then
    match Text.int (Text.strip (nth 1 parts ""%string)) with
    | Some score => Some (score_list ++ [(line, score)])
    | None => None
    end
  else Some score_list.

(** The [for] loop of [read_scores]: the list as the loop leaves it, and
    whether it ran to the end ([false]: an exception left it early). *)
Fixpoint read_lines (score_list : list (string * Z)) (lines : list string)
    : list (string * Z) * bool :=
  match lines with
  | [] => (score_list, true)
  | line :: rest =>
      match read_line score_list line with
      | Some score_list' => read_lines score_list' rest
      | None => (score_list, false)
      end
  end.

(** [read_scores(score_list, path)]: [score_list] is a Python list that
    the function appends to in place, so the list as the caller finds it
    afterwards is returned next to [res]. *)
Definition read_scores (fs : filesystem) (score_list : list (string * Z))
    (path : string) : list (string * Z) * bool :=
  match open_read fs path with
  | Some text => read_lines score_list (Text.readlines text)
  | None => (score_list, false)
  end.

(** [score_list.sort(key=lambda x: x[1], reverse=True)]: Python's sort is
    stable, also with [reverse=True], so entries with the same score keep
    their order.  [sort_scores] computes that order by insertion. *)
Fixpoint insert_score (e : string * Z) (l : list (string * Z))
    : list (string * Z) :=
  match l with
  | [] => [e]
  | h :: t => if h.2 <=? e.2 then e :: h :: t else h :: insert_score e t
  end.

Definition sort_scores (l : list (string * Z)) : list (string * Z) :=
  foldr insert_score [] l.

(** Lines 632-646 of [top_scores_menu]: the merged score list and the
    title text after both files were read. *)
Definition merged_scores (fs : filesystem) (user_path : string)
    (is_user_given : bool) : list (string * Z) * string :=
  let text := "Top 5 Scores"%string in
  let score_list := [] in
  let '(score_list, text) :=
    if is_user_given then
      let '(score_list, res) := read_scores fs score_list user_path in
      (score_list, if res then text else "Error reading user file!"%string)
    else (score_list, text) in
  let '(score_list, res) := read_scores fs score_list DEFAULT_FILE in
  if res then (sort_scores score_list, text)
  else (score_list, "Error reading file!"%string).

(** Lines 648-650: fewer than five entries are filled up. *)
Definition pad_scores (score_list : list (string * Z)) : list (string * Z) :=
  if (length score_list <? 5)%nat
  then score_list ++ replicate (5 - length score_list) ("___"%string, 0)
  else score_list.

(** The list [top_scores_menu] shows the first five entries of, and its
    title text. *)
Definition top_scores_menu (fs : filesystem) (user_path : string)
    (is_user_given : bool) : list (string * Z) * string :=
  let '(score_list, text) := merged_scores fs user_path is_user_given in
  (pad_scores score_list, text).

Definition nl : string := String Text.LF "".

(** ** Random choices and exceptions *)

Inductive exn :=
| KeyError
| ValueError
| IndexError
| AttributeError
| RecursionError
| SystemExit.

(** A computation that may call [random.randint(lo, hi)] and may end in
    an exception.  [Randint lo hi k] continues as [k v] with the integer
    [v] that was drawn. *)
Inductive Rand (A : Type) : Type :=
| Ret (a : A)
| Raise (e : exn)
| Randint (lo hi : Z) (k : Z → Rand A).
Arguments Ret {A} a.
Arguments Raise {A} e.
Arguments Randint {A} lo hi k.

Fixpoint Rand_bind {A B} (f : A → Rand B) (m : Rand A) : Rand B :=
  match m with
  | Ret a => f a
  | Raise e => Raise e
  | Randint lo hi k => Randint lo hi (λ v, Rand_bind f (k v))
  end.

Global Instance Rand_mret : MRet Rand := @Ret.
Global Instance Rand_mbind : MBind Rand := @Rand_bind.

Definition randint (lo hi : Z) : Rand Z := Randint lo hi Ret.

(** [random.choice(seq)]: an index below [len(seq)] is drawn. *)
Definition choice {A} (seq : list A) : Rand A :=
  i ← randint 0 (Z.of_nat (length seq) - 1);
  match seq !! Z.to_nat i with
  | Some x => Ret x
  | None => Raise IndexError
  end.

(** An optional result, with the exception that its absence stands for. *)
Definition or_raise {A} (e : exn) (o : option A) : Rand A :=
  match o with
  | Some a => Ret a
  | None => Raise e
  end.

(** [outcome m a]: some sequence of draws lets [m] return [a]. *)
Inductive outcome {A} : Rand A → A → Prop :=
| outcome_ret a : outcome (Ret a) a
| outcome_randint lo hi k v a :
    lo ≤ v ≤ hi → outcome (k v) a → outcome (Randint lo hi k) a.

(** Running [m] on the integers that the generator hands out, in order.
    [None]: an exception, a draw outside its range, or too few draws. *)
Fixpoint run {A} (m : Rand A) (draws : list Z) : option A :=
  match m with
  | Ret a => Some a
  | Raise _ => None
  | Randint lo hi k =>
      match draws with
      | v :: draws' =>
          if (lo <=? v) && (v <=? hi) then run (k v) draws' else None
      | [] => None
      end
  end.

(** The probability that [m] returns a value satisfying [ev], every value
    of a [randint] range being equally likely. *)
Fixpoint prob {A} (m : Rand A) (ev : A → bool) : Q :=
  match m with
  | Ret a => if ev a then 1%Q else 0%Q
  | Raise _ => 0%Q
  | Randint lo hi k =>
      (foldr (λ v acc, prob (k v) ev + acc)%Q 0%Q (seqZ lo (hi - lo + 1))
       / inject_Z (hi - lo + 1))%Q
  end.

(** ** Spawn lanes *)

(** [lst.remove(x)]: the first element equal to [x] is taken out;
    [None] is the [ValueError] of a list without [x]. *)
Fixpoint list_remove (x : Z) (lst : list Z) : option (list Z) :=
  match lst with
  | [] => None
  | y :: lst' => if decide (y = x) then Some lst'
                 else (y ::.) <$> list_remove x lst'
  end.

(** [get_rand_spawn(location_list, rand_num)].  The dictionary is changed
    in place by the source, so the changed dictionary is the result.
    [depth] bounds the nesting of the recursive calls. *)
Fixpoint get_rand_spawn_depth (depth : nat) (location_list : gmap string Z)
    (rand_num : Z) : Rand (gmap string Z) :=
  match depth with
  | O => Raise RecursionError
  | S depth' =>
      previous ← or_raise KeyError (location_list !! "previous_location"%string);
      if decide (previous = 0) then
        let location_list := <["previous_location"%string := rand_num]> location_list in
        if decide (rand_num = 1) then
          v ← randint 75 175; Ret (<["spawn_location"%string := v]> location_list)
        else if decide (rand_num = 2) then
          v ← randint 325 375; Ret (<["spawn_location"%string := v]> location_list)
        else if decide (rand_num = 3) then
          v ← randint 525 625; Ret (<["spawn_location"%string := v]> location_list)
        else Ret location_list
      else if decide (1 ≤ previous ∧ previous ≤ 3) then
        locations ← or_raise ValueError (list_remove previous [1; 2; 3]);
        let location_list := <["previous_location"%string := 0]> location_list in
        l0 ← or_raise IndexError (locations !! 0%nat);
        l1 ← or_raise IndexError (locations !! 1%nat);
        c ← choice [l0; l1];
        get_rand_spawn_depth depth' location_list c
      else Ret location_list
  end.

(** The source nests at most one call inside the first (see
    [get_rand_spawn_depth_enough] below). *)
Definition get_rand_spawn : gmap string Z → Z → Rand (gmap string Z) :=
  get_rand_spawn_depth 2.

(** ** Entities *)

Definition SCREEN_W : Z := 700.
Definition SCREEN_H : Z := 900.

(** [pygame.Rect]: integer position and size. *)
Record Rect := { rect_x : Z; rect_y : Z; rect_w : Z; rect_h : Z }.

(** A float stored into a coordinate of a [Rect]: pygame rounds it to
    the nearest integer, a half away from zero (659.5 gives 660 and
    -178.5 gives -179). *)
Definition to_int (q : Q) : Z :=
  let n := Qnum q in
  let d := Zpos (Qden q) in
  Z.sgn n * ((2 * Z.abs n + d) / (2 * d)).

(** The attributes of [Entity].  [placeholder] is [None] as long as the
    attribute was never assigned: reading it then raises
    [AttributeError]. *)
Record Entity := {
  width : Z;
  height : Z;
  x_pos : Q;
  y_pos : Q;
  speed : Q;
  has_image : bool;
  placeholder : option Rect
}.

Record Bullet := {
  bullet_entity :> Entity;
  damage : Z;
  is_fired : bool
}.

Record Heart := {
  heart_entity :> Entity;
  restore_amount : Z;
  is_claimed : bool
}.

Record Spaceship := {
  ship_entity :> Entity;
  health : Z;
  is_killed : bool;
  bullet : Bullet;
  shoot_delay : Z;
  is_player : bool;
  shoot_timer : Z
}.

Definition set_x_pos (e : Entity) (v : Q) : Entity :=
  {| width := width e; height := height e; x_pos := v; y_pos := y_pos e;
     speed := speed e; has_image := has_image e; placeholder := placeholder e |}.

Definition set_y_pos (e : Entity) (v : Q) : Entity :=
  {| width := width e; height := height e; x_pos := x_pos e; y_pos := v;
     speed := speed e; has_image := has_image e; placeholder := placeholder e |}.

Definition set_placeholder (e : Entity) (r : Rect) : Entity :=
  {| width := width e; height := height e; x_pos := x_pos e; y_pos := y_pos e;
     speed := speed e; has_image := has_image e; placeholder := Some r |}.

Definition set_rect_x (r : Rect) (v : Q) : Rect :=
  {| rect_x := to_int v; rect_y := rect_y r; rect_w := rect_w r; rect_h := rect_h r |}.

Definition set_rect_y (r : Rect) (v : Q) : Rect :=
  {| rect_x := rect_x r; rect_y := to_int v; rect_w := rect_w r; rect_h := rect_h r |}.

Definition set_bullet_entity (b : Bullet) (e : Entity) : Bullet :=
  {| bullet_entity := e; damage := damage b; is_fired := is_fired b |}.

Definition set_is_fired (b : Bullet) (v : bool) : Bullet :=
  {| bullet_entity := bullet_entity b; damage := damage b; is_fired := v |}.

Definition set_heart_entity (h : Heart) (e : Entity) : Heart :=
  {| heart_entity := e; restore_amount := restore_amount h;
     is_claimed := is_claimed h |}.

Definition set_is_claimed (h : Heart) (v : bool) : Heart :=
  {| heart_entity := heart_entity h; restore_amount := restore_amount h;
     is_claimed := v |}.

Definition set_ship_entity (s : Spaceship) (e : Entity) : Spaceship :=
  {| ship_entity := e; health := health s; is_killed := is_killed s;
     bullet := bullet s; shoot_delay := shoot_delay s;
     is_player := is_player s; shoot_timer := shoot_timer s |}.

Definition set_health (s : Spaceship) (v : Z) : Spaceship :=
  {| ship_entity := ship_entity s; health := v; is_killed := is_killed s;
     bullet := bullet s; shoot_delay := shoot_delay s;
     is_player := is_player s; shoot_timer := shoot_timer s |}.

Definition set_is_killed (s : Spaceship) (v : bool) : Spaceship :=
  {| ship_entity := ship_entity s; health := health s; is_killed := v;
     bullet := bullet s; shoot_delay := shoot_delay s;
     is_player := is_player s; shoot_timer := shoot_timer s |}.

Definition set_bullet (s : Spaceship) (b : Bullet) : Spaceship :=
  {| ship_entity := ship_entity s; health := health s;
     is_killed := is_killed s; bullet := b; shoot_delay := shoot_delay s;
     is_player := is_player s; shoot_timer := shoot_timer s |}.

Definition set_shoot_timer (s : Spaceship) (v : Z) : Spaceship :=
  {| ship_entity := ship_entity s; health := health s;
     is_killed := is_killed s; bullet := bullet s;
     shoot_delay := shoot_delay s; is_player := is_player s;
     shoot_timer := v |}.

(** [str.lower] on a character of the Latin-1 range. *)
Definition lower_char (c : ascii) : ascii :=
  let n := nat_of_ascii c in
  if ((65 <=? n) && (n <=? 90)
      || (192 <=? n) && (n <=? 222) && negb (n =? 215))%nat
  then ascii_of_nat (n + 32) else c.

Fixpoint lower (s : string) : string :=
  match s with
  | EmptyString => EmptyString
  | String c s' => String (lower_char c) (lower s')
  end.

Definition endswith (s suffix : string) : bool :=
  String.prefix (String.rev suffix) (String.rev s).

Section Sprites.

(** [sprite path]: a file exists at [path] and pygame loads it and scales
    it to the size of the entity. *)
Variable sprite : string → bool.

(** [Entity.check_imagePath]. *)
Definition check_imagePath (e : Entity) (image_path : string) : Entity :=
  if negb (String.eqb image_path "N/A")
     && (endswith (lower image_path) ".png"
         || endswith (lower image_path) ".jpg"
         || endswith (lower image_path) ".jpeg")
     && sprite image_path
  then
    {| width := width e; height := height e;
       x_pos := x_pos e - inject_Z (width e) / 2;
       y_pos := y_pos e - inject_Z (height e) / 2;
       speed := speed e;
       has_image := true;
       (* image.get_rect(center=(x_pos, y_pos)) *)
       placeholder :=
         Some {| rect_x := to_int (x_pos e) - Z.shiftr (width e) 1;
                 rect_y := to_int (y_pos e) - Z.shiftr (height e) 1;
                 rect_w := width e; rect_h := height e |} |}
  else e.

(** [Entity.__init__]. *)
Definition Entity_init (width height : Z) (x_pos y_pos speed : Q)
    (image_path : string) : Entity :=
  check_imagePath
    {| width := width; height := height; x_pos := x_pos;
       y_pos := if Qeq_bool y_pos (-1) then - inject_Z height else y_pos;
       speed := speed; has_image := false; placeholder := None |}
    image_path.

(** [Bullet.__init__]. *)
Definition Bullet_init (width height : Z) (x_pos y_pos speed : Q)
    (image_path : string) (damage : Z) : Bullet :=
  {| bullet_entity := Entity_init width height x_pos y_pos speed image_path;
     damage := damage; is_fired := false |}.

(** [Heart.__init__]. *)
Definition Heart_init (width height : Z) (x_pos y_pos speed : Q)
    (image_path : string) (restore_amount : Z) : Heart :=
  {| heart_entity := Entity_init width height x_pos y_pos speed image_path;
     restore_amount := restore_amount; is_claimed := false |}.

(** [Spaceship.__init__]. *)
Definition Spaceship_init (width height : Z) (x_pos y_pos speed : Q)
    (image_path : string) (health : Z) (bullet : Bullet) (shoot_delay : Z)
    (is_player : bool) : Spaceship :=
  {| ship_entity := Entity_init width height x_pos y_pos speed image_path;
     health := health; is_killed := false; bullet := bullet;
     shoot_delay := shoot_delay; is_player := is_player; shoot_timer := 0 |}.

End Sprites.

(** [Bullet.set_coordinates]. *)
Definition set_coordinates (b : Bullet) (x y : Q) : Bullet :=
  set_is_fired (set_bullet_entity b (set_y_pos (set_x_pos b x) y)) true.

(** [Bullet.move]. *)
Definition Bullet_move (b : Bullet) (direction screen_w screen_h : Z) : Bullet :=
  let y := (y_pos b + speed b * inject_Z direction)%Q in
  let b := set_bullet_entity b (set_y_pos b y) in
  if Qle_bool y 0 || Qle_bool (inject_Z screen_h) y
  then set_is_fired b false else b.

(** [Heart.move]; [None] is the [AttributeError] of a heart without
    [placeholder]. *)
Definition Heart_move (h : Heart) (direction screen_w screen_h : Z)
    : option Heart :=
  let y := (y_pos h + speed h * inject_Z direction)%Q in
  r ← placeholder h;
  let r := set_rect_y r y in
  let h := set_heart_entity h (set_placeholder (set_y_pos h y) r) in
  Some (if screen_h + height h <=? rect_y r then set_is_claimed h true else h).

(** [Spaceship.move]; [None] is the [AttributeError] of a ship without
    [placeholder]. *)
Definition Spaceship_move (s : Spaceship) (direction screen_w screen_h : Z)
    : option Spaceship :=
  if is_player s then
    let x := (x_pos s + speed s * inject_Z direction)%Q in
    let x := if Qle_bool x 0 then 0%Q
             else if Qle_bool (inject_Z screen_w) (x + inject_Z (width s))
             then inject_Z (screen_w - width s)
             else x in
    r ← placeholder s;
    Some (set_ship_entity s (set_placeholder (set_x_pos s x) (set_rect_x r x)))
  else
    let y := (y_pos s + speed s * inject_Z direction)%Q in
    r ← placeholder s;
    let r := set_rect_y r y in
    let s := set_ship_entity s (set_placeholder (set_y_pos s y) r) in
    Some (if screen_h - 120 <=? rect_y r + height s
          then set_is_killed s true else s).

(** [Spaceship.shoot]. *)
Definition shoot (s : Spaceship) : option Spaceship :=
  r ← placeholder s;
  let y := rect_y r in
  let y := if negb (is_player s) then y + height s else y in
  Some (set_bullet s
          (set_coordinates (bullet s)
             (inject_Z (rect_x r) + inject_Z (width s) / 2
              - inject_Z (width (bullet s)) / 2)%Q
             (inject_Z y))).

(** [Spaceship.alien_shoot]. *)
Definition alien_shoot (s : Spaceship) : option Spaceship :=
  let s := set_shoot_timer s (shoot_timer s + 1) in
  if (shoot_delay s <=? shoot_timer s)
     && Qle_bool 0 (y_pos s + inject_Z (height s) / 2)
  then s ← shoot s; Some (set_shoot_timer s 0)
  else Some s.

(** ** Game logic *)

(** [check_collisions(bullet, x_pos, y_pos, width, height)]. *)
Definition check_collisions (b : Bullet) (x y : Q) (w h : Z) : bool :=
  is_fired b
  && (Qle_bool y (y_pos b) && Qle_bool (y_pos b) (y + inject_Z h))
  && (Qle_bool x (x_pos b) && Qle_bool (x_pos b) (x + inject_Z w)).

(** [move_bullets(bullet, direction)]. *)
Definition move_bullets (b : Bullet) (direction : Z) : Bullet :=
  if is_fired b then Bullet_move b direction SCREEN_W SCREEN_H else b.

(** [reset_bullets(bullet)]. *)
Definition reset_bullets (b : Bullet) : Bullet :=
  let b := set_is_fired b false in
  let b := set_bullet_entity b (set_x_pos b (inject_Z SCREEN_W)) in
  set_bullet_entity b (set_y_pos b (inject_Z SCREEN_H)).

(** The local variables of [game_loop] that the rules of play read and
    write. *)
Record Game := {
  player : Spaceship;
  heart : Heart;
  alien_list : list Spaceship;
  score : Z;
  goal : Z;
  level : Z;
  is_game_over : bool;
  game_over_text : string
}.

Definition set_player (g : Game) (v : Spaceship) : Game :=
  {| player := v; heart := heart g; alien_list := alien_list g;
     score := score g; goal := goal g; level := level g;
     is_game_over := is_game_over g; game_over_text := game_over_text g |}.

Definition set_heart (g : Game) (v : Heart) : Game :=
  {| player := player g; heart := v; alien_list := alien_list g;
     score := score g; goal := goal g; level := level g;
     is_game_over := is_game_over g; game_over_text := game_over_text g |}.

Definition set_alien_list (g : Game) (v : list Spaceship) : Game :=
  {| player := player g; heart := heart g; alien_list := v;
     score := score g; goal := goal g; level := level g;
     is_game_over := is_game_over g; game_over_text := game_over_text g |}.

Definition set_score (g : Game) (v : Z) : Game :=
  {| player := player g; heart := heart g; alien_list := alien_list g;
     score := v; goal := goal g; level := level g;
     is_game_over := is_game_over g; game_over_text := game_over_text g |}.

Definition set_goal (g : Game) (v : Z) : Game :=
  {| player := player g; heart := heart g; alien_list := alien_list g;
     score := score g; goal := v; level := level g;
     is_game_over := is_game_over g; game_over_text := game_over_text g |}.

Definition set_level (g : Game) (v : Z) : Game :=
  {| player := player g; heart := heart g; alien_list := alien_list g;
     score := score g; goal := goal g; level := v;
     is_game_over := is_game_over g; game_over_text := game_over_text g |}.

Definition set_is_game_over (g : Game) (v : bool) : Game :=
  {| player := player g; heart := heart g; alien_list := alien_list g;
     score := score g; goal := goal g; level := level g;
     is_game_over := v; game_over_text := game_over_text g |}.

Definition set_game_over_text (g : Game) (v : string) : Game :=
  {| player := player g; heart := heart g; alien_list := alien_list g;
     score := score g; goal := goal g; level := level g;
     is_game_over := is_game_over g; game_over_text := v |}.

(** The keys that [pygame.key.get_pressed()] reports in a frame. *)
Record Keys := { K_LEFT : bool; K_RIGHT : bool; K_p : bool; K_SPACE : bool }.

(** Lines 857-866 of [game_loop].  The pause menu changes nothing of the
    game when it returns. *)
Definition player_controls (keys : Keys) (p : Spaceship) : option Spaceship :=
  p ← (if K_LEFT keys then Spaceship_move p (-1) SCREEN_W SCREEN_H else Some p);
  p ← (if K_RIGHT keys then Spaceship_move p 1 SCREEN_W SCREEN_H else Some p);
  if K_SPACE keys && negb (is_fired (bullet p)) then shoot p else Some p.

(** Lines 907-912: the player's bullet hit an alien. *)
Definition score_kill (g : Game) : Game :=
  let g := set_player g (set_bullet (player g) (reset_bullets (bullet (player g)))) in
  let g := set_score g (score g + 1) in
  if score g mod 25 =? 0 then set_level g (level g + 1) else g.

(** Lines 925 and 928-929: the player loses [dmg] points of health. *)
Definition take_damage (p : Spaceship) (dmg : Z) : Spaceship :=
  let p := set_health p (health p - dmg) in
  if health p <? 0 then set_health p 0 else p.

(** Lines 962 and 967-968: the player gains [amount] points of health. *)
Definition heal (p : Spaceship) (amount : Z) : Spaceship :=
  let p := set_health p (health p + amount) in
  if 100 <? health p then set_health p 100 else p.

(** Lines 883-893: an alien reached the player. *)
Definition aliens_reached (g : Game) : Game :=
  let g := set_is_game_over g true in
  let g := set_game_over_text g "ALIENS REACHED YOU" in
  set_player g (set_health (player g) 0).

(** Lines 897-901: the alien fires when its bullet is free, and the
    bullet advances. *)
Definition alien_fire (alien : Spaceship) : option Spaceship :=
  alien ← (if negb (is_fired (bullet alien)) then alien_shoot alien
           else Some alien);
  Some (set_bullet alien (move_bullets (bullet alien) 1)).

(** The body of the loop over the aliens (lines 878-949) for the alien
    at index [i].  The alien is an object of the list and is changed in
    place, so it is stored back at [i]; [alien_list.remove(alien)] takes
    out that very object.  The boolean says whether [break] left the
    loop. *)
Definition alien_turn (i : nat) (alien : Spaceship) (g : Game)
    : option (Game * bool) :=
  if is_killed alien then Some (g, false) else
  Spaceship_move alien 1 SCREEN_W SCREEN_H ≫= λ alien : Spaceship,
  if is_killed alien then
    Some (aliens_reached (set_alien_list g (<[i := alien]> (alien_list g))),
          true)
  else
    alien_fire alien ≫= λ alien : Spaceship,
    let '(alien, g) :=
      (if check_collisions (bullet (player g)) (x_pos alien) (y_pos alien)
            (width alien) (height alien)
       then (set_is_killed alien true, score_kill g)
       else (alien, g)) : Spaceship * Game in
    let '(alien, g) :=
      (if check_collisions (bullet alien) (x_pos (player g))
            (y_pos (player g)) (width (player g)) (height (player g))
       then (set_bullet alien (reset_bullets (bullet alien)),
             set_player g (take_damage (player g) (damage (bullet alien))))
       else (alien, g)) : Spaceship * Game in
    let g :=
      set_alien_list g
        (if is_killed alien then delete i (alien_list g)
         else <[i := alien]> (alien_list g)) in
    if health (player g) <=? 0
    then Some (set_is_game_over g true, true)
    else Some (g, false).

(** [for alien in alien_list]: the iterator keeps an index into the list
    and stops when the index is past its end, also when the body took an
    element out.  [fuel] bounds the number of turns. *)
Fixpoint alien_loop (fuel : nat) (i : nat) (g : Game) : option Game :=
  match fuel with
  | O => Some g
  | S fuel' =>
      match alien_list g !! i with
      | None => Some g
      | Some alien =>
          '(g, stop) ← alien_turn i alien g;
          if stop : bool then Some g else alien_loop fuel' (S i) g
      end
  end.

Section Session.

Variable sprite : string → bool.

(** [get_heart()]. *)
Definition get_heart : Heart :=
  Heart_init sprite 80 80 350 (-1) 1 "raw/heart.png" 30.

(** One pass of the loop of [load_aliens]. *)
Definition load_alien (st : gmap string Z * list Spaceship)
    : Rand (gmap string Z * list Spaceship) :=
  let '(rand_location, alien_list) := st in
  alien_type ← randint 1 3;
  r ← randint 1 3;
  rand_location ← get_rand_spawn rand_location r;
  if decide (alien_type = 1) then
    x ← or_raise KeyError (rand_location !! "spawn_location"%string);
    Ret (rand_location,
         alien_list ++ [Spaceship_init sprite 100 100 (inject_Z x) (-1) 3
                          "raw/alien_small.png" 1
                          (Bullet_init sprite 5 20 0 0 30 "N/A" 10) 50 false])
  else if decide (alien_type = 2) then
    x ← or_raise KeyError (rand_location !! "spawn_location"%string);
    Ret (rand_location,
         alien_list ++ [Spaceship_init sprite 120 120 (inject_Z x) (-1) (3 # 2)
                          "raw/alien_medium.png" 1
                          (Bullet_init sprite 5 20 0 0 30 "N/A" 25) 75 false])
  else if decide (alien_type = 3) then
    x ← or_raise KeyError (rand_location !! "spawn_location"%string);
    Ret (rand_location,
         alien_list ++ [Spaceship_init sprite 150 150 (inject_Z x) (-1) (3 # 4)
                          "raw/alien_big.png" 1
                          (Bullet_init sprite 5 20 0 0 30 "N/A" 50) 100 false])
  else Ret (rand_location, alien_list).

(** [load_aliens(alien_list)]: the list with the two new aliens. *)
Definition load_aliens (alien_list : list Spaceship) : Rand (list Spaceship) :=
  let rand_location : gmap string Z :=
    {[ "spawn_location"%string := 0; "previous_location"%string := 0 ]} in
  st ← load_alien (rand_location, alien_list);
  st ← load_alien st;
  Ret st.2.

(** Lines 952-976: the health pickup. *)
Definition heart_section (g : Game) : option Game :=
  if goal g <=? score g then
    if negb (is_claimed (heart g)) then
      Heart_move (heart g) 1 SCREEN_W SCREEN_H ≫= λ h : Heart,
      if check_collisions (bullet (player g)) (x_pos h) (y_pos h)
           (width h) (height h)
      then
        let p := heal (player g) (restore_amount h) in
        let p := set_bullet p (reset_bullets (bullet p)) in
        Some (set_goal (set_player (set_heart g (set_is_claimed h true)) p)
                (goal g + 10))
      else Some (set_heart g h)
    else Some (set_heart g get_heart)
  else Some g.

(** The state of [game_loop] before its first frame (lines 810-826). *)
Definition game_init : Game :=
  {| player := Spaceship_init sprite 130 130 350 780 10 "raw/player.png" 100
                 (Bullet_init sprite 5 20 0 0 30 "N/A" 1) 0 true;
     heart := get_heart;
     alien_list := [];
     score := 0;
     goal := 10;
     level := 1;
     is_game_over := false;
     game_over_text := "YOU DIED" |}.

(** One pass of the [while running] loop (lines 847-976).  Once the game
    is over the pass enters [game_over_menu], which is left only by
    ending the process. *)
Definition frame (keys : Keys) (g : Game) : Rand Game :=
  if is_game_over g then Raise SystemExit else
  p ← or_raise AttributeError (player_controls keys (player g));
  let g := set_player g p in
  aliens ← (if Z.of_nat (length (alien_list g)) <? level g
            then load_aliens (alien_list g) else Ret (alien_list g));
  let g := set_alien_list g aliens in
  let g := set_player g (set_bullet (player g)
                           (move_bullets (bullet (player g)) (-1))) in
  g ← or_raise AttributeError (alien_loop (length (alien_list g)) 0 g);
  or_raise AttributeError (heart_section g).

(** The states of a session: the initial one and those that frames lead
    to, whatever the keys and the random draws. *)
Inductive reachable : Game → Prop :=
| reachable_init : reachable game_init
| reachable_frame keys g g' :
    reachable g → outcome (frame keys g) g' → reachable g'.

End Session.

Definition no_keys : Keys :=
  {| K_LEFT := false; K_RIGHT := false; K_p := false; K_SPACE := false |}.
Definition fire_key : Keys :=
  {| K_LEFT := false; K_RIGHT := false; K_p := false; K_SPACE := true |}.

(** ** Vocabulary of the score-file properties *)

(** The parts that [read_scores] splits a line into. *)
Definition parts_of (line : string) : list string :=
  Text.split (Text.strip line) ": ".

(** The line splits on ": " into exactly two parts. *)
Definition two_parts (line : string) : Prop := length (parts_of line) = 2%nat.

(** The second part of the line as an integer, when it is one. *)
Definition score_of (line : string) : option Z :=
  Text.int (Text.strip (nth 1 (parts_of line) ""%string)).

(** A line of two parts whose second part is not an integer. *)
Definition bad_score (line : string) : Prop :=
  two_parts line ∧ score_of line = None.

Global Instance two_parts_dec line : Decision (two_parts line).
Proof. unfold two_parts. apply _. Defined.

Global Instance bad_score_dec line : Decision (bad_score line).
Proof. unfold bad_score. apply _. Defined.

(** The entry that a line contributes: none for a line that is not of
    two parts. *)
Definition entry_of (line : string) : option (string * Z) :=
  if decide (two_parts line)
  then (λ n, (Text.strip line, n)) <$> score_of line
  else None.

(** A score file of two lines, the first with a second part that is not
    an integer. *)
Definition spoiled_file : filesystem :=
  {[ "s.txt"%string := Data ("a: b" +:+ nl +:+ "Ada - Score: 42" +:+ nl) ]}.

(** A score file of two lines, the first without ": ". *)
Definition one_part_file : filesystem :=
  {[ "s.txt"%string := Data ("a b" +:+ nl +:+ "Ada - Score: 42" +:+ nl) ]}.

(** A score file whose second line has a second part that is not an
    integer. *)
Definition half_read_file : filesystem :=
  {[ "s.txt"%string :=
       Data ("Bob - Score: 7" +:+ nl +:+ "a: b" +:+ nl
             +:+ "Ada - Score: 42" +:+ nl) ]}.

(** The text is empty or its last character ends a line. *)
Definition ends_line (text : string) : Prop :=
  ∀ c, last (list_ascii_of_string text) = Some c → c = Text.LF ∨ c = Text.CR.

(** The order of a list sorted by score, highest first. *)
Definition descending (a b : string * Z) : Prop := b.2 ≤ a.2.


(** ** Vocabulary of the spawn properties *)

(** [x] lies in the fixed range of the lane. *)
Definition in_lane (lane x : Z) : Prop :=
  (lane = 1 ∧ 75 ≤ x ≤ 175) ∨ (lane = 2 ∧ 325 ≤ x ≤ 375)
  ∨ (lane = 3 ∧ 525 ≤ x ≤ 625).

(** The lane recorded in a spawn-state dictionary is [lane]. *)
Definition lane_is (lane : Z) (location_list : gmap string Z) : bool :=
  bool_decide (location_list !! "previous_location"%string = Some lane).

(** Two computations that agree draw by draw. *)
Inductive Rand_equiv {A} : Rand A → Rand A → Prop :=
| Rand_equiv_ret a : Rand_equiv (Ret a) (Ret a)
| Rand_equiv_raise e : Rand_equiv (Raise e) (Raise e)
| Rand_equiv_randint lo hi k k' :
    (∀ v, Rand_equiv (k v) (k' v)) →
    Rand_equiv (Randint lo hi k) (Randint lo hi k').

(** The two lanes other than lane [p], in ascending order. *)
Definition other_lanes (p : Z) : list Z :=
  filter (λ lane, lane ≠ p) [1; 2; 3].

(** A spawn state whose previous lane is lane 1. *)
Definition state_after_lane_1 : gmap string Z :=
  {[ "spawn_location"%string := 100; "previous_location"%string := 1 ]}.

(** ** Vocabulary of the game properties *)

(** The bullet lies strictly inside the vertical extent of the screen. *)
Definition in_field (b : Bullet) : Prop :=
  (0 < y_pos b)%Q ∧ (y_pos b < inject_Z SCREEN_H)%Q.

(** A bullet that is not fired lies outside. *)
Definition unfired_out (b : Bullet) : Prop :=
  is_fired b = false → ¬ in_field b.

(** The bullet is fired exactly when it lies inside. *)
Definition bullet_ok (b : Bullet) : Prop :=
  is_fired b = true ↔ in_field b.

(** All bullets of a session: the player's and the aliens'. *)
Definition bullets (g : Game) : list Bullet :=
  bullet (player g) :: (bullet <$> alien_list g).

(** What holds of every alien of a session. *)
Definition alien_inv (a : Spaceship) : Prop :=
  0 ≤ damage (bullet a) ∧ bullet_ok (bullet a).

(** What holds of a session between two frames. *)
Definition game_inv (g : Game) : Prop :=
  0 ≤ health (player g) ≤ 100
  ∧ bullet_ok (bullet (player g))
  ∧ Forall alien_inv (alien_list g)
  ∧ 0 ≤ restore_amount (heart g)
  ∧ 0 ≤ score g
  ∧ level g = 1 + score g / 25.

(** What holds of the shape of every alien of a session. *)
Definition alien_shape (a : Spaceship) : Prop :=
  is_player a = false ∧ 1 < height a.

(** The player is the player and its rectangle, when the sprite was
    loaded, stays at the height it was created at. *)
Definition player_shape (p : Spaceship) : Prop :=
  is_player p = true ∧ ∀ r, placeholder p = Some r → rect_y r = 715.

(** What holds of the shapes in a session between two frames. *)
Definition shape_inv (g : Game) : Prop :=
  player_shape (player g) ∧ Forall alien_shape (alien_list g).

(** ** Sample sessions *)

(** Every sprite file of the game loads. *)
Definition all_sprites : string → bool := λ _, true.

(** The session after a first frame in which the player fires and two
    aliens are spawned. *)
Definition sample_state : Game :=
  default (game_init all_sprites)
    (run (frame all_sprites fire_key (game_init all_sprites))
       [1; 2; 350; 3; 1; 1; 600]).

(** The session one frame after [sample_state], no key pressed. *)
Definition sample_state_2 : Game :=
  default sample_state (run (frame all_sprites no_keys sample_state) []).

(** A session run frame by frame on given keys and draws. *)
Fixpoint run_frames (sprite : string → bool) (g : Game)
    (inputs : list (Keys * list Z)) : option Game :=
  match inputs with
  | [] => Some g
  | (keys, draws) :: inputs' =>
      g' ← run (frame sprite keys g) draws; run_frames sprite g' inputs'
  end.

(** A small alien of the middle lane, 102 pixels above the danger line
    with its lower edge. *)
Definition near_alien : Spaceship :=
  let a := Spaceship_init all_sprites 100 100 350 (-1) 3 "raw/alien_small.png" 1
             (Bullet_init all_sprites 5 20 0 0 30 "N/A" 10) 50 false in
  set_ship_entity a
    (set_placeholder (set_y_pos a 678)
       {| rect_x := 300; rect_y := 678; rect_w := 100; rect_h := 100 |}).

(** A session with that alien, the player at full health. *)
Definition danger_state : Game :=
  set_alien_list (game_init all_sprites) [near_alien].

(** An alien in play: not killed, and the lower edge of its rectangle
    above the danger line. *)
Definition in_play (a : Spaceship) : Prop :=
  is_killed a = false
  ∧ ∀ r, placeholder a = Some r → rect_y r + height a < SCREEN_H - 120.

(** What holds of the course of a session between two frames. *)
Definition status_inv (g : Game) : Prop :=
  (is_game_over g = false →
     0 < health (player g) ∧ Forall in_play (alien_list g)
     ∧ game_over_text g = "YOU DIED"%string)
  ∧ (is_game_over g = true →
     (health (player g) = 0 ∨ health (player g) = 30)
     ∧ (game_over_text g = "YOU DIED"%string
        ∨ game_over_text g = "ALIENS REACHED YOU"%string))
  ∧ Z.of_nat (length (alien_list g)) ≤ level g + 1
  ∧ restore_amount (heart g) = 30.

(** The same inside the loop over the aliens, where a game that is over
    has a player without health. *)
Definition status_loop_inv (g : Game) : Prop :=
  (is_game_over g = false →
     0 < health (player g) ∧ Forall in_play (alien_list g)
     ∧ game_over_text g = "YOU DIED"%string)
  ∧ (is_game_over g = true →
     health (player g) = 0
     ∧ (game_over_text g = "YOU DIED"%string
        ∨ game_over_text g = "ALIENS REACHED YOU"%string))
  ∧ Z.of_nat (length (alien_list g)) ≤ level g + 1
  ∧ restore_amount (heart g) = 30.

(** The alien that [load_aliens] builds for a type (1 small, 2 medium,
    3 big) at the spawn position [x]. *)
Definition alien_of (sprite : string → bool) (alien_type x : Z) : Spaceship :=
  if decide (alien_type = 1) then
    Spaceship_init sprite 100 100 (inject_Z x) (-1) 3 "raw/alien_small.png" 1
      (Bullet_init sprite 5 20 0 0 30 "N/A" 10) 50 false
  else if decide (alien_type = 2) then
    Spaceship_init sprite 120 120 (inject_Z x) (-1) (3 # 2)
      "raw/alien_medium.png" 1
      (Bullet_init sprite 5 20 0 0 30 "N/A" 25) 75 false
  else
    Spaceship_init sprite 150 150 (inject_Z x) (-1) (3 # 4) "raw/alien_big.png"
      1 (Bullet_init sprite 5 20 0 0 30 "N/A" 50) 100 false.

(** ** Vocabulary of the player's ship *)

(** [p'] is the ship [p] up to its health and its bullet. *)
Definition same_ship (p p' : Spaceship) : Prop :=
  ship_entity p' = ship_entity p ∧ is_killed p' = is_killed p
  ∧ is_player p' = is_player p ∧ shoot_delay p' = shoot_delay p
  ∧ shoot_timer p' = shoot_timer p.

(** The ship after the arrow keys of a frame. *)
Definition steer (keys : Keys) (p : Spaceship) : option Spaceship :=
  p ← (if K_LEFT keys then Spaceship_move p (-1) SCREEN_W SCREEN_H else Some p);
  if K_RIGHT keys then Spaceship_move p 1 SCREEN_W SCREEN_H else Some p.

(** The player's ship as it stays throughout a session: alive, of the
    size and speed it was created with, at the height it was created at,
    between the left and the right edge of the screen, its rectangle at
    its position rounded to the nearest integer. *)
Definition on_screen (p : Spaceship) : Prop :=
  is_player p = true ∧ is_killed p = false
  ∧ width p = 130 ∧ height p = 130 ∧ speed p = 10%Q
  ∧ (y_pos p == if has_image p then 715 else 780)%Q
  ∧ (0 <= x_pos p)%Q ∧ (x_pos p + inject_Z (width p) <= inject_Z SCREEN_W)%Q
  ∧ ∀ r, placeholder p = Some r →
         rect_x r = to_int (x_pos p) ∧ rect_y r = 715
         ∧ 0 ≤ rect_x r ∧ rect_x r + width p ≤ SCREEN_W.

(** ** Vocabulary of the player's bullet and the health pickup *)

(** What a frame can do with the player's bullet [b1] once it has moved:
    nothing more, or reset it after it hit an alien, or reset it after it
    hit the heart. *)
Inductive bullet_fate := Flies | Kills | Collects.

(** The heart of a session: the one of [get_heart] up to its height on
    the screen, and the goal a positive multiple of 10. *)
Definition heart_inv (sprite : string → bool) (g : Game) : Prop :=
  speed (heart g) = 1%Q ∧ restore_amount (heart g) = 30
  ∧ width (heart g) = 80 ∧ height (heart g) = 80
  ∧ x_pos (heart g) = x_pos (get_heart sprite)
  ∧ (is_claimed (heart g) = false →
     ∀ r, placeholder (heart g) = Some r → rect_y r < SCREEN_H + 80)
  ∧ 0 < goal g ∧ goal g mod 10 = 0.

(** ** Vocabulary of the new aliens *)

(** The horizontal extent of a ship lies on the screen. *)
Definition fits_screen (a : Spaceship) : Prop :=
  (0 <= x_pos a)%Q ∧ (x_pos a + inject_Z (width a) <= inject_Z SCREEN_W)%Q.

(** The horizontal extents of two ships share at most an edge. *)
Definition apart (a b : Spaceship) : Prop :=
  (x_pos a + inject_Z (width a) <= x_pos b)%Q
  ∨ (x_pos b + inject_Z (width b) <= x_pos a)%Q.

(** The three sprites of the aliens load. *)
Definition alien_sprites (sprite : string → bool) : Prop :=
  sprite "raw/alien_small.png" = true
  ∧ sprite "raw/alien_medium.png" = true
  ∧ sprite "raw/alien_big.png" = true.

(** The two aliens of a first call of [load_aliens]. *)
Definition sample_aliens : list Spaceship :=
  default [] (run (load_aliens all_sprites []) [1; 2; 350; 3; 1; 1; 600]).

(** ** Vocabulary of a session that does not crash *)

(** [safe m]: whatever the draws, [m] returns: it raises no exception
    and draws from no empty range. *)
Inductive safe {A} : Rand A → Prop :=
| safe_ret a : safe (Ret a)
| safe_randint lo hi k :
    lo ≤ hi → (∀ v, lo ≤ v ≤ hi → safe (k v)) → safe (Randint lo hi k).

(** The sprite files of the game load. *)
Definition game_sprites (sprite : string → bool) : Prop :=
  sprite "raw/player.png" = true ∧ sprite "raw/heart.png" = true
  ∧ alien_sprites sprite.

(** The entity has its rectangle. *)
Definition has_rect (e : Entity) : Prop := is_Some (placeholder e).

(** Every entity of the session has its rectangle. *)
Definition loaded (g : Game) : Prop :=
  has_rect (player g) ∧ has_rect (heart g)
  ∧ Forall (λ a : Spaceship, has_rect a) (alien_list g).

(** A session at the start of the loop over the aliens: a small alien
    of the middle lane with the player's bullet inside it, followed by a
    medium alien of the right lane. *)
Definition kill_state : Game :=
  let g := game_init all_sprites in
  let p := player g in
  set_alien_list
    (set_player g (set_bullet p (set_coordinates (bullet p) 350 (-100))))
    [alien_of all_sprites 1 350; alien_of all_sprites 2 600].

(** ** Vocabulary of the names that are written *)

(** The text has no line break. *)
Definition one_line (s : string) : Prop :=
  Forall (λ c, c ≠ Text.LF ∧ c ≠ Text.CR) (list_ascii_of_string s).

(** A score file with two entries, and the text it holds. *)
Definition two_scores : string :=
  "Zoe - Score: 50" +:+ nl +:+ "Bob - Score: 7" +:+ nl.
Definition two_scores_file : filesystem := {[ DEFAULT_FILE := Data two_scores ]}.

(** ** Vocabulary of the score menu *)

(** What [read_scores] appends for the user's file, when one is given,
    and whether that read succeeded. *)
Definition user_scores (fs : filesystem) (user_path : string)
    (is_user_given : bool) : list (string * Z) * bool :=
  if is_user_given then read_scores fs [] user_path else ([], true).

(** ** Input fields *)

(** The events of [pygame.event.get()] that the menus look at:
    [event.pos] of a mouse click, and of a key press whether it is
    [K_BACKSPACE] and its [event.unicode]. *)
Inductive Event :=
| MOUSEBUTTONDOWN (pos_x pos_y : Z)
| KEYDOWN (backspace : bool) (unicode : string)
| QUIT
| OTHER.

(** [Rect.collidepoint]: the right and the bottom edge are outside. *)
Definition collidepoint (r : Rect) (x y : Z) : bool :=
  (rect_x r <=? x) && (x <? rect_x r + rect_w r)
  && (rect_y r <=? y) && (y <? rect_y r + rect_h r).

(** [s[:-1]]. *)
Definition drop_last (s : string) : string :=
  string_of_list_ascii (removelast (list_ascii_of_string s)).

Module InputField.

(** The attributes of [InputField] that its methods read and write.
    [color] says whether the field shows [active_color]. *)
Record t := {
  rect : Rect;
  is_active : bool;
  text : string;
  color : bool
}.

(** [InputField.__init__] on integer coordinates. *)
Definition init (width height x_pos y_pos : Z) : t :=
  {| rect := {| rect_x := x_pos;
                rect_y := if y_pos =? -1 then - height else y_pos;
                rect_w := width; rect_h := height |};
     is_active := false; text := ""; color := false |}.

(** [InputField.handle_event]: the field afterwards and the result,
    [None] for Python's [None]. *)
Definition handle_event (f : t) (event : Event) : t * option string :=
  match event with
  | MOUSEBUTTONDOWN x y =>
      let was_active := is_active f in
      let now := collidepoint (rect f) x y in
      let f := {| rect := rect f; is_active := now; text := text f;
                  color := now |} in
      (f, if was_active && negb now then Some (text f) else None)
  | KEYDOWN backspace unicode =>
      if is_active f then
        ({| rect := rect f; is_active := is_active f;
            text := if backspace then drop_last (text f)
                    else text f +:+ unicode;
            color := color f |}, None)
      else (f, None)
  | _ => (f, None)
  end.

(** [InputField.draw]: the rectangle grows to the rendered text, whose
    width [txt_width] gives. *)
Definition draw (txt_width : string → Z) (f : t) : t :=
  {| rect := {| rect_x := rect_x (rect f); rect_y := rect_y (rect f);
                rect_w := Z.max (rect_w (rect f)) (txt_width (text f) + 10);
                rect_h := rect_h (rect f) |};
     is_active := is_active f; text := text f; color := color f |}.

End InputField.

(** ** Saving a score *)

(** [os.path.exists(path)]: [locked_exists] answers for the paths that
    [open] refuses. *)
Definition path_exists (locked_exists : string → bool) (fs : filesystem)
    (path : string) : bool :=
  match fs !! path with
  | Some (Data _) | Some (ReadOnly _) => true
  | Some Locked => locked_exists path
  | None => false
  end.

(** [check_file_path(path)]. *)
Definition check_file_path (locked_exists : string → bool) (fs : filesystem)
    (path : string) : bool :=
  if String.eqb path DEFAULT_FILE then true
  else if endswith (lower path) ".txt"
       then path_exists locked_exists fs path
       else false.

Module SaveMenu.

(** The local variables of [save_score_menu]. *)
Record t := {
  text : string;
  name : string;
  path : string;
  is_saved : bool;
  name_field : InputField.t;
  path_field : InputField.t;
  running : bool
}.

(** The state before the first pass of the loop (lines 523-539). *)
Definition init : t :=
  {| text := "Save (s)"; name := "Player"; path := DEFAULT_FILE;
     is_saved := false;
     name_field := InputField.init 350 50 (SCREEN_W / 2 - 175) (SCREEN_H / 2);
     path_field :=
       InputField.init 680 35 (SCREEN_W / 2 - 340) (SCREEN_H / 2 + 180);
     running := true |}.

(** The body of the loop over the events (lines 542-549). *)
Definition on_event (m : t) (event : Event) : t :=
  let running := match event with QUIT => false | _ => running m end in
  let '(nf, res_name) := InputField.handle_event (name_field m) event in
  let name := default (name m) res_name in
  let '(pf, res_path) := InputField.handle_event (path_field m) event in
  let path := default (path m) res_path in
  {| text := text m; name := name; path := path; is_saved := is_saved m;
     name_field := nf; path_field := pf; running := running |}.

(** Lines 553-557: an empty name or path stands for the default. *)
Definition defaults (m : t) : t :=
  {| text := text m;
     name := if String.eqb (name m) "" then "Player" else name m;
     path := if String.eqb (path m) "" then DEFAULT_FILE else path m;
     is_saved := is_saved m;
     name_field := name_field m; path_field := path_field m;
     running := running m |}.

Definition idle (m : t) : bool :=
  negb (InputField.is_active (name_field m))
  && negb (InputField.is_active (path_field m)).

Definition set_text (m : t) (v : string) (saved : bool) : t :=
  {| text := v; name := name m; path := path m; is_saved := saved;
     name_field := name_field m; path_field := path_field m;
     running := running m |}.

(** Lines 559-572: the attempt to save. *)
Definition save (locked_exists : string → bool) (fs : filesystem) (m : t)
    (K_s : bool) (score : Z) : filesystem * t :=
  if K_s && negb (is_saved m) && idle m then
    if check_file_path locked_exists fs (path m) then
      let '(fs', res) := write_scores fs (name m) (path m) score in
      if res : bool then (fs', set_text m "Score saved!" true)
      else (fs', set_text m "Score NOT saved!" (is_saved m))
    else (fs, set_text m "Invalid path!" (is_saved m))
  else (fs, m).

(** One pass of the [while running] loop (lines 541-601): the file
    system and the state afterwards, and whether [return] left the
    menu. *)
Definition pass (locked_exists : string → bool) (txt_width : string → Z)
    (fs : filesystem) (m : t) (events : list Event) (K_s K_b : bool)
    (score : Z) : filesystem * t * bool :=
  let m := defaults (fold_left on_event events m) in
  let '(fs, m) := save locked_exists fs m K_s score in
  if K_b && idle m then (fs, m, true)
  else
    (fs,
     {| text := text m; name := name m; path := path m;
        is_saved := is_saved m;
        name_field := InputField.draw txt_width (name_field m);
        path_field := InputField.draw txt_width (path_field m);
        running := running m |},
     false).

(** The passes of a visit to the menu, on the events and keys of each:
    the loop ends when a pass returns or [running] is cleared. *)
Fixpoint passes (locked_exists : string → bool) (txt_width : string → Z)
    (fs : filesystem) (m : t) (inputs : list (list Event * bool * bool))
    (score : Z) : filesystem * t :=
  match inputs with
  | [] => (fs, m)
  | (events, K_s, K_b) :: inputs' =>
      if running m then
        let '(fs', m', returned) :=
          pass locked_exists txt_width fs m events K_s K_b score in
        if returned : bool then (fs', m')
        else passes locked_exists txt_width fs' m' inputs' score
      else (fs, m)
  end.

End SaveMenu.

(** The name that the save menu writes for the text of the name field. *)
Definition name_for (field_text : string) : string :=
  if String.eqb field_text "" then "Player"%string else field_text.

(** The path that the save menu writes to for the text of the path
    field. *)
Definition path_for (field_text : string) : string :=
  if String.eqb field_text "" then DEFAULT_FILE else field_text.

(** What holds of the save menu between two passes: a field shows the
    active colour exactly when it is active, and while a field is
    inactive the name or path in use is the one for its text. *)
Definition save_menu_inv (m : SaveMenu.t) : Prop :=
  InputField.color (SaveMenu.name_field m)
  = InputField.is_active (SaveMenu.name_field m)
  ∧ InputField.color (SaveMenu.path_field m)
    = InputField.is_active (SaveMenu.path_field m)
  ∧ (InputField.is_active (SaveMenu.name_field m) = false →
     name_for (SaveMenu.name m)
     = name_for (InputField.text (SaveMenu.name_field m)))
  ∧ (InputField.is_active (SaveMenu.path_field m) = false →
     path_for (SaveMenu.path m)
     = path_for (InputField.text (SaveMenu.path_field m)))
  ∧ (SaveMenu.is_saved m = true ↔ SaveMenu.text m = "Score saved!"%string).

(** A click into the name field, the keys E, v, x, backspace, e, and a
    click outside both fields. *)
Definition typing_eve : list Event :=
  [MOUSEBUTTONDOWN 200 460; KEYDOWN false "E"; KEYDOWN false "v";
   KEYDOWN false "x"; KEYDOWN true ""; KEYDOWN false "e";
   MOUSEBUTTONDOWN 10 10].

(** ** Buttons *)

(** [Button.__init__]: the entity of a button; its text, font, colours
    and action are left out. *)
Definition Button_init (sprite : string → bool) (width height x_pos y_pos : Z)
    (speed : Q) (image_path : string) : Entity :=
  Entity_init sprite width height (inject_Z x_pos) (inject_Z y_pos) speed
    image_path.

(** The test of [Button.draw]: the mouse is strictly inside the button. *)
Definition Button_hover (b : Entity) (mouse_x mouse_y : Z) : bool :=
  negb (Qle_bool (inject_Z mouse_x) (x_pos b))
  && negb (Qle_bool (x_pos b + inject_Z (width b)) (inject_Z mouse_x))
  && negb (Qle_bool (inject_Z mouse_y) (y_pos b))
  && negb (Qle_bool (y_pos b + inject_Z (height b)) (inject_Z mouse_y)).

(** [Button.draw]: whether the action of a button that has one is
    called. *)
Definition Button_draw (b : Entity) (mouse_x mouse_y : Z) (pressed : bool)
    : bool :=
  Button_hover b mouse_x mouse_y && pressed.

(** The buttons of [main_menu]: Play, High Scores, Quit. *)
Definition main_menu_buttons (sprite : string → bool) : list Entity :=
  [Button_init sprite 200 80 (SCREEN_W / 2 - 100) (SCREEN_H / 2) 0 "N/A";
   Button_init sprite 300 80 (SCREEN_W / 2 - 150) (SCREEN_H / 2 + 125) 0 "N/A";
   Button_init sprite 200 80 (SCREEN_W / 2 - 100) (SCREEN_H / 2 + 250) 0 "N/A"].

(** The buttons of [game_over_menu]: Save Score, Retry, Quit. *)
Definition game_over_buttons (sprite : string → bool) : list Entity :=
  [Button_init sprite 200 80 (SCREEN_W / 2 - 100) (SCREEN_H / 2) 0 "N/A";
   Button_init sprite 200 80 (SCREEN_W / 2 - 100) (SCREEN_H / 2 + 120) 0 "N/A";
   Button_init sprite 200 80 (SCREEN_W / 2 - 100) (SCREEN_H / 2 + 240) 0 "N/A"].

(** ** Vocabulary of the aliens of a session *)

(** The alien [a] is the alien [a0] as it was created, up to its way
    down, its bullet in flight and its timer. *)
Definition descends_from (a0 a : Spaceship) : Prop :=
  width a = width a0 ∧ height a = height a0 ∧ speed a = speed a0
  ∧ x_pos a = x_pos a0 ∧ has_image a = has_image a0
  ∧ (y_pos a0 <= y_pos a)%Q
  ∧ (∀ r, placeholder a = Some r →
       ∃ r0, placeholder a0 = Some r0 ∧ rect_x r = rect_x r0)
  ∧ is_player a = false ∧ health a = 1
  ∧ shoot_delay a = shoot_delay a0 ∧ 0 ≤ shoot_timer a
  ∧ damage (bullet a) = damage (bullet a0)
  ∧ speed (bullet a) = 30%Q
  ∧ width (bullet a) = 5 ∧ height (bullet a) = 20.

(** The alien is one of the three types, spawned in one of the lanes. *)
Definition alien_kind (sprite : string → bool) (a : Spaceship) : Prop :=
  ∃ t x lane, 1 ≤ t ≤ 3 ∧ in_lane lane x
              ∧ descends_from (alien_of sprite t x) a.

(** The alien [a] is the alien [a0] after a number of moves down: it
    has the height and the speed of [a0], a rectangle only if [a0] has
    one, and its position is that of [a0] plus that many times the
    speed. *)
Definition on_track (a0 a : Spaceship) : Prop :=
  height a = height a0 ∧ speed a = speed a0
  ∧ (is_Some (placeholder a) → is_Some (placeholder a0))
  ∧ ∃ k : nat,
      (y_pos a == y_pos a0 + inject_Z (Z.of_nat k) * speed a0)%Q.

(** The alien is one of the three types on its way down from where it
    was created. *)
Definition alien_track (sprite : string → bool) (a : Spaceship) : Prop :=
  ∃ t x, 1 ≤ t ≤ 3 ∧ on_track (alien_of sprite t x) a.



(** * Properties *)

(** ** Evaluations of the model *)

Example int_cases :
  Text.int "1__0" = None ∧ Text.int "" = None ∧ Text.int "- 1" = None
  ∧ Text.int "12a" = None ∧ Text.int "_1" = None ∧ Text.int "1_" = None
  ∧ Text.int "007" = Some 7 ∧ Text.int "+5" = Some 5
  ∧ Text.int " -1_000 " = Some (-1000).
Proof. repeat split; reflexivity. Qed.

Example split_cases :
  Text.split "Ada - Score: 42" ": " = ["Ada - Score"; "42"]%string
  ∧ Text.split "a: b: c" ": " = ["a"; "b"; "c"]%string
  ∧ Text.split "a: : b" ": " = ["a"; ""; "b"]%string
  ∧ Text.split "a::  b" ": " = ["a:"; " b"]%string
  ∧ Text.split ": b" ": " = [""; "b"]%string
  ∧ Text.split (Text.strip "a: ") ": " = ["a:"]%string.
Proof. repeat split; reflexivity. Qed.

Example readlines_cases :
  Text.readlines (String "a" (String Text.CR (String Text.LF (String "b"
    (String Text.CR (String "c" (String Text.LF (String Text.LF
    (String "d" (String Text.CR ""))))))))))
  = ["a" +:+ nl; "b" +:+ nl; "c" +:+ nl; nl; "d" +:+ nl].
Proof. reflexivity. Qed.

Example str_cases :
  Text.str 42 = "42"%string ∧ Text.str (-7) = "-7"%string
  ∧ Text.str 0 = "0"%string.
Proof. repeat split; vm_compute; reflexivity. Qed.

Example sort_scores_cases :
  sort_scores [("a", 3); ("b", 7); ("c", 3); ("d", 9)]%string
  = [("d", 9); ("b", 7); ("a", 3); ("c", 3)]%string.
Proof. reflexivity. Qed.

Example read_scores_all_lines :
  read_scores
    {[ "f.txt"%string :=
         Data ("Bob - Score: 7" +:+ nl +:+ "junk" +:+ nl
               +:+ "Ada - Score: 42" +:+ nl) ]} [] "f.txt"
  = ([("Bob - Score: 7", 7); ("Ada - Score: 42", 42)]%string, true).
Proof. vm_compute. reflexivity. Qed.

Example read_scores_stopped :
  read_scores half_read_file [] "s.txt"
  = ([("Bob - Score: 7", 7)]%string, false).
Proof. vm_compute. reflexivity. Qed.

Example get_rand_spawn_run :
  run (get_rand_spawn state_after_lane_1 1) [1; 600]
  = Some {[ "spawn_location"%string := 600;
            "previous_location"%string := 3 ]}.
Proof. vm_compute. reflexivity. Qed.

(** The first frame: two aliens are spawned above the screen, the player
    fires, and the bullet has moved up by 30 from the top of the ship. *)
Example first_frame :
  (λ g, (rect_y <$> (alien_list g ≫= λ a : Spaceship,
                       option_list (placeholder a)),
         Qred (y_pos (bullet (player g))), is_fired (bullet (player g))))
    <$> run (frame all_sprites fire_key (game_init all_sprites))
          [1; 2; 350; 3; 1; 1; 600]
  = Some ([-147; -224], 685%Q, true).
Proof. vm_compute. reflexivity. Qed.

(** Without the sprite files the ships have no rectangle and the first
    frame ends in an exception. *)
Example first_frame_without_sprites :
  run (frame (λ _, false) fire_key (game_init (λ _, false)))
    [1; 2; 350; 3; 1; 1; 600] = None.
Proof. vm_compute. reflexivity. Qed.

(** ** Collisions *)

(** C5: [check_collisions] holds exactly for a fired bullet whose
    position, taken as a point, lies in the closed rectangle of the
    target; a fired bullet at (350, 400) hits the rectangle
    (340, 390, 100, 100) and at (350, 300) it does not. *)
Theorem check_collisions_point_in_rect (b : Bullet) (x y : Q) (w h : Z) :
  (check_collisions b x y w h = true ↔
     is_fired b = true
     ∧ (y <= y_pos b)%Q ∧ (y_pos b <= y + inject_Z h)%Q
     ∧ (x <= x_pos b)%Q ∧ (x_pos b <= x + inject_Z w)%Q)
  ∧ check_collisions (set_coordinates b 350 400) 340 390 100 100 = true
  ∧ check_collisions (set_coordinates b 350 300) 340 390 100 100 = false.
Proof.
  split; [|split; reflexivity].
  unfold check_collisions.
  rewrite !andb_true_iff, !Qle_bool_iff. tauto.
Qed.

(** ** Reading the score file *)

Lemma read_line_skip l line :
  ¬ two_parts line → read_line l line = Some l.
Proof.
  unfold two_parts, parts_of, read_line. intros H.
  destruct (Nat.eqb_spec (length (Text.split (Text.strip line) ": ")) 2);
    [contradiction|reflexivity].
Qed.

Lemma read_line_two l line :
  two_parts line →
  read_line l line = (λ n, l ++ [(Text.strip line, n)]) <$> score_of line.
Proof.
  unfold two_parts, score_of, parts_of, read_line. intros H.
  rewrite H. simpl. by destruct (Text.int _).
Qed.

Lemma read_line_entry l line :
  ¬ bad_score line →
  read_line l line = Some (l ++ option_list (entry_of line)).
Proof.
  intros Hbad. unfold entry_of.
  destruct (decide (two_parts line)) as [H2|H2].
  - rewrite read_line_two by done.
    destruct (score_of line) eqn:Hs; [done|].
    exfalso. apply Hbad. by split.
  - rewrite read_line_skip by done. simpl. by rewrite app_nil_r.
Qed.

Lemma read_line_bad l line : bad_score line → read_line l line = None.
Proof. intros [H2 Hs]. rewrite read_line_two by done. by rewrite Hs. Qed.

Lemma entries_cons line lines :
  omap entry_of (line :: lines)
  = option_list (entry_of line) ++ omap entry_of lines.
Proof. simpl. by destruct (entry_of line). Qed.

Lemma read_lines_complete lines : ∀ l,
  Forall (λ line, ¬ bad_score line) lines →
  read_lines l lines = (l ++ omap entry_of lines, true).
Proof.
  induction lines as [|line lines IH]; intros l Hall.
  - simpl. by rewrite app_nil_r.
  - apply Forall_cons in Hall as [Hline Hall].
    cbn [read_lines]. rewrite read_line_entry by done.
    rewrite IH by done. by rewrite entries_cons, app_assoc.
Qed.

Lemma read_lines_abort pre line post : ∀ l,
  Forall (λ line, ¬ bad_score line) pre →
  bad_score line →
  read_lines l (pre ++ line :: post) = (l ++ omap entry_of pre, false).
Proof.
  induction pre as [|x pre IH]; intros l Hall Hbad.
  - simpl. rewrite read_line_bad by done. by rewrite app_nil_r.
  - apply Forall_cons in Hall as [Hx Hall].
    rewrite <- app_comm_cons. cbn [read_lines].
    rewrite read_line_entry by done.
    rewrite IH by done. by rewrite entries_cons, app_assoc.
Qed.

(** The lines of a file as [read_scores] treats them: a line that does
    not split on ": " into exactly two parts is passed over; a line of
    two parts whose second part is not an integer ends the read with
    [False], the entries of the lines before it staying in
    [score_list]; and when no line of two parts has such a second part,
    every line of two parts is appended, in the order of the file, and
    [read_scores] returns [True]. *)
Lemma read_scores_by_line (fs : filesystem) (path text : string)
    (score_list : list (string * Z)) :
  open_read fs path = Some text →
  (∀ l line, ¬ two_parts line → read_line l line = Some l)
  ∧ (∀ l line n, two_parts line → score_of line = Some n →
       read_line l line = Some (l ++ [(Text.strip line, n)]))
  ∧ (Forall (λ line, ¬ bad_score line) (Text.readlines text) →
       read_scores fs score_list path
       = (score_list ++ omap entry_of (Text.readlines text), true))
  ∧ (∀ pre line post,
       Text.readlines text = pre ++ line :: post →
       Forall (λ line, ¬ bad_score line) pre →
       bad_score line →
       read_scores fs score_list path
       = (score_list ++ omap entry_of pre, false)).
Proof.
  intros Hopen. repeat split.
  - intros l line. apply read_line_skip.
  - intros l line n H2 Hs. rewrite read_line_two by done. by rewrite Hs.
  - intros Hall. unfold read_scores. rewrite Hopen.
    by apply read_lines_complete.
  - intros pre line post Hlines Hpre Hbad. unfold read_scores.
    rewrite Hopen, Hlines. by apply read_lines_abort.
Qed.

(** C1: [read_scores] does not do what the claim says of a line whose
    second part is not an integer.  In a file whose first line is
    "a: b" and whose second line is "Ada - Score: 42", [int] raises on
    "b" inside the one [try] around the whole loop: [read_scores]
    returns [False] with nothing appended, although the second line is
    of two parts with the integer 42.  The other kind of malformed line
    is skipped as the claim says: with "a b" as the first line, which
    does not split on ": ", the test [len(parts) == 2] passes it over,
    the second line is appended and [read_scores] returns [True]. *)
Theorem read_scores_bad_score_aborts :
  read_scores spoiled_file [] "s.txt" = ([], false)
  ∧ omap entry_of (Text.readlines ("a: b" +:+ nl +:+ "Ada - Score: 42" +:+ nl))
    = [("Ada - Score: 42"%string, 42)]
  ∧ read_scores one_part_file [] "s.txt"
    = ([("Ada - Score: 42"%string, 42)], true).
Proof. split_and!; vm_compute; reflexivity. Qed.

(** C10: when a line of two parts has a second part that is not an
    integer, [read_scores] returns [False] and [score_list] holds, after
    its earlier content, the entries of all the lines before that line;
    so a caller whose file had entries before that line does not find
    its list as it was before the call. *)
Theorem read_scores_not_atomic (fs : filesystem) (path text : string)
    (score_list : list (string * Z)) (pre post : list string) (line : string) :
  open_read fs path = Some text →
  Text.readlines text = pre ++ line :: post →
  Forall (λ line, ¬ bad_score line) pre →
  bad_score line →
  read_scores fs score_list path = (score_list ++ omap entry_of pre, false)
  ∧ (omap entry_of pre ≠ [] → (read_scores fs score_list path).1 ≠ score_list).
Proof.
  intros Hopen Hlines Hpre Hbad.
  assert (read_scores fs score_list path
          = (score_list ++ omap entry_of pre, false)) as Hread.
  { unfold read_scores. rewrite Hopen, Hlines. by apply read_lines_abort. }
  split; [done|]. rewrite Hread. simpl. intros Hne Heq.
  apply Hne. apply (app_inv_head score_list). by rewrite app_nil_r.
Qed.

Lemma read_scores_not_atomic_witness :
  read_scores half_read_file [] "s.txt" = ([("Bob - Score: 7"%string, 7)], false)
  ∧ (read_scores half_read_file [] "s.txt").1 ≠ [].
Proof.
  assert (Forall (λ line, ¬ bad_score line) ["Bob - Score: 7" +:+ nl]) as Hpre.
  { apply Forall_cons. split; [|done].
    intros [_ H]. vm_compute in H. discriminate H. }
  assert (bad_score ("a: b" +:+ nl)) as Hbad.
  { split; vm_compute; reflexivity. }
  destruct (read_scores_not_atomic half_read_file "s.txt"
    ("Bob - Score: 7" +:+ nl +:+ "a: b" +:+ nl +:+ "Ada - Score: 42" +:+ nl)
    [] ["Bob - Score: 7" +:+ nl] ["Ada - Score: 42" +:+ nl] ("a: b" +:+ nl)
    eq_refl eq_refl Hpre Hbad) as [H1 H2].
  split; [exact H1|]. apply H2. vm_compute. discriminate.
Defined.

(** ** Writing a score and reading it back *)

Lemma list_ascii_of_string_app (s t : string) :
  list_ascii_of_string (s +:+ t)
  = list_ascii_of_string s ++ list_ascii_of_string t.
Proof. induction s as [|c s IH]; simpl; [done|by rewrite IH]. Qed.

Lemma last_cons_cons {A} (x y : A) (l : list A) :
  last (x :: y :: l) = last (y :: l).
Proof. reflexivity. Qed.

(** The lines of a text that ends a line, followed by more text, are the
    lines of both. *)
Lemma readlines_go_app (n : nat) : ∀ (s cur t : list ascii),
  (length s ≤ n)%nat →
  (∀ c, last s = Some c → c = Text.LF ∨ c = Text.CR) →
  (s = [] → cur = []) →
  head t ≠ Some Text.LF →
  Text.readlines_go cur (s ++ t)
  = Text.readlines_go cur s ++ Text.readlines_go [] t.
Proof.
  induction n as [|n IH]; intros s cur t Hlen Hlast Hcur Ht.
  { destruct s; [|simpl in Hlen; lia]. rewrite (Hcur eq_refl). reflexivity. }
  destruct s as [|c s].
  { rewrite (Hcur eq_refl). reflexivity. }
  simpl in Hlen.
  assert (∀ c', last s = Some c' → c' = Text.LF ∨ c' = Text.CR) as Hlast'.
  { intros c' Hc'. apply Hlast. destruct s; [done|].
    by rewrite last_cons_cons. }
  cbn [app Text.readlines_go].
  destruct (Ascii.eqb c Text.LF) eqn:Hlf.
  { rewrite <- app_comm_cons. f_equal. apply IH; [lia|done|done|done]. }
  destruct (Ascii.eqb c Text.CR) eqn:Hcr.
  { rewrite <- app_comm_cons. f_equal.
    destruct s as [|c' s].
    - destruct t as [|c' t]; [reflexivity|]. simpl.
      destruct (Ascii.eqb_spec c' Text.LF) as [->|]; [done|reflexivity].
    - cbn [app]. destruct (Ascii.eqb c' Text.LF) eqn:Hlf'.
      + apply IH; [simpl in *; lia| |done|done].
        intros d Hd. apply Hlast'. destruct s; [done|].
        by rewrite last_cons_cons.
      + rewrite app_comm_cons. apply IH; [lia|done|done|done]. }
  destruct s as [|c' s].
  { exfalso. destruct (Hlast c eq_refl) as [->| ->].
    - by rewrite Ascii.eqb_refl in Hlf.
    - by rewrite Ascii.eqb_refl in Hcr. }
  apply IH; [lia|done|done|done].
Qed.

Lemma readlines_app (text more : string) :
  ends_line text →
  head (list_ascii_of_string more) ≠ Some Text.LF →
  Text.readlines (text +:+ more) = Text.readlines text ++ Text.readlines more.
Proof.
  intros Hend Hmore. unfold Text.readlines.
  rewrite list_ascii_of_string_app.
  by apply (readlines_go_app (length (list_ascii_of_string text))).
Qed.

Lemma read_line_init l line :
  read_line l line = (l ++.) <$> read_line [] line.
Proof.
  unfold read_line.
  destruct (length _ =? 2)%nat; [|simpl; by rewrite app_nil_r].
  by destruct (Text.int _).
Qed.

Lemma read_lines_init lines : ∀ l l0,
  read_lines (l ++ l0) lines
  = ((l ++.) (read_lines l0 lines).1, (read_lines l0 lines).2).
Proof.
  induction lines as [|line lines IH]; intros l l0; [done|].
  cbn [read_lines].
  rewrite (read_line_init (l ++ l0)), (read_line_init l0).
  destruct (read_line [] line) as [e|]; [|done].
  simpl. rewrite <- app_assoc. apply IH.
Qed.

Lemma read_lines_app front back : ∀ l r,
  read_lines l front = (r, true) →
  read_lines l (front ++ back) = read_lines r back.
Proof.
  induction front as [|line front IH]; intros l r Hfront.
  - simpl in *. by injection Hfront as ->.
  - cbn [read_lines app] in *.
    destruct (read_line l line); [by apply IH|done].
Qed.

Lemma insert_score_perm e l : Permutation (insert_score e l) (e :: l).
Proof.
  induction l as [|h t IH]; [done|]. simpl.
  destruct (h.2 <=? e.2); [done|].
  rewrite IH. apply perm_swap.
Qed.

Lemma sort_scores_perm l : Permutation (sort_scores l) l.
Proof.
  induction l as [|e l IH]; [done|]. simpl.
  rewrite insert_score_perm. by constructor.
Qed.

Lemma insert_score_sorted e l :
  StronglySorted descending l → StronglySorted descending (insert_score e l).
Proof.
  induction 1 as [|h t Hsorted IH Hall]; simpl.
  { repeat constructor. }
  destruct (Z.leb_spec (h.2) (e.2)) as [Hle|Hgt].
  - constructor; [by constructor|].
    constructor; [exact Hle|].
    eapply Forall_impl; [exact Hall|].
    unfold descending. simpl. intros x Hx. lia.
  - constructor; [exact IH|].
    rewrite insert_score_perm. constructor; [|exact Hall].
    unfold descending. lia.
Qed.

Lemma sort_scores_sorted l : StronglySorted descending (sort_scores l).
Proof.
  induction l as [|e l IH]; simpl; [constructor|by apply insert_score_sorted].
Qed.

(** Entries of one score keep their order: the sort is stable. *)
Lemma insert_score_stable e l n :
  filter (λ x, x.2 = n) (insert_score e l) = filter (λ x, x.2 = n) (e :: l).
Proof.
  induction l as [|h t IH]; [done|]. simpl.
  destruct (Z.leb_spec (h.2) (e.2)) as [Hle|Hgt]; [done|].
  rewrite !filter_cons in *.
  destruct (decide (h.2 = n)), (decide (e.2 = n)); try lia;
    by rewrite IH.
Qed.

Lemma sort_scores_stable l n :
  filter (λ x, x.2 = n) (sort_scores l) = filter (λ x, x.2 = n) l.
Proof.
  induction l as [|e l IH]; [done|]. simpl.
  rewrite insert_score_stable, !filter_cons. by rewrite IH.
Qed.


(** ** Spawn lanes *)

Lemma Rand_equiv_refl {A} (m : Rand A) : Rand_equiv m m.
Proof. induction m; constructor; auto. Qed.

Lemma outcome_bind {A B} (f : A → Rand B) (m : Rand A) (b : B) :
  outcome (m ≫= f) b ↔ ∃ a, outcome m a ∧ outcome (f a) b.
Proof.
  split.
  - induction m as [a|e|lo hi k IH]; simpl; intros H.
    + exists a. split; [constructor|exact H].
    + inversion H.
    + inversion H as [|? ? ? v ? Hv Hk]; subst.
      destruct (IH v Hk) as (a & Ha & Hb).
      exists a. split; [by econstructor|exact Hb].
  - intros (a & Ha & Hb). induction Ha as [a|lo hi k v a Hv Ha IH]; simpl.
    + exact Hb.
    + econstructor; [exact Hv|]. by apply IH.
Qed.

Lemma outcome_ret_inv {A} (a b : A) : outcome (Ret a) b → b = a.
Proof. by inversion 1. Qed.

Lemma outcome_Randint_inv {A} lo hi (k : Z → Rand A) a :
  outcome (Randint lo hi k) a → ∃ v, lo ≤ v ≤ hi ∧ outcome (k v) a.
Proof. inversion 1 as [|? ? ? v ? Hv Hk]; subst. by exists v. Qed.

Lemma outcome_randint_inv lo hi v : outcome (randint lo hi) v → lo ≤ v ≤ hi.
Proof.
  inversion 1 as [|? ? ? w ? Hw Hk]; subst.
  apply outcome_ret_inv in Hk. by subst.
Qed.

Lemma outcome_or_raise {A} e (o : option A) a :
  outcome (or_raise e o) a → o = Some a.
Proof. destruct o; simpl; inversion 1; by subst. Qed.

(** The call with no previous lane: the hinted lane is recorded and a
    position of its range is drawn. *)
Lemma spawn_fresh_shape n (d : gmap string Z) (r : Z) :
  d !! "previous_location"%string = Some 0 →
  1 ≤ r ≤ 3 →
  ∃ lo hi,
    (∀ x, lo ≤ x ≤ hi ↔ in_lane r x) ∧ lo ≤ hi
    ∧ get_rand_spawn_depth (S n) d r
      = Randint lo hi (λ v, Ret (<["spawn_location"%string := v]>
                                   (<["previous_location"%string := r]> d))).
Proof.
  intros Hd Hr. cbn [get_rand_spawn_depth]. rewrite Hd.
  assert (r = 1 ∨ r = 2 ∨ r = 3) as [->|[->| ->]] by lia.
  - exists 75, 175. split; [unfold in_lane; lia|]. split; [lia|reflexivity].
  - exists 325, 375. split; [unfold in_lane; lia|]. split; [lia|reflexivity].
  - exists 525, 625. split; [unfold in_lane; lia|]. split; [lia|reflexivity].
Qed.

Lemma spawn_fresh_outcome n (d d' : gmap string Z) (r : Z) :
  d !! "previous_location"%string = Some 0 →
  1 ≤ r ≤ 3 →
  outcome (get_rand_spawn_depth (S n) d r) d' →
  ∃ x, in_lane r x
       ∧ d' = <["spawn_location"%string := x]>
                (<["previous_location"%string := r]> d).
Proof.
  intros Hd Hr Hout.
  destruct (spawn_fresh_shape n d r Hd Hr) as (lo & hi & Hlane & _ & Heq).
  rewrite Heq in Hout. apply outcome_Randint_inv in Hout as (v & Hv & Hk).
  apply outcome_ret_inv in Hk. exists v. split; [by apply Hlane|done].
Qed.

Lemma sum_const (f : Z → Q) (q : Q) (l : list Z) :
  (∀ v, v ∈ l → (f v == q)%Q) →
  (foldr (λ v acc, f v + acc) 0 l == inject_Z (Z.of_nat (length l)) * q)%Q.
Proof.
  induction l as [|x l IH]; intros Hf.
  - simpl. ring.
  - cbn [foldr length]. rewrite Nat2Z.inj_succ, <- Z.add_1_r, inject_Z_plus.
    rewrite IH by (intros v Hv; apply Hf; by right).
    rewrite (Hf x) by (by left). ring.
Qed.

(** When every draw leads to the same probability, that is the
    probability of the whole. *)
Lemma prob_randint_const {A} lo hi (k : Z → Rand A) ev (q : Q) :
  lo ≤ hi →
  (∀ v, lo ≤ v ≤ hi → (prob (k v) ev == q)%Q) →
  (prob (Randint lo hi k) ev == q)%Q.
Proof.
  intros Hle Hk. cbn [prob].
  rewrite (sum_const (λ v, prob (k v) ev) q).
  - rewrite length_seqZ, Z2Nat.id by lia.
    field. change 0%Q with (inject_Z 0). rewrite inject_Z_injective. lia.
  - intros v Hv. apply elem_of_seqZ in Hv. apply Hk. lia.
Qed.

Lemma prob_randint_two {A} (k : Z → Rand A) ev :
  (prob (Randint 0%Z 1%Z k) ev
   == (prob (k 0%Z) ev + prob (k 1%Z) ev) / 2)%Q.
Proof.
  cbn [prob]. change (seqZ 0 (1 - 0 + 1)) with [0; 1].
  cbn [foldr]. change (inject_Z (1 - 0 + 1)) with 2%Q. field.
Qed.

Lemma spawn_fresh_prob n (d : gmap string Z) (r : Z)
    (ev : gmap string Z → bool) (q : Q) :
  d !! "previous_location"%string = Some 0 →
  1 ≤ r ≤ 3 →
  (∀ x : Z, ((if ev (<["spawn_location"%string := x]>
                   (<["previous_location"%string := r]> d))
          then 1 else 0) == q)%Q) →
  (prob (get_rand_spawn_depth (S n) d r) ev == q)%Q.
Proof.
  intros Hd Hr Hev.
  destruct (spawn_fresh_shape n d r Hd Hr) as (lo & hi & _ & Hle & ->).
  apply prob_randint_const; [done|]. intros v _. apply Hev.
Qed.

Lemma lane_is_spawned (d : gmap string Z) (lane r x : Z) :
  lane_is lane (<["spawn_location"%string := x]>
                  (<["previous_location"%string := r]> d))
  = bool_decide (r = lane).
Proof.
  unfold lane_is. rewrite lookup_insert_ne by done.
  rewrite lookup_insert_eq. apply bool_decide_ext. naive_solver.
Qed.

(** The call with a previous lane in 1..3: an index 0 or 1 into the two
    other lanes is drawn, and the call is repeated for that lane with no
    previous lane. *)
Lemma spawn_again_shape n (d : gmap string Z) (p hint : Z) :
  d !! "previous_location"%string = Some p →
  1 ≤ p ≤ 3 →
  get_rand_spawn_depth (S (S n)) d hint
  = Randint 0 1 (λ v,
      (match other_lanes p !! Z.to_nat v with
       | Some x => Ret x
       | None => Raise IndexError
       end) ≫= get_rand_spawn_depth (S n)
                 (<["previous_location"%string := 0]> d)).
Proof.
  intros Hd Hp. cbn [get_rand_spawn_depth]. rewrite Hd.
  assert (p = 1 ∨ p = 2 ∨ p = 3) as [->|[->| ->]] by lia; reflexivity.
Qed.

Lemma other_lanes_spec (p : Z) :
  1 ≤ p ≤ 3 →
  ∃ l0 l1, other_lanes p = [l0; l1]
           ∧ 1 ≤ l0 ≤ 3 ∧ 1 ≤ l1 ≤ 3 ∧ l0 ≠ p ∧ l1 ≠ p ∧ l0 ≠ l1.
Proof.
  intros Hp. assert (p = 1 ∨ p = 2 ∨ p = 3) as [->|[->| ->]] by lia.
  - exists 2, 3. split; [reflexivity|lia].
  - exists 1, 3. split; [reflexivity|lia].
  - exists 1, 2. split; [reflexivity|lia].
Qed.

Lemma spawn_again_outcome n (d d' : gmap string Z) (p hint : Z) :
  d !! "previous_location"%string = Some p →
  1 ≤ p ≤ 3 →
  outcome (get_rand_spawn_depth (S (S n)) d hint) d' →
  ∃ lane x,
    d' !! "previous_location"%string = Some lane
    ∧ d' !! "spawn_location"%string = Some x
    ∧ 1 ≤ lane ≤ 3 ∧ lane ≠ p ∧ in_lane lane x.
Proof.
  intros Hd Hp Hout.
  rewrite (spawn_again_shape n d p hint Hd Hp) in Hout.
  destruct (other_lanes_spec p Hp)
    as (l0 & l1 & Hl & H0 & H1 & Hp0 & Hp1 & _).
  rewrite Hl in Hout.
  apply outcome_Randint_inv in Hout as (v & Hv & Hk).
  assert (∃ lane, 1 ≤ lane ≤ 3 ∧ lane ≠ p
    ∧ outcome (get_rand_spawn_depth (S n)
                 (<["previous_location"%string := 0]> d) lane) d')
    as (lane & Hlane & Hne & Hfresh).
  { assert (v = 0 ∨ v = 1) as [->| ->] by lia.
    - exists l0. change (Z.to_nat 0) with 0%nat in Hk.
      cbn [lookup list_lookup mbind Rand_mbind Rand_bind] in Hk.
      split; [done|split; [done|exact Hk]].
    - exists l1. change (Z.to_nat 1) with 1%nat in Hk.
      cbn [lookup list_lookup mbind Rand_mbind Rand_bind] in Hk.
      split; [done|split; [done|exact Hk]]. }
  assert (<["previous_location"%string := 0]> d !! "previous_location"%string
          = Some 0) as Hd0 by apply lookup_insert_eq.
  destruct (spawn_fresh_outcome n _ d' lane Hd0 Hlane Hfresh) as (x & Hx & ->).
  exists lane, x. rewrite lookup_insert_ne by done.
  rewrite !lookup_insert_eq. auto.
Qed.

(** One nested call is all the recursion there is: a larger bound on
    the depth changes nothing. *)
Lemma get_rand_spawn_depth_enough n (d : gmap string Z) (r : Z) :
  Rand_equiv (get_rand_spawn_depth (2 + n) d r) (get_rand_spawn d r).
Proof.
  unfold get_rand_spawn. change (2 + n)%nat with (S (S n)).
  destruct (d !! "previous_location"%string) as [p|] eqn:Hd.
  2:{ cbn [get_rand_spawn_depth]. rewrite Hd. constructor. }
  destruct (decide (p = 0)) as [->|Hp0].
  { cbn [get_rand_spawn_depth]. rewrite Hd. apply Rand_equiv_refl. }
  destruct (decide (1 ≤ p ∧ p ≤ 3)) as [Hp|Hp].
  2:{ cbn [get_rand_spawn_depth]. rewrite Hd.
      cbn [or_raise mbind Rand_mbind Rand_bind].
      destruct (decide (p = 0)); [done|].
      destruct (decide (1 ≤ p ∧ p ≤ 3)); [done|]. constructor. }
  rewrite (spawn_again_shape n d p r Hd Hp), (spawn_again_shape 0 d p r Hd Hp).
  constructor. intros v.
  destruct (other_lanes p !! Z.to_nat v) as [c|];
    cbn [mbind Rand_mbind Rand_bind]; [|constructor].
  cbn [get_rand_spawn_depth]. rewrite lookup_insert_eq.
  apply Rand_equiv_refl.
Qed.

(** C3: for a spawn-state dictionary whose previous lane is 1, 2 or 3
    and for any hint, [get_rand_spawn] returns; the lane it records is
    one of the two other lanes, each with probability 1/2, and the
    position it records lies in the range of that lane; so of two calls
    in a row the second never records the lane of the first, nor the
    first the lane it found. *)
Theorem get_rand_spawn_changes_lane (d : gmap string Z) (p hint : Z) :
  d !! "previous_location"%string = Some p →
  1 ≤ p ≤ 3 →
  (prob (get_rand_spawn d hint) (λ _, true) == 1)%Q
  ∧ (∀ d', outcome (get_rand_spawn d hint) d' →
       ∃ lane x,
         d' !! "previous_location"%string = Some lane
         ∧ d' !! "spawn_location"%string = Some x
         ∧ 1 ≤ lane ≤ 3 ∧ lane ≠ p ∧ in_lane lane x)
  ∧ (∀ lane, 1 ≤ lane ≤ 3 → lane ≠ p →
       (prob (get_rand_spawn d hint) (lane_is lane) == 1 # 2)%Q)
  ∧ (∀ d1 hint' d2,
       outcome (get_rand_spawn d hint) d1 →
       outcome (get_rand_spawn d1 hint') d2 →
       d1 !! "previous_location"%string ≠ Some p
       ∧ d2 !! "previous_location"%string ≠ d1 !! "previous_location"%string).
Proof.
  intros Hd Hp.
  pose proof (spawn_again_shape 0 d p hint Hd Hp) as Heq.
  destruct (other_lanes_spec p Hp)
    as (l0 & l1 & Hl & H0 & H1 & Hp0 & Hp1 & H01).
  rewrite Hl in Heq.
  assert (<["previous_location"%string := 0]> d !! "previous_location"%string
          = Some 0) as Hd0 by apply lookup_insert_eq.
  split; [|split; [|split]].
  - unfold get_rand_spawn. rewrite Heq, prob_randint_two.
    change (Z.to_nat 0) with 0%nat. change (Z.to_nat 1) with 1%nat.
    cbn [lookup list_lookup mbind Rand_mbind Rand_bind].
    rewrite !(spawn_fresh_prob 0 _ _ _ 1%Q) by (done || reflexivity).
    reflexivity.
  - intros d'. by apply spawn_again_outcome.
  - intros lane Hlane Hne. unfold get_rand_spawn.
    rewrite Heq, prob_randint_two.
    change (Z.to_nat 0) with 0%nat. change (Z.to_nat 1) with 1%nat.
    cbn [lookup list_lookup mbind Rand_mbind Rand_bind].
    assert (lane = l0 ∨ lane = l1) as [->| ->] by lia.
    + rewrite (spawn_fresh_prob 0 _ l0 _ 1%Q); [|done|done|].
      2:{ intros x. rewrite lane_is_spawned.
          by rewrite bool_decide_eq_true_2. }
      rewrite (spawn_fresh_prob 0 _ l1 _ 0%Q); [|done|done|].
      2:{ intros x. rewrite lane_is_spawned.
          by rewrite bool_decide_eq_false_2. }
      reflexivity.
    + rewrite (spawn_fresh_prob 0 _ l0 _ 0%Q); [|done|done|].
      2:{ intros x. rewrite lane_is_spawned.
          by rewrite bool_decide_eq_false_2. }
      rewrite (spawn_fresh_prob 0 _ l1 _ 1%Q); [|done|done|].
      2:{ intros x. rewrite lane_is_spawned.
          by rewrite bool_decide_eq_true_2. }
      reflexivity.
  - intros d1 hint' d2 Hout1 Hout2.
    apply (spawn_again_outcome 0 d d1 p hint Hd Hp) in Hout1
      as (lane1 & x1 & Hl1 & _ & Hr1 & Hne1 & _).
    apply (spawn_again_outcome 0 d1 d2 lane1 hint' Hl1 Hr1) in Hout2
      as (lane2 & x2 & Hl2 & _ & _ & Hne2 & _).
    rewrite Hl1, Hl2. split; congruence.
Qed.

Lemma get_rand_spawn_changes_lane_witness :
  (prob (get_rand_spawn state_after_lane_1 1%Z) (lane_is 3) == 1 # 2)%Q.
Proof.
  apply (get_rand_spawn_changes_lane state_after_lane_1 1 1);
    [reflexivity|lia|lia|lia].
Defined.

(** ** Bullets *)

Lemma Bullet_move_y b direction screen_w screen_h :
  y_pos (Bullet_move b direction screen_w screen_h)
  = (y_pos b + speed b * inject_Z direction)%Q.
Proof. unfold Bullet_move. by destruct (_ || _). Qed.

Lemma Bullet_move_fired b direction screen_w screen_h :
  is_fired (Bullet_move b direction screen_w screen_h)
  = is_fired b
    && negb (Qle_bool (y_pos (Bullet_move b direction screen_w screen_h)) 0
             || Qle_bool (inject_Z screen_h)
                  (y_pos (Bullet_move b direction screen_w screen_h))).
Proof.
  rewrite Bullet_move_y. unfold Bullet_move.
  destruct (_ || _); simpl; [by rewrite andb_false_r|by rewrite andb_true_r].
Qed.

Lemma Bullet_move_rest b direction screen_w screen_h :
  damage (Bullet_move b direction screen_w screen_h) = damage b
  ∧ x_pos (Bullet_move b direction screen_w screen_h) = x_pos b.
Proof. unfold Bullet_move. by destruct (_ || _). Qed.

Lemma outside_iff (y : Q) (h : Z) :
  Qle_bool y 0 || Qle_bool (inject_Z h) y = false
  ↔ (0 < y)%Q ∧ (y < inject_Z h)%Q.
Proof.
  rewrite orb_false_iff, <- !not_true_iff_false, !Qle_bool_iff.
  split; intros [H1 H2].
  - split; by apply Qnot_le_lt.
  - split; by apply Qlt_not_le.
Qed.

Lemma move_bullets_ok b direction :
  unfired_out b → bullet_ok (move_bullets b direction).
Proof.
  unfold unfired_out, bullet_ok, move_bullets, in_field. intros Hout.
  destruct (is_fired b) eqn:Hf.
  - rewrite Bullet_move_fired, Hf. cbn [andb].
    rewrite negb_true_iff. apply outside_iff.
  - rewrite Hf. split; [done|]. intros Hin. by destruct (Hout eq_refl).
Qed.

Lemma move_bullets_damage b direction :
  damage (move_bullets b direction) = damage b.
Proof.
  unfold move_bullets. destruct (is_fired b); [|done].
  apply Bullet_move_rest.
Qed.

Lemma bullet_ok_unfired_out b : bullet_ok b → unfired_out b.
Proof.
  unfold bullet_ok, unfired_out. intros Hok Hf Hin.
  apply Hok in Hin. congruence.
Qed.

Lemma fired_unfired_out b : is_fired b = true → unfired_out b.
Proof. unfold unfired_out. congruence. Qed.

Lemma reset_bullets_ok b : bullet_ok (reset_bullets b).
Proof.
  unfold bullet_ok, in_field. simpl. split; [done|].
  intros [_ H]. by apply Qlt_irrefl in H.
Qed.

(** ** Ships *)

Lemma Spaceship_move_keeps s direction screen_w screen_h s' :
  Spaceship_move s direction screen_w screen_h = Some s' →
  health s' = health s ∧ bullet s' = bullet s
  ∧ is_player s' = is_player s ∧ shoot_delay s' = shoot_delay s
  ∧ shoot_timer s' = shoot_timer s
  ∧ width s' = width s ∧ height s' = height s.
Proof.
  unfold Spaceship_move. destruct (is_player s) eqn:Hp.
  - intros (r & Hr & [= <-])%bind_Some. by simpl.
  - intros (r & Hr & [= <-])%bind_Some. by destruct (_ <=? _).
Qed.

Lemma shoot_keeps s s' :
  shoot s = Some s' →
  health s' = health s ∧ is_killed s' = is_killed s
  ∧ ship_entity s' = ship_entity s
  ∧ is_fired (bullet s') = true ∧ damage (bullet s') = damage (bullet s).
Proof. unfold shoot. intros (r & Hr & [= <-])%bind_Some. by simpl. Qed.

Lemma alien_shoot_keeps s s' :
  alien_shoot s = Some s' →
  health s' = health s ∧ is_killed s' = is_killed s
  ∧ ship_entity s' = ship_entity s
  ∧ damage (bullet s') = damage (bullet s)
  ∧ (unfired_out (bullet s) → unfired_out (bullet s')).
Proof.
  unfold alien_shoot. destruct (_ && _).
  - intros (s1 & Hs1 & [= <-])%bind_Some.
    apply shoot_keeps in Hs1 as (? & ? & ? & Hf & ?). simpl in *.
    split_and!; try done. intros _. by apply fired_unfired_out.
  - intros [= <-]. by simpl.
Qed.

Lemma alien_fire_keeps a a' :
  alien_fire a = Some a' →
  health a' = health a ∧ is_killed a' = is_killed a
  ∧ ship_entity a' = ship_entity a
  ∧ damage (bullet a') = damage (bullet a)
  ∧ (unfired_out (bullet a) → bullet_ok (bullet a')).
Proof.
  unfold alien_fire. intros (a1 & Ha1 & [= <-])%bind_Some. simpl.
  rewrite move_bullets_damage.
  assert (health a1 = health a ∧ is_killed a1 = is_killed a
          ∧ ship_entity a1 = ship_entity a
          ∧ damage (bullet a1) = damage (bullet a)
          ∧ (unfired_out (bullet a) → unfired_out (bullet a1)))
    as (? & ? & ? & ? & Hout).
  { destruct (negb _); [by apply alien_shoot_keeps|].
    injection Ha1 as <-. done. }
  split_and!; try done. intros Hb. apply move_bullets_ok. auto.
Qed.

(** ** Score, level and health *)

Lemma level_step (n : Z) :
  0 ≤ n →
  1 + (n + 1) / 25 = (1 + n / 25) + (if (n + 1) mod 25 =? 0 then 1 else 0).
Proof.
  intros Hn.
  pose proof (Z.div_mod n 25 ltac:(lia)).
  pose proof (Z.div_mod (n + 1) 25 ltac:(lia)).
  pose proof (Z.mod_pos_bound n 25 ltac:(lia)).
  pose proof (Z.mod_pos_bound (n + 1) 25 ltac:(lia)).
  destruct (Z.eqb_spec ((n + 1) mod 25) 0); lia.
Qed.

Lemma score_kill_spec g :
  score (score_kill g) = score g + 1
  ∧ level (score_kill g)
    = level g + (if (score g + 1) mod 25 =? 0 then 1 else 0)
  ∧ player (score_kill g)
    = set_bullet (player g) (reset_bullets (bullet (player g)))
  ∧ alien_list (score_kill g) = alien_list g
  ∧ heart (score_kill g) = heart g
  ∧ goal (score_kill g) = goal g
  ∧ is_game_over (score_kill g) = is_game_over g
  ∧ game_over_text (score_kill g) = game_over_text g.
Proof.
  unfold score_kill. simpl.
  destruct (_ =? 0); simpl; repeat split; lia.
Qed.

Lemma take_damage_spec p dmg :
  health (take_damage p dmg) = Z.max 0 (health p - dmg)
  ∧ bullet (take_damage p dmg) = bullet p
  ∧ ship_entity (take_damage p dmg) = ship_entity p.
Proof.
  unfold take_damage. simpl.
  destruct (Z.ltb_spec (health p - dmg) 0); simpl; repeat split; lia.
Qed.

Lemma heal_spec p amount :
  health (heal p amount) = Z.min 100 (health p + amount)
  ∧ bullet (heal p amount) = bullet p
  ∧ ship_entity (heal p amount) = ship_entity p.
Proof.
  unfold heal. simpl.
  destruct (Z.ltb_spec 100 (health p + amount)); simpl; repeat split; lia.
Qed.

(** ** One alien's turn *)

(** The three ways a turn can go: the alien was already killed; it
    reached the player; or it stays in play, fires, and the two
    collisions are settled. *)
Lemma alien_turn_cases i a g g' stop :
  alien_turn i a g = Some (g', stop) →
  (is_killed a = true ∧ g' = g ∧ stop = false)
  ∨ (is_killed a = false
     ∧ ∃ a1, Spaceship_move a 1 SCREEN_W SCREEN_H = Some a1
       ∧ is_killed a1 = true
       ∧ g' = aliens_reached (set_alien_list g (<[i := a1]> (alien_list g)))
       ∧ stop = true)
  ∨ (is_killed a = false
     ∧ ∃ a1 a2 hit struck,
       Spaceship_move a 1 SCREEN_W SCREEN_H = Some a1
       ∧ is_killed a1 = false
       ∧ alien_fire a1 = Some a2
       ∧ hit = check_collisions (bullet (player g)) (x_pos a2) (y_pos a2)
                 (width a2) (height a2)
       ∧ struck = check_collisions (bullet a2) (x_pos (player g))
                    (y_pos (player g)) (width (player g)) (height (player g))
       ∧ player g'
         = (let p := if hit then set_bullet (player g)
                                   (reset_bullets (bullet (player g)))
                     else player g in
            if struck then take_damage p (damage (bullet a2)) else p)
       ∧ score g' = score g + (if hit then 1 else 0)
       ∧ level g'
         = level g + (if hit && ((score g + 1) mod 25 =? 0) then 1 else 0)
       ∧ alien_list g'
         = (if hit then delete i (alien_list g)
            else <[i := if struck then set_bullet a2 (reset_bullets (bullet a2))
                        else a2]> (alien_list g))
       ∧ heart g' = heart g ∧ goal g' = goal g
       ∧ game_over_text g' = game_over_text g
       ∧ is_game_over g' = is_game_over g || stop
       ∧ stop = (health (player g') <=? 0)).
Proof.
  unfold alien_turn. intros H.
  destruct (is_killed a) eqn:Hk.
  { injection H as <- <-. by left. }
  right. apply bind_Some in H as (a1 & Hmove & H).
  destruct (is_killed a1) eqn:Hk1.
  { injection H as <- <-. left. split; [done|]. by exists a1. }
  right. split; [done|].
  apply bind_Some in H as (a2 & Hfire & H).
  destruct (alien_fire_keeps _ _ Hfire) as (_ & Hk2 & _).
  rewrite Hk1 in Hk2.
  exists a1, a2, (check_collisions (bullet (player g)) (x_pos a2) (y_pos a2)
                    (width a2) (height a2)),
    (check_collisions (bullet a2) (x_pos (player g))
       (y_pos (player g)) (width (player g)) (height (player g))).
  do 5 (split; [done|]).
  destruct (check_collisions (bullet (player g)) _ _ _ _) eqn:Hhit.
  - pose proof (score_kill_spec g) as (Hs & Hl & Hp & Ha & Hh & Hg & Ho & Ht).
    assert (check_collisions (bullet (set_is_killed a2 true))
              (x_pos (player (score_kill g))) (y_pos (player (score_kill g)))
              (width (player (score_kill g))) (height (player (score_kill g)))
            = check_collisions (bullet a2) (x_pos (player g))
                (y_pos (player g)) (width (player g)) (height (player g)))
      as Hsame by (by rewrite Hp).
    rewrite Hsame in H.
    destruct (check_collisions (bullet a2) _ _ _ _) eqn:Hstruck;
      cbn [is_killed set_is_killed set_bullet] in H;
      match type of H with
      | (if ?c then _ else _) = _ => destruct c eqn:Hdead
      end; injection H as <- <-; cbn -[Z.leb Z.modulo Z.add] in *;
      rewrite ?Hp in Hdead;
      rewrite ?Hs, ?Hl, ?Hp, ?Ha, ?Hh, ?Hg, ?Ho, ?Ht, ?Hdead, ?orb_true_r,
        ?orb_false_r; split_and!; done.
  - destruct (check_collisions (bullet a2) _ _ _ _) eqn:Hstruck;
      cbn [is_killed set_is_killed set_bullet] in H; rewrite ?Hk2 in H;
      match type of H with
      | (if ?c then _ else _) = _ => destruct c eqn:Hdead
      end; injection H as <- <-; cbn -[Z.leb Z.modulo Z.add] in *;
      rewrite ?Hdead, ?orb_true_r, ?orb_false_r, ?Z.add_0_r;
      split_and!; done.
Qed.

Lemma alien_turn_inv i a g g' stop :
  game_inv g →
  alien_list g !! i = Some a →
  alien_turn i a g = Some (g', stop) →
  game_inv g'.
Proof.
  intros (Hh & Hb & Hall & Hr & Hs & Hl) Hi Hturn.
  pose proof (Forall_lookup_1 _ _ _ _ Hall Hi) as [Hdmg Hok].
  apply alien_turn_cases in Hturn
    as [(_ & -> & _)|[(_ & a1 & Hmove & _ & -> & _)|Hplay]].
  - done.
  - apply Spaceship_move_keeps in Hmove as (_ & Hb1 & _).
    unfold game_inv. simpl.
    refine (conj _ (conj _ (conj _ (conj _ (conj _ _))))); try done; try lia.
    apply Forall_insert; [done|]. unfold alien_inv. by rewrite Hb1.
  - destruct Hplay as (_ & a1 & a2 & hit & struck & Hmove & _ & Hfire & _ & _
                       & Hp & Hs' & Hl' & Ha' & Hh' & _).
    apply Spaceship_move_keeps in Hmove as (_ & Hb1 & _).
    apply alien_fire_keeps in Hfire as (_ & _ & _ & Hd2 & Hok2).
    rewrite Hb1 in Hd2, Hok2.
    specialize (Hok2 (bullet_ok_unfired_out _ Hok)).
    unfold game_inv. rewrite Hp, Hs', Hl', Ha', Hh'.
    refine (conj _ (conj _ (conj _ (conj _ (conj _ _))))).
    + destruct hit, struck; cbn [fst snd];
        rewrite ?(proj1 (take_damage_spec _ _)); simpl; lia.
    + destruct hit, struck; cbn [fst snd];
        rewrite ?(proj1 (proj2 (take_damage_spec _ _))); simpl;
        done || apply reset_bullets_ok.
    + destruct hit; [by apply Forall_delete|].
      apply Forall_insert; [done|].
      destruct struck; [|by split; [lia|]].
      split; simpl; [lia|apply reset_bullets_ok].
    + done.
    + destruct hit; lia.
    + destruct hit; cbn [andb].
      * rewrite level_step by done. lia.
      * rewrite !Z.add_0_r. exact Hl.
Qed.

(** A property that every turn keeps holds after the loop. *)
Lemma alien_loop_keeps (P : Game → Prop) :
  (∀ i a g g' stop,
     P g → alien_list g !! i = Some a →
     alien_turn i a g = Some (g', stop) → P g') →
  ∀ fuel i g g', P g → alien_loop fuel i g = Some g' → P g'.
Proof.
  intros Hturn. induction fuel as [|fuel IH]; intros i g g' HP Hloop.
  { by injection Hloop as <-. }
  cbn [alien_loop] in Hloop.
  destruct (alien_list g !! i) as [a|] eqn:Hi; [|by injection Hloop as <-].
  apply bind_Some in Hloop as ([g1 stop] & Hstep & Hloop).
  pose proof (Hturn _ _ _ _ _ HP Hi Hstep) as HP1.
  destruct stop; [by injection Hloop as <-|]. by eapply IH.
Qed.

Lemma alien_turn_length i a g g' stop :
  alien_list g !! i = Some a →
  alien_turn i a g = Some (g', stop) →
  (length (alien_list g') ≤ length (alien_list g))%nat.
Proof.
  intros Hi Hturn. apply alien_turn_cases in Hturn
    as [(_ & -> & _)|[(_ & a1 & _ & _ & -> & _)|Hplay]].
  - done.
  - simpl. by rewrite length_insert.
  - destruct Hplay as (_ & a1 & a2 & hit & struck & _ & _ & _ & _ & _
                       & _ & _ & _ & -> & _).
    destruct hit; [|by rewrite length_insert].
    rewrite length_delete by (by rewrite Hi). lia.
Qed.

(** The loop over the aliens ends by itself within as many turns as the
    list is long: more fuel changes nothing. *)
Lemma alien_loop_fuel fuel1 : ∀ fuel2 i g,
  (length (alien_list g) ≤ i + fuel1)%nat →
  (length (alien_list g) ≤ i + fuel2)%nat →
  alien_loop fuel1 i g = alien_loop fuel2 i g.
Proof.
  induction fuel1 as [|fuel1 IH]; intros fuel2 i g H1 H2.
  { destruct fuel2; [done|]. cbn [alien_loop].
    by rewrite lookup_ge_None_2 by lia. }
  destruct fuel2 as [|fuel2].
  { cbn [alien_loop]. by rewrite lookup_ge_None_2 by lia. }
  cbn [alien_loop].
  destruct (alien_list g !! i) as [a|] eqn:Hi; [|done].
  destruct (alien_turn i a g) as [[g1 stop]|] eqn:Hturn; [|done].
  cbn [mbind option_bind]. destruct stop; [done|].
  pose proof (alien_turn_length _ _ _ _ _ Hi Hturn).
  apply IH; lia.
Qed.

(** ** The health pickup and new aliens *)

Lemma Heart_move_keeps h direction screen_w screen_h h' :
  Heart_move h direction screen_w screen_h = Some h' →
  restore_amount h' = restore_amount h.
Proof.
  unfold Heart_move. intros (r & Hr & [= <-])%bind_Some.
  by destruct (_ <=? _).
Qed.

Lemma heart_section_keeps sprite g g' :
  heart_section sprite g = Some g' →
  score g' = score g ∧ level g' = level g
  ∧ alien_list g' = alien_list g
  ∧ is_game_over g' = is_game_over g
  ∧ game_over_text g' = game_over_text g
  ∧ (player g' = player g
     ∨ ∃ h, player g'
            = set_bullet (heal (player g) (restore_amount h))
                (reset_bullets (bullet (heal (player g) (restore_amount h))))
            ∧ restore_amount h = restore_amount (heart g)
            ∧ is_claimed (heart g) = false ∧ goal g ≤ score g)
  ∧ (restore_amount (heart g') = restore_amount (heart g)
     ∨ restore_amount (heart g') = 30).
Proof.
  unfold heart_section. intros H.
  destruct (Z.leb_spec (goal g) (score g)); [|by injection H as <-; auto 10].
  destruct (is_claimed (heart g)) eqn:Hc; cbn [negb] in H.
  { injection H as <-. simpl. auto 10. }
  apply bind_Some in H as (h & Hmove & H).
  apply Heart_move_keeps in Hmove.
  destruct (check_collisions _ _ _ _ _); injection H as <-; simpl.
  - split_and!; try done; [right; by exists h|by left].
  - split_and!; try done; [by left|by left].
Qed.

Lemma heart_section_inv sprite g g' :
  game_inv g → heart_section sprite g = Some g' → game_inv g'.
Proof.
  intros (Hh & Hb & Hall & Hr & Hs & Hl) Hsec.
  apply heart_section_keeps in Hsec
    as (Hs' & Hl' & Ha' & _ & _ & Hp & Hr').
  unfold game_inv. rewrite Hs', Hl', Ha'.
  refine (conj _ (conj _ (conj _ (conj _ (conj _ _))))); try done.
  - destruct Hp as [->|(h & -> & Hrh & _)]; [done|]. simpl.
    rewrite (proj1 (heal_spec _ _)). lia.
  - destruct Hp as [->|(h & -> & _)]; [done|]. apply reset_bullets_ok.
  - destruct Hr' as [->| ->]; lia.
Qed.

Lemma new_bullet_ok sprite dmg :
  bullet_ok (Bullet_init sprite 5 20 0 0 30 "N/A" dmg).
Proof.
  unfold bullet_ok, in_field. simpl. split; [done|].
  intros [H _]. by apply Qlt_irrefl in H.
Qed.

Lemma load_alien_outcome sprite d l d' l' :
  outcome (load_alien sprite (d, l)) (d', l') →
  ∃ a, l' = l ++ [a] ∧ alien_inv a ∧ is_killed a = false.
Proof.
  unfold load_alien.
  intros (t & Ht%outcome_randint_inv & H)%outcome_bind.
  apply outcome_bind in H as (r & _ & H).
  apply outcome_bind in H as (d1 & _ & H).
  assert (t = 1 ∨ t = 2 ∨ t = 3) as [->|[->| ->]] by lia;
    cbn [decide_rel decide Z.eq_dec] in H; simpl in H;
    apply outcome_bind in H as (x & _ & H);
    apply outcome_ret_inv in H; injection H as _ ->;
    eexists; (split; [reflexivity|]); (split; [|reflexivity]);
    (split; [simpl; lia|apply new_bullet_ok]).
Qed.

Lemma load_aliens_outcome sprite l l' :
  outcome (load_aliens sprite l) l' →
  ∃ a b, l' = l ++ [a; b] ∧ alien_inv a ∧ alien_inv b.
Proof.
  unfold load_aliens.
  intros ([d1 l1] & H1 & H)%outcome_bind.
  apply outcome_bind in H as ([d2 l2] & H2 & H).
  apply outcome_ret_inv in H. simpl in H. subst l'.
  apply load_alien_outcome in H1 as (a & -> & Ha & _).
  apply load_alien_outcome in H2 as (b & -> & Hb & _).
  exists a, b. by rewrite <- app_assoc.
Qed.

(** ** A frame *)

Lemma player_controls_keeps keys p p' :
  player_controls keys p = Some p' →
  health p' = health p
  ∧ damage (bullet p') = damage (bullet p)
  ∧ (unfired_out (bullet p) → unfired_out (bullet p')).
Proof.
  unfold player_controls.
  intros (p1 & H1 & (p2 & H2 & H3)%bind_Some)%bind_Some.
  assert (health p1 = health p ∧ bullet p1 = bullet p) as [Hh1 Hb1].
  { destruct (K_LEFT keys); [|by injection H1 as <-].
    apply Spaceship_move_keeps in H1. tauto. }
  assert (health p2 = health p1 ∧ bullet p2 = bullet p1) as [Hh2 Hb2].
  { destruct (K_RIGHT keys); [|by injection H2 as <-].
    apply Spaceship_move_keeps in H2. tauto. }
  destruct (_ && _).
  - apply shoot_keeps in H3 as (Hh3 & _ & _ & Hf & Hd).
    rewrite Hh3, Hd, Hh2, Hh1, Hb2, Hb1. split_and!; try done.
    intros _. by apply fired_unfired_out.
  - injection H3 as <-. by rewrite Hh2, Hh1, Hb2, Hb1.
Qed.

(** The steps of a frame that returns. *)
Lemma frame_steps sprite keys g g' :
  outcome (frame sprite keys g) g' →
  is_game_over g = false
  ∧ ∃ p aliens g2,
      player_controls keys (player g) = Some p
      ∧ (if Z.of_nat (length (alien_list g)) <? level g
         then outcome (load_aliens sprite (alien_list g)) aliens
         else aliens = alien_list g)
      ∧ alien_loop (length aliens) 0
          (set_player (set_alien_list (set_player g p) aliens)
             (set_bullet p (move_bullets (bullet p) (-1))))
        = Some g2
      ∧ heart_section sprite g2 = Some g'.
Proof.
  unfold frame. destruct (is_game_over g); [inversion 1|].
  intros (p & Hp%outcome_or_raise & H)%outcome_bind.
  apply outcome_bind in H as (aliens & Ha & H).
  apply outcome_bind in H as (g2 & Hloop%outcome_or_raise & H).
  apply outcome_or_raise in H.
  split; [done|]. exists p, aliens, g2. split_and!; try done.
  simpl in Ha. destruct (_ <? _); [done|by apply outcome_ret_inv in Ha].
Qed.

Lemma frame_inv sprite keys g g' :
  game_inv g → outcome (frame sprite keys g) g' → game_inv g'.
Proof.
  intros Hinv (_ & p & aliens & g2 & Hp & Ha & Hloop & Hheart)%frame_steps.
  destruct Hinv as (Hh & Hb & Hall & Hr & Hs & Hl).
  apply player_controls_keeps in Hp as (Hhp & _ & Hbp).
  apply (heart_section_inv _ _ _) in Hheart; [done|].
  apply (alien_loop_keeps game_inv alien_turn_inv _ _ _ _) in Hloop; [done|].
  unfold game_inv. simpl.
  refine (conj _ (conj _ (conj _ (conj _ (conj _ _))))); try done.
  - lia.
  - apply move_bullets_ok, Hbp. by apply bullet_ok_unfired_out.
  - destruct (_ <? _); [|by subst].
    apply load_aliens_outcome in Ha as (a & b & -> & Ha & Hb').
    apply Forall_app. split; [done|].
    constructor; [done|]. constructor; [done|]. constructor.
Qed.

Lemma game_init_inv sprite : game_inv (game_init sprite).
Proof.
  unfold game_inv.
  refine (conj _ (conj _ (conj _ (conj _ (conj _ _))))).
  - simpl. lia.
  - apply new_bullet_ok.
  - constructor.
  - simpl. lia.
  - simpl. lia.
  - reflexivity.
Qed.

Lemma reachable_inv sprite g : reachable sprite g → game_inv g.
Proof.
  induction 1 as [|keys g g' _ IH Hframe].
  - apply game_init_inv.
  - by eapply frame_inv.
Qed.

(** ** Aliens reaching the line *)

(** The rounded value in integer arithmetic. *)
Lemma to_int_spec (n : Z) (d : positive) :
  let r := to_int (n # d) in
  (0 ≤ n →
   2 * Z.pos d * r ≤ 2 * n + Z.pos d
   ∧ 2 * n + Z.pos d < 2 * Z.pos d * (r + 1))
  ∧ (n ≤ 0 →
     2 * Z.pos d * (r - 1) < 2 * n - Z.pos d
     ∧ 2 * n - Z.pos d ≤ 2 * Z.pos d * r).
Proof.
  cbn zeta. unfold to_int. cbn [Qnum Qden].
  pose proof (Z.div_mod (2 * Z.abs n + Z.pos d) (2 * Z.pos d) ltac:(lia))
    as Hdm.
  pose proof (Z.mod_pos_bound (2 * Z.abs n + Z.pos d) (2 * Z.pos d)
                ltac:(lia)) as Hm.
  set (k := (2 * Z.abs n + Z.pos d) / (2 * Z.pos d)) in *.
  set (m := (2 * Z.abs n + Z.pos d) mod (2 * Z.pos d)) in *.
  split; intros Hn.
  - destruct (Z.eq_dec n 0) as [->|Hne].
    + change (Z.sgn 0) with 0. simpl in Hdm. nia.
    + rewrite Z.sgn_pos by lia. rewrite Z.abs_eq in Hdm by lia. nia.
  - destruct (Z.eq_dec n 0) as [->|Hne].
    + change (Z.sgn 0) with 0. simpl in Hdm. nia.
    + rewrite Z.sgn_neg by lia. rewrite Z.abs_neq in Hdm by lia. nia.
Qed.

(** Halves go away from zero, on both sides of it. *)
Example to_int_values :
  to_int (1319 # 2) = 660 ∧ to_int (1317 # 2) = 659
  ∧ to_int (2519 # 4) = 630 ∧ to_int (2517 # 4) = 629
  ∧ to_int (1143 # 4) = 286 ∧ to_int (-357 # 2) = -179
  ∧ to_int (-1 # 4) = 0.
Proof. by vm_compute. Qed.

(** An integer is stored as it is. *)
Lemma to_int_inject_Z (x : Z) : to_int (inject_Z x) = x.
Proof.
  destruct (to_int_spec x 1) as [Hpos Hneg]. cbn zeta in *.
  change (x # 1) with (inject_Z x) in *.
  destruct (Z.le_gt_cases 0 x) as [H|H].
  - specialize (Hpos H). lia.
  - specialize (Hneg ltac:(lia)). lia.
Qed.

(** Rounding keeps the order against integers. *)
Lemma to_int_le_int (q : Q) (k : Z) :
  (q <= inject_Z k)%Q → to_int q ≤ k.
Proof.
  destruct q as [n d]. unfold Qle. cbn [Qnum Qden inject_Z]. intros H.
  destruct (to_int_spec n d) as [Hpos Hneg]. cbn zeta in *.
  destruct (Z.le_gt_cases 0 n) as [Hn|Hn].
  - specialize (Hpos Hn). nia.
  - specialize (Hneg ltac:(lia)). nia.
Qed.

Lemma to_int_ge_int (q : Q) (k : Z) :
  (inject_Z k <= q)%Q → k ≤ to_int q.
Proof.
  destruct q as [n d]. unfold Qle. cbn [Qnum Qden inject_Z]. intros H.
  destruct (to_int_spec n d) as [Hpos Hneg]. cbn zeta in *.
  destruct (Z.le_gt_cases 0 n) as [Hn|Hn].
  - specialize (Hpos Hn). nia.
  - specialize (Hneg ltac:(lia)). nia.
Qed.

(** The rounded value is within a half of the float. *)
Lemma to_int_near (q : Q) :
  (inject_Z (to_int q) - (1 # 2) <= q)%Q
  ∧ (q <= inject_Z (to_int q) + (1 # 2))%Q.
Proof.
  destruct q as [n d]. 
  destruct (to_int_spec n d) as [Hpos Hneg]. cbn zeta in *.
  set (r := to_int (n # d)) in *.
  unfold Qle, Qminus, Qplus, Qopp, inject_Z. cbn [Qnum Qden].
  destruct (Z.le_gt_cases 0 n) as [Hn|Hn].
  - specialize (Hpos Hn). split; nia.
  - specialize (Hneg ltac:(lia)). split; nia.
Qed.

(** A float is rounded to at least a positive integer exactly when it
    is at most a half below it. *)
Lemma to_int_ge (q : Q) (k : Z) :
  0 < k → (k ≤ to_int q ↔ (inject_Z k - (1 # 2) <= q)%Q).
Proof.
  intros Hk. destruct q as [n d].
  destruct (to_int_spec n d) as [Hpos Hneg]. cbn zeta in *.
  set (r := to_int (n # d)) in *.
  unfold Qle, Qminus, Qplus, Qopp, inject_Z. cbn [Qnum Qden].
  destruct (Z.le_gt_cases 0 n) as [Hn|Hn].
  - specialize (Hpos Hn). split; nia.
  - specialize (Hneg ltac:(lia)). split; nia.
Qed.

Lemma enemy_move a r direction screen_w screen_h :
  is_player a = false →
  placeholder a = Some r →
  ∃ a1 r1,
    Spaceship_move a direction screen_w screen_h = Some a1
    ∧ placeholder a1 = Some r1
    ∧ y_pos a1 = (y_pos a + speed a * inject_Z direction)%Q
    ∧ rect_y r1 = to_int (y_pos a1)
    ∧ height a1 = height a
    ∧ is_killed a1
      = is_killed a || (screen_h - 120 <=? rect_y r1 + height a1).
Proof.
  intros Hp Hr. unfold Spaceship_move. rewrite Hp, Hr. cbn [mbind option_bind].
  destruct (_ <=? _) eqn:Hline; cbn in Hline; eexists _, _;
    (split; [reflexivity|]); (split; [reflexivity|]); cbn;
    rewrite Hline, ?orb_true_r, ?orb_false_r; done.
Qed.

Lemma aliens_reached_turn i a a1 g :
  is_killed a = false →
  Spaceship_move a 1 SCREEN_W SCREEN_H = Some a1 →
  is_killed a1 = true →
  alien_turn i a g
  = Some (aliens_reached (set_alien_list g (<[i := a1]> (alien_list g))),
          true).
Proof.
  intros Hk Hmove Hk1. unfold alien_turn. rewrite Hk, Hmove.
  cbn [mbind option_bind]. by rewrite Hk1.
Qed.

(** ** Shapes *)

Lemma check_imagePath_size sprite e image_path :
  width (check_imagePath sprite e image_path) = width e
  ∧ height (check_imagePath sprite e image_path) = height e.
Proof. unfold check_imagePath. by destruct (_ && _). Qed.

Lemma shoot_shape s s' :
  shoot s = Some s' →
  ship_entity s' = ship_entity s ∧ is_player s' = is_player s.
Proof. unfold shoot. intros (r & Hr & [= <-])%bind_Some. by simpl. Qed.

Lemma alien_shoot_shape s s' :
  alien_shoot s = Some s' →
  ship_entity s' = ship_entity s ∧ is_player s' = is_player s.
Proof.
  unfold alien_shoot. destruct (_ && _).
  - intros (s1 & Hs1 & [= <-])%bind_Some.
    apply shoot_shape in Hs1 as [He Hi]. simpl in *. by rewrite He, Hi.
  - by intros [= <-].
Qed.

Lemma alien_fire_shape a a' :
  alien_fire a = Some a' →
  ship_entity a' = ship_entity a ∧ is_player a' = is_player a.
Proof.
  unfold alien_fire. intros (a1 & Ha1 & [= <-])%bind_Some. simpl.
  destruct (negb _); [by apply alien_shoot_shape|by injection Ha1 as <-].
Qed.

Lemma player_move_shape p direction p' :
  player_shape p →
  Spaceship_move p direction SCREEN_W SCREEN_H = Some p' →
  player_shape p' ∧ bullet p' = bullet p.
Proof.
  intros [Hp Hr]. unfold Spaceship_move. rewrite Hp.
  intros (r & Hpr & [= <-])%bind_Some. split; [|done]. split; [done|].
  simpl. intros r' [= <-]. simpl. by apply Hr.
Qed.

Lemma player_controls_shape keys p p' :
  player_shape p → player_controls keys p = Some p' → player_shape p'.
Proof.
  unfold player_controls.
  intros Hp (p1 & H1 & (p2 & H2 & H3)%bind_Some)%bind_Some.
  assert (player_shape p1) as Hp1.
  { destruct (K_LEFT keys); [|by injection H1 as <-].
    by apply (player_move_shape _ _ _ Hp) in H1 as [? _]. }
  assert (player_shape p2) as Hp2.
  { destruct (K_RIGHT keys); [|by injection H2 as <-].
    by apply (player_move_shape _ _ _ Hp1) in H2 as [? _]. }
  destruct (_ && _); [|by injection H3 as <-].
  apply shoot_shape in H3 as [He Hi]. unfold player_shape.
  by rewrite He, Hi.
Qed.

Lemma alien_turn_shape i a g g' stop :
  shape_inv g →
  alien_list g !! i = Some a →
  alien_turn i a g = Some (g', stop) →
  shape_inv g'.
Proof.
  intros [Hp Hall] Hi Hturn.
  pose proof (Forall_lookup_1 _ _ _ _ Hall Hi) as [Hia Hha].
  apply alien_turn_cases in Hturn
    as [(_ & -> & _)|[(_ & a1 & Hmove & _ & -> & _)|Hplay]].
  - done.
  - apply Spaceship_move_keeps in Hmove as (_ & _ & Hi1 & _ & _ & _ & Hh1).
    split; [done|]. simpl. apply Forall_insert; [done|].
    unfold alien_shape. by rewrite Hi1, Hh1.
  - destruct Hplay as (_ & a1 & a2 & hit & struck & Hmove & _ & Hfire & _ & _
                       & Hp' & _ & _ & Ha' & _).
    apply Spaceship_move_keeps in Hmove as (_ & _ & Hi1 & _ & _ & _ & Hh1).
    apply alien_fire_shape in Hfire as [He2 Hi2].
    split.
    + rewrite Hp'. unfold player_shape in *.
      destruct hit, struck; cbn [fst snd];
        rewrite ?(proj2 (proj2 (take_damage_spec _ _))); try done;
        unfold take_damage; simpl; by destruct (_ <? _).
    + rewrite Ha'. destruct hit; [by apply Forall_delete|].
      apply Forall_insert; [done|]. unfold alien_shape.
      destruct struck; simpl; rewrite ?He2, Hi2, Hi1, Hh1; done.
Qed.

Lemma heart_section_shape sprite g g' :
  shape_inv g → heart_section sprite g = Some g' → shape_inv g'.
Proof.
  intros [Hp Hall] Hsec.
  apply heart_section_keeps in Hsec as (_ & _ & Ha & _ & _ & Hp' & _).
  split; [|by rewrite Ha].
  destruct Hp' as [->|(h & -> & _)]; [done|].
  unfold player_shape, heal in *. simpl. by destruct (_ <? _).
Qed.

Lemma load_alien_shape sprite d l d' l' :
  outcome (load_alien sprite (d, l)) (d', l') →
  ∃ a, l' = l ++ [a] ∧ alien_shape a.
Proof.
  unfold load_alien.
  intros (t & Ht%outcome_randint_inv & H)%outcome_bind.
  apply outcome_bind in H as (r & _ & H).
  apply outcome_bind in H as (d1 & _ & H).
  assert (t = 1 ∨ t = 2 ∨ t = 3) as [->|[->| ->]] by lia;
    cbn [decide_rel decide Z.eq_dec] in H; simpl in H;
    apply outcome_bind in H as (x & _ & H);
    apply outcome_ret_inv in H; injection H as _ ->;
    eexists; (split; [reflexivity|]); (split; [reflexivity|]);
    unfold Spaceship_init, Entity_init; cbn [ship_entity];
    rewrite (proj2 (check_imagePath_size _ _ _)); simpl; lia.
Qed.

Lemma frame_shape sprite keys g g' :
  shape_inv g → outcome (frame sprite keys g) g' → shape_inv g'.
Proof.
  intros [Hp Hall] (_ & p & aliens & g2 & Hc & Ha & Hloop & Hheart)%frame_steps.
  apply (player_controls_shape _ _ _ Hp) in Hc.
  apply (heart_section_shape _ _ _) in Hheart; [done|].
  apply (alien_loop_keeps shape_inv alien_turn_shape _ _ _ _) in Hloop;
    [done|].
  split; [done|]. simpl.
  destruct (_ <? _); [|by subst].
  unfold load_aliens in Ha.
  apply outcome_bind in Ha as ([d1 l1] & H1 & Ha).
  apply outcome_bind in Ha as ([d2 l2] & H2 & Ha).
  apply outcome_ret_inv in Ha. simpl in Ha. subst aliens.
  apply load_alien_shape in H1 as (a & -> & Hsa).
  apply load_alien_shape in H2 as (b & -> & Hsb).
  apply Forall_app. split; [|by constructor].
  apply Forall_app. split; [done|by constructor].
Qed.

Lemma game_init_shape sprite : shape_inv (game_init sprite).
Proof.
  split; [|constructor]. split; [reflexivity|].
  unfold game_init, Spaceship_init, Entity_init, check_imagePath.
  cbn [player ship_entity]. destruct (_ && _); [|done].
  simpl. by intros r [= <-].
Qed.

Lemma reachable_shape sprite g : reachable sprite g → shape_inv g.
Proof.
  induction 1 as [|keys g g' _ IH Hframe].
  - apply game_init_shape.
  - by eapply frame_shape.
Qed.

(** A float that is not negative is not rounded below zero, and no float
    is rounded further down than by a half. *)
Lemma to_int_bounds (q : Q) :
  ((0 <= q)%Q → 0 ≤ to_int q)
  ∧ ((q <= 0)%Q → (q - (1 # 2) <= inject_Z (to_int q))%Q).
Proof.
  split.
  - intros H. by apply to_int_ge_int.
  - intros _. destruct (to_int_near q) as [_ H]. lra.
Qed.

(** A bullet that the player fires starts inside. *)
Lemma player_shot_in_field p p' :
  player_shape p → shoot p = Some p' → in_field (bullet p').
Proof.
  intros [Hp Hr]. unfold shoot. intros (r & Hpr & [= <-])%bind_Some.
  rewrite Hp. unfold in_field. simpl. rewrite (Hr r Hpr).
  split; reflexivity.
Qed.

(** A bullet that an alien fires in its turn starts inside. *)
Lemma alien_shot_in_field a r a1 a2 :
  alien_shape a →
  is_killed a = false →
  placeholder a = Some r →
  Spaceship_move a 1 SCREEN_W SCREEN_H = Some a1 →
  is_killed a1 = false →
  is_fired (bullet a1) = false →
  alien_shoot a1 = Some a2 →
  is_fired (bullet a2) = true →
  in_field (bullet a2).
Proof.
  intros [Hp Hh] Hk Hr Hmove Hk1 Hf1 Hshoot Hf2.
  destruct (enemy_move a r 1 SCREEN_W SCREEN_H Hp Hr)
    as (a1' & r1 & Hmove' & Hr1 & Hy & Hry & Hh1 & Hkilled).
  rewrite Hmove in Hmove'. injection Hmove' as <-.
  rewrite Hk1, Hk in Hkilled. cbn [orb] in Hkilled.
  symmetry in Hkilled. apply Z.leb_gt in Hkilled.
  apply Spaceship_move_keeps in Hmove as (_ & _ & Hp1 & _).
  unfold alien_shoot in Hshoot.
  destruct (_ && _) eqn:Hcond.
  2:{ injection Hshoot as <-. simpl in Hf2. congruence. }
  apply andb_true_iff in Hcond as [_ Hvis]. simpl in Hvis.
  apply Qle_bool_iff in Hvis.
  apply bind_Some in Hshoot as (s & Hs & [= <-]).
  unfold shoot in Hs. simpl in Hs. rewrite Hr1 in Hs.
  cbn [mbind option_bind] in Hs. injection Hs as <-.
  rewrite Hp1, Hp. unfold in_field. simpl.
  assert (0 < rect_y r1 + height a1) as Hlow.
  { rewrite Hry. destruct (Qlt_le_dec (y_pos a1) 0) as [Hneg|Hpos].
    - pose proof (proj2 (to_int_bounds (y_pos a1)) (Qlt_le_weak _ _ Hneg)) as Hb.
      assert (inject_Z 0 < inject_Z (to_int (y_pos a1) + height a1))%Q
        as Hq; [|by rewrite <- Zlt_Qlt in Hq].
      rewrite inject_Z_plus.
      assert (1 < inject_Z (height a1))%Q
        by (change 1%Q with (inject_Z 1); rewrite <- Zlt_Qlt; lia).
      change (inject_Z 0) with 0%Q. clear Hy.
      unfold Qdiv in Hvis. change (/ 2)%Q with (1 # 2)%Q in Hvis. lra.
    - pose proof (proj1 (to_int_bounds (y_pos a1)) Hpos). lia. }
  split.
  - change 0%Q with (inject_Z 0). rewrite <- Zlt_Qlt. lia.
  - rewrite <- Zlt_Qlt. unfold SCREEN_H in *. lia.
Qed.

(** ** Sessions *)

Lemma run_outcome {A} (m : Rand A) : ∀ draws a,
  run m draws = Some a → outcome m a.
Proof.
  induction m as [a'|e|lo hi k IH]; intros draws a Hrun; simpl in Hrun.
  - injection Hrun as <-. constructor.
  - discriminate.
  - destruct draws as [|v draws]; [discriminate|].
    destruct (Z.leb_spec lo v); [|discriminate].
    destruct (Z.leb_spec v hi); [|discriminate].
    simpl in Hrun. econstructor; [|by eapply IH]. lia.
Qed.

Lemma sample_state_reachable : reachable all_sprites sample_state.
Proof.
  apply (reachable_frame _ fire_key (game_init all_sprites));
    [apply reachable_init|].
  apply (run_outcome _ [1; 2; 350; 3; 1; 1; 600]).
  vm_compute. reflexivity.
Qed.

(** C2: the player's health starts at 100 and is between 0 and 100 in
    every state of a session; a hit never leaves it below 0 (5 points
    struck by 10 leave exactly 0), a heart never lifts it above 100, and
    the aliens reaching the player leave it at 0. *)
Theorem player_health_bounded (sprite : string → bool) (g : Game) :
  reachable sprite g →
  0 ≤ health (player g) ≤ 100
  ∧ health (player (game_init sprite)) = 100
  ∧ (∀ p dmg, 0 ≤ health (take_damage p dmg))
  ∧ (∀ p, health p = 5 → health (take_damage p 10) = 0)
  ∧ (∀ p amount, health (heal p amount) ≤ 100)
  ∧ (∀ g0, health (player (aliens_reached g0)) = 0).
Proof.
  intros Hreach. split_and!.
  - apply (reachable_inv sprite g Hreach).
  - apply (reachable_inv sprite g Hreach).
  - reflexivity.
  - intros p dmg. rewrite (proj1 (take_damage_spec p dmg)). lia.
  - intros p Hp. rewrite (proj1 (take_damage_spec p 10)), Hp. reflexivity.
  - intros p amount. rewrite (proj1 (heal_spec p amount)). lia.
  - reflexivity.
Qed.

Lemma player_health_bounded_witness :
  0 ≤ health (player sample_state) ≤ 100.
Proof.
  exact (proj1 (player_health_bounded all_sprites sample_state
                  sample_state_reachable)).
Defined.

Lemma bullets_ok g : game_inv g → Forall bullet_ok (bullets g).
Proof.
  intros (_ & Hb & Hall & _). unfold bullets. constructor; [done|].
  apply Forall_fmap. eapply Forall_impl; [exact Hall|]. by intros a [_ H].
Qed.

Lemma player_controls_in_field keys p p' :
  player_shape p →
  bullet_ok (bullet p) →
  player_controls keys p = Some p' →
  is_fired (bullet p') = true →
  in_field (bullet p').
Proof.
  unfold player_controls.
  intros Hp Hok (p1 & H1 & (p2 & H2 & H3)%bind_Some)%bind_Some Hf.
  assert (player_shape p1 ∧ bullet p1 = bullet p) as [Hp1 Hb1].
  { destruct (K_LEFT keys); [|by injection H1 as <-].
    by apply (player_move_shape _ _ _ Hp) in H1. }
  assert (player_shape p2 ∧ bullet p2 = bullet p1) as [Hp2 Hb2].
  { destruct (K_RIGHT keys); [|by injection H2 as <-].
    by apply (player_move_shape _ _ _ Hp1) in H2. }
  destruct (_ && _).
  - by apply (player_shot_in_field p2 p').
  - injection H3 as <-. rewrite Hb2, Hb1 in *. by apply Hok.
Qed.

(** C4: [Bullet.move] adds [speed * direction] to [y] and leaves the
    bullet fired exactly when it was fired and the new [y] is strictly
    between 0 and [screen_h], so it never arms a bullet;
    [reset_bullets] clears [is_fired] and puts the bullet at
    (SCREEN_W, SCREEN_H), which is not inside; between the frames of a
    session every bullet, the player's and the aliens', is fired exactly
    when its [y] is strictly between 0 and SCREEN_H; and within a frame
    a bullet is inside also at the moment it is fired, by the player's
    controls or by an alien in its turn. *)
Theorem fired_iff_in_field (sprite : string → bool) (g : Game) :
  reachable sprite g →
  (∀ b direction screen_w screen_h,
     let b' := Bullet_move b direction screen_w screen_h in
     y_pos b' = (y_pos b + speed b * inject_Z direction)%Q
     ∧ (is_fired b' = true ↔
          is_fired b = true
          ∧ (0 < y_pos b')%Q ∧ (y_pos b' < inject_Z screen_h)%Q)
     ∧ (is_fired b = true →
          (is_fired b' = false ↔
             (y_pos b' <= 0)%Q ∨ (inject_Z screen_h <= y_pos b')%Q)))
  ∧ (∀ b,
       is_fired (reset_bullets b) = false
       ∧ x_pos (reset_bullets b) = inject_Z SCREEN_W
       ∧ y_pos (reset_bullets b) = inject_Z SCREEN_H
       ∧ ¬ in_field (reset_bullets b))
  ∧ (∀ b, b ∈ bullets g →
       (is_fired b = true ↔
          (0 < y_pos b)%Q ∧ (y_pos b < inject_Z SCREEN_H)%Q))
  ∧ (∀ keys p',
       player_controls keys (player g) = Some p' →
       is_fired (bullet p') = true →
       in_field (bullet p'))
  ∧ Forall alien_shape (alien_list g)
  ∧ (∀ a r a1 a2,
       alien_shape a →
       is_killed a = false →
       placeholder a = Some r →
       Spaceship_move a 1 SCREEN_W SCREEN_H = Some a1 →
       is_killed a1 = false →
       is_fired (bullet a1) = false →
       alien_shoot a1 = Some a2 →
       is_fired (bullet a2) = true →
       in_field (bullet a2)).
Proof.
  intros Hreach.
  pose proof (reachable_inv sprite g Hreach) as Hinv.
  pose proof (reachable_shape sprite g Hreach) as [Hplayer Haliens].
  split_and!.
  - intros b direction screen_w screen_h b'. subst b'.
    split; [apply Bullet_move_y|].
    rewrite Bullet_move_fired. split.
    + rewrite andb_true_iff, negb_true_iff, outside_iff. tauto.
    + intros ->. cbn [andb]. rewrite negb_false_iff, orb_true_iff.
      by rewrite !Qle_bool_iff.
  - intros b. split_and!; try reflexivity.
    intros Hin. apply (reset_bullets_ok b) in Hin. discriminate Hin.
  - intros b Hb.
    pose proof (bullets_ok g Hinv) as Hall.
    rewrite Forall_forall in Hall. apply (Hall b Hb).
  - intros keys p'. apply player_controls_in_field; [done|].
    by destruct Hinv as (_ & Hb & _).
  - exact Haliens.
  - intros a r a1 a2. apply alien_shot_in_field.
Qed.

Lemma fired_iff_in_field_witness :
  is_fired (bullet (player sample_state)) = true
  ∧ (0 < y_pos (bullet (player sample_state)))%Q
  ∧ (y_pos (bullet (player sample_state)) < inject_Z SCREEN_H)%Q.
Proof.
  split; [reflexivity|].
  apply (proj1 (proj2 (proj2 (fired_iff_in_field all_sprites sample_state
                                sample_state_reachable)))
           (bullet (player sample_state)));
    [left|reflexivity].
Defined.

(** ** Score and level *)

(** What a turn does to the score, the level and the number of aliens:
    [killed] says whether the player's bullet hit the alien. *)
Lemma alien_turn_score i a g g' stop :
  alien_list g !! i = Some a →
  alien_turn i a g = Some (g', stop) →
  ∃ killed : bool,
    (killed = true ↔
       is_killed a = false
       ∧ ∃ a1 a2,
           Spaceship_move a 1 SCREEN_W SCREEN_H = Some a1
           ∧ is_killed a1 = false
           ∧ alien_fire a1 = Some a2
           ∧ check_collisions (bullet (player g)) (x_pos a2) (y_pos a2)
               (width a2) (height a2) = true)
    ∧ score g' = score g + (if killed then 1 else 0)
    ∧ level g'
      = level g + (if killed && ((score g + 1) mod 25 =? 0) then 1 else 0)
    ∧ (length (alien_list g') + (if killed then 1 else 0))%nat
      = length (alien_list g)
    ∧ (killed = true → is_fired (bullet (player g)) = true)
    ∧ (is_fired (bullet (player g)) = false ∨ killed = true →
       is_fired (bullet (player g')) = false).
Proof.
  intros Hi Hturn. apply alien_turn_cases in Hturn
    as [(Hk & -> & _)|[(Hk & a1 & Hmove & Hk1 & -> & _)|Hplay]].
  - exists false. split_and!; try done; try lia.
    + split; [done|]. intros [? _]. congruence.
    + cbn [andb]. lia.
    + by intros [?|?].
  - exists false. simpl. split_and!; try done; try lia.
    + split; [done|]. intros (_ & a1' & a2 & Hmove' & Hk1' & _). congruence.
    + rewrite length_insert. lia.
    + by intros [?|?].
  - destruct Hplay as (Hk & a1 & a2 & hit & struck & Hmove & Hk1 & Hfire
                       & Hhit & _ & Hp & Hs & Hl & Ha & _).
    exists hit. rewrite Hs, Hl, Ha, Hp. split_and!; try done.
    + split.
      * intros ->. split; [done|]. by exists a1, a2.
      * intros (_ & a1' & a2' & Hmove' & _ & Hfire' & Hc).
        congruence.
    + destruct hit.
      * rewrite length_delete by (by rewrite Hi).
        apply lookup_lt_Some in Hi. lia.
      * rewrite length_insert. lia.
    + intros ->. symmetry in Hhit. unfold check_collisions in Hhit.
      by apply andb_true_iff in Hhit as [[Hf _]%andb_true_iff _].
    + intros Hor. destruct hit.
      * destruct struck; cbn [fst snd];
          rewrite ?(proj1 (proj2 (take_damage_spec _ _))); done.
      * destruct Hor as [Hf|?]; [|done].
        destruct struck; cbn [fst snd];
          rewrite ?(proj1 (proj2 (take_damage_spec _ _))); done.
Qed.

Lemma sample_state_2_outcome :
  outcome (frame all_sprites no_keys sample_state) sample_state_2.
Proof. apply (run_outcome _ []). vm_compute. reflexivity. Qed.

(** Two aliens are spawned in the first frame, a small one in the middle
    lane; the player fires in the tenth frame and the bullet reaches the
    small alien in frame 32. *)
Example first_kill :
  (λ g, (score g, level g, length (alien_list g),
         is_fired (bullet (player g)), health (player g)))
    <$> run_frames all_sprites (game_init all_sprites)
          ((no_keys, [1; 2; 350; 3; 1; 1; 600]) :: replicate 8 (no_keys, [])
           ++ (fire_key, []) :: replicate 21 (no_keys, []))
  = Some (0, 1, 2%nat, true, 100)
  ∧ (λ g, (score g, level g, length (alien_list g),
           is_fired (bullet (player g)), health (player g)))
      <$> run_frames all_sprites (game_init all_sprites)
            ((no_keys, [1; 2; 350; 3; 1; 1; 600]) :: replicate 8 (no_keys, [])
             ++ (fire_key, []) :: replicate 22 (no_keys, []))
    = Some (1, 1, 1%nat, false, 100).
Proof. split; vm_compute; reflexivity. Qed.

(** C6: in a frame of a session the score grows by one for every alien
    that the player's bullet kills and by nothing else, the aliens that
    leave the list being exactly the killed ones; the level grows by one
    exactly when the score has grown to a multiple of 25, so that it is
    always one more than the number of multiples of 25 reached (24 to 25
    lifts it once, 49 to 50 once more); in an alien's turn a collision
    of the player's bullet with the alien adds exactly one point and
    takes the alien out, and a turn without one changes neither score
    nor level. *)
Theorem score_counts_kills (sprite : string → bool) (keys : Keys)
    (g g' : Game) :
  reachable sprite g →
  outcome (frame sprite keys g) g' →
  (∃ kills : bool,
     score g' = score g + (if kills then 1 else 0)
     ∧ level g'
       = level g + (if kills && (score g' mod 25 =? 0) then 1 else 0)
     ∧ Z.of_nat (length (alien_list g')) + (if kills then 1 else 0)
       = Z.of_nat (length (alien_list g))
         + (if Z.of_nat (length (alien_list g)) <? level g then 2 else 0))
  ∧ level g' = 1 + score g' / 25
  ∧ (∀ i a g1 g2 stop,
       alien_list g1 !! i = Some a →
       alien_turn i a g1 = Some (g2, stop) →
       ∃ killed : bool,
         (killed = true ↔
            is_killed a = false
            ∧ ∃ a1 a2,
                Spaceship_move a 1 SCREEN_W SCREEN_H = Some a1
                ∧ is_killed a1 = false
                ∧ alien_fire a1 = Some a2
                ∧ check_collisions (bullet (player g1)) (x_pos a2) (y_pos a2)
                    (width a2) (height a2) = true)
         ∧ score g2 = score g1 + (if killed then 1 else 0)
         ∧ level g2
           = level g1
             + (if killed && ((score g1 + 1) mod 25 =? 0) then 1 else 0)
         ∧ (length (alien_list g2) + (if killed then 1 else 0))%nat
           = length (alien_list g1))
  ∧ (∀ g0, score g0 = 24 →
       score (score_kill g0) = 25 ∧ level (score_kill g0) = level g0 + 1)
  ∧ (∀ g0, score g0 = 49 →
       score (score_kill g0) = 50 ∧ level (score_kill g0) = level g0 + 1)
  ∧ (∀ g0, (score g0 + 1) mod 25 ≠ 0 → level (score_kill g0) = level g0).
Proof.
  intros Hreach Hframe.
  pose proof (reachable_inv _ _ Hreach) as Hinv.
  pose proof (frame_inv _ _ _ _ Hinv Hframe) as (_ & _ & _ & _ & _ & Hlevel).
  apply frame_steps in Hframe
    as (_ & p & aliens & g2 & _ & Ha & Hloop & Hheart).
  apply heart_section_keeps in Hheart as (Hs' & Hl' & Ha' & _).
  split_and!; [|exact Hlevel| | | |].
  - set (g1 := set_player _ _) in Hloop.
    assert (∃ kills : bool,
      score g2 = score g1 + (if kills then 1 else 0)
      ∧ level g2
        = level g1 + (if kills && ((score g1 + 1) mod 25 =? 0) then 1 else 0)
      ∧ (length (alien_list g2) + (if kills then 1 else 0))%nat
        = length (alien_list g1)
      ∧ (kills = true → is_fired (bullet (player g2)) = false))
      as (kills & Hs2 & Hl2 & Hn2 & _).
    { refine (alien_loop_keeps (λ h, ∃ kills : bool,
        score h = score g1 + (if kills then 1 else 0)
        ∧ level h
          = level g1
            + (if kills && ((score g1 + 1) mod 25 =? 0) then 1 else 0)
        ∧ (length (alien_list h) + (if kills then 1 else 0))%nat
          = length (alien_list g1)
        ∧ (kills = true → is_fired (bullet (player h)) = false))
        _ _ _ _ _ _ Hloop).
      - intros i a h h' stop (kills & Hs & Hl & Hn & Hf) Hi Hturn.
        destruct (alien_turn_score _ _ _ _ _ Hi Hturn)
          as (killed & _ & Hs1 & Hl1 & Hn1 & Hf1 & Hf2).
        destruct kills.
        + destruct killed.
          { rewrite Hf in Hf1 by done. by discriminate Hf1. }
          exists true. cbn [andb] in *. split_and!; try lia.
          intros _. apply Hf2. left. by apply Hf.
        + exists killed. cbn [andb] in *.
          rewrite Z.add_0_r in Hs. rewrite Hs in Hl1.
          split_and!; try lia. intros ->. apply Hf2. by right.
      - exists false. cbn [andb]. split_and!; (lia || done). }
    exists kills. rewrite Hs', Hl', Ha'. subst g1. simpl in *.
    split; [exact Hs2|]. split.
    + destruct kills; cbn [andb] in *; [|lia]. by rewrite Hs2.
    + destruct (_ <? _).
      * apply load_aliens_outcome in Ha as (a & b & -> & _).
        rewrite length_app in Hn2. simpl in Hn2. destruct kills; lia.
      * subst aliens. destruct kills; lia.
  - intros i a g1 g2' stop Hi Hturn.
    destruct (alien_turn_score _ _ _ _ _ Hi Hturn)
      as (killed & Hk & Hs1 & Hl1 & Hn1 & _).
    by exists killed.
  - intros g0 H0. destruct (score_kill_spec g0) as (-> & -> & _).
    rewrite H0. by split.
  - intros g0 H0. destruct (score_kill_spec g0) as (-> & -> & _).
    rewrite H0. by split.
  - intros g0 H0. destruct (score_kill_spec g0) as (_ & -> & _).
    destruct (Z.eqb_spec ((score g0 + 1) mod 25) 0); [done|lia].
Qed.

Lemma score_counts_kills_witness :
  level sample_state_2 = 1 + score sample_state_2 / 25.
Proof.
  exact (proj1 (proj2 (score_counts_kills all_sprites no_keys sample_state
                         sample_state_2 sample_state_reachable
                         sample_state_2_outcome))).
Defined.

(** ** The end of a session by aliens *)

(** C9: when an alien reaches the player, the turn that ends the game
    also writes 0 into the player's health, whatever it was and without
    any test of a bullet against the player; it changes nothing else of
    the player, and the score, the goal, the level and the heart stay
    as they were. *)
Theorem aliens_reached_zeroes_health (i : nat) (a a1 : Spaceship)
    (g : Game) :
  is_killed a = false →
  Spaceship_move a 1 SCREEN_W SCREEN_H = Some a1 →
  is_killed a1 = true →
  ∃ g',
    alien_turn i a g = Some (g', true)
    ∧ player g' = set_health (player g) 0
    ∧ health (player g') = 0
    ∧ ship_entity (player g') = ship_entity (player g)
    ∧ bullet (player g') = bullet (player g)
    ∧ is_killed (player g') = is_killed (player g)
    ∧ shoot_delay (player g') = shoot_delay (player g)
    ∧ is_player (player g') = is_player (player g)
    ∧ shoot_timer (player g') = shoot_timer (player g)
    ∧ score g' = score g ∧ goal g' = goal g ∧ level g' = level g
    ∧ heart g' = heart g.
Proof.
  intros Hk Hmove Hk1. eexists.
  split; [by apply aliens_reached_turn|]. by split_and!.
Qed.

Lemma aliens_reached_zeroes_health_witness :
  health (player danger_state) = 100
  ∧ ∃ g', alien_turn 0 near_alien danger_state = Some (g', true)
          ∧ health (player g') = 0.
Proof.
  split; [reflexivity|].
  destruct (aliens_reached_zeroes_health 0 near_alien
              (default near_alien
                 (Spaceship_move near_alien 1 SCREEN_W SCREEN_H))
              danger_state eq_refl eq_refl eq_refl)
    as (g' & Hturn & _ & Hhealth & _).
  by exists g'.
Defined.

(** A session in which nobody fires at the aliens: two small aliens come
    down, the one above the player hits it four times, and in frame 277
    it reaches the line; the frame after that is not played. *)
Example aliens_reach_player :
  (λ g, (score g, health (player g), is_game_over g, game_over_text g))
    <$> run_frames all_sprites (game_init all_sprites)
          ((no_keys, [1; 2; 350; 1; 1; 1; 600]) :: replicate 275 (no_keys, []))
  = Some (0, 60, false, "YOU DIED"%string)
  ∧ (λ g, (score g, health (player g), is_game_over g, game_over_text g))
      <$> run_frames all_sprites (game_init all_sprites)
            ((no_keys, [1; 2; 350; 1; 1; 1; 600])
             :: replicate 276 (no_keys, []))
    = Some (0, 0, true, "ALIENS REACHED YOU"%string)
  ∧ run_frames all_sprites (game_init all_sprites)
      ((no_keys, [1; 2; 350; 1; 1; 1; 600]) :: replicate 277 (no_keys, []))
    = None.
Proof. split_and!; vm_compute; reflexivity. Qed.

(** A session with two medium aliens in which nobody fires at them: the
    one above the player hits it four times with 25 points each; the
    fourth hit, in frame 363, finds 25 points of health, leaves 0 and
    ends the game with the reason "YOU DIED". *)
Example player_dies :
  (λ g, (health (player g), is_game_over g, game_over_text g))
    <$> run_frames all_sprites (game_init all_sprites)
          ((no_keys, [2; 2; 350; 2; 1; 1; 600]) :: replicate 361 (no_keys, []))
  = Some (25, false, "YOU DIED"%string)
  ∧ (λ g, (health (player g), is_game_over g, game_over_text g))
      <$> run_frames all_sprites (game_init all_sprites)
            ((no_keys, [2; 2; 350; 2; 1; 1; 600])
             :: replicate 362 (no_keys, []))
    = Some (0, true, "YOU DIED"%string).
Proof. split; vm_compute; reflexivity. Qed.

(** ** The course of a session *)

Lemma alien_turn_over i a g g' stop :
  alien_turn i a g = Some (g', stop) →
  is_game_over g' = is_game_over g || stop.
Proof.
  intros Hturn. apply alien_turn_cases in Hturn
    as [(_ & -> & ->)|[(_ & a1 & _ & _ & -> & ->)|Hplay]].
  - by rewrite orb_false_r.
  - simpl. by rewrite orb_true_r.
  - by destruct Hplay as (_ & a1 & a2 & hit & struck & _ & _ & _ & _ & _
                          & _ & _ & _ & _ & _ & _ & _ & Ho & _).
Qed.

(** A property that every turn of a running game keeps holds after the
    loop. *)
Lemma alien_loop_keeps_running (P : Game → Prop) :
  (∀ i a g g' stop,
     P g → is_game_over g = false → alien_list g !! i = Some a →
     alien_turn i a g = Some (g', stop) → P g') →
  ∀ fuel i g g',
    P g → is_game_over g = false → alien_loop fuel i g = Some g' → P g'.
Proof.
  intros Hturn. induction fuel as [|fuel IH]; intros i g g' HP Hrun Hloop.
  { by injection Hloop as <-. }
  cbn [alien_loop] in Hloop.
  destruct (alien_list g !! i) as [a|] eqn:Hi; [|by injection Hloop as <-].
  apply bind_Some in Hloop as ([g1 stop] & Hstep & Hloop).
  pose proof (Hturn _ _ _ _ _ HP Hrun Hi Hstep) as HP1.
  pose proof (alien_turn_over _ _ _ _ _ Hstep) as Ho.
  destruct stop; [by injection Hloop as <-|].
  eapply IH; [exact HP1| |exact Hloop]. by rewrite Ho, Hrun.
Qed.

Lemma enemy_move_in_play a a1 direction screen_w :
  is_killed a = false →
  Spaceship_move a direction screen_w SCREEN_H = Some a1 →
  in_play a →
  is_killed a1 = false →
  in_play a1.
Proof.
  intros Hk Hmove [_ Hlow] Hk1. split; [done|]. intros r Hr.
  unfold Spaceship_move in Hmove. destruct (is_player a) eqn:Hpl.
  - apply bind_Some in Hmove as (r0 & Hr0 & [= <-]).
    simpl in Hr. injection Hr as <-. simpl. by apply Hlow.
  - apply bind_Some in Hmove as (r0 & Hr0 & Hmove).
    destruct (_ <=? _) eqn:Hline; injection Hmove as <-; simpl in *;
      [congruence|].
    injection Hr as <-. by apply Z.leb_gt in Hline.
Qed.

Lemma alien_turn_status i a g g' stop :
  game_inv g →
  status_loop_inv g →
  is_game_over g = false →
  alien_list g !! i = Some a →
  alien_turn i a g = Some (g', stop) →
  status_loop_inv g'.
Proof.
  intros Hinv (Hplay & _ & Hlen & Hrest) Hrun Hi Hturn.
  destruct (Hplay Hrun) as (Hpos & Hall & Htext).
  pose proof (alien_turn_inv _ _ _ _ _ Hinv Hi Hturn) as (Hh' & _).
  pose proof (alien_turn_over _ _ _ _ _ Hturn) as Ho. rewrite Hrun in Ho.
  cbn [orb] in Ho.
  apply alien_turn_cases in Hturn
    as [(_ & -> & ->)|[(Hk & a1 & Hmove & Hk1 & -> & ->)|Hplay']].
  - split_and!; try done. congruence.
  - unfold status_loop_inv. simpl.
    rewrite length_insert. split_and!; try done.
    intros _. split; [done|]. by right.
  - destruct Hplay' as (Hk & a1 & a2 & hit & struck & Hmove & Hk1 & Hfire
                        & _ & _ & Hp & Hs' & Hl' & Ha' & Hh & _ & Ht & _ & Hstop).
    unfold status_loop_inv. rewrite Hh, Ht, Ho. split_and!; try done.
    + intros ->. symmetry in Hstop. apply Z.leb_gt in Hstop.
      split_and!; try done.
      rewrite Ha'. destruct hit; [by apply Forall_delete|].
      apply Forall_insert; [done|].
      pose proof (Forall_lookup_1 _ _ _ _ Hall Hi) as Hin.
      pose proof (enemy_move_in_play _ _ _ _ Hk Hmove Hin Hk1) as [_ Hlow].
      destruct (alien_fire_keeps _ _ Hfire) as (_ & Hk2 & He2 & _).
      split; [destruct struck; simpl; congruence|].
      intros r Hr. destruct struck; simpl in Hr |- *;
        rewrite He2 in Hr |- *; by apply Hlow.
    + intros ->. symmetry in Hstop. apply Z.leb_le in Hstop.
      split; [lia|by left].
    + rewrite Ha', Hl'. destruct hit.
      * rewrite length_delete by (by rewrite Hi).
        apply lookup_lt_Some in Hi. destruct (_ && _); lia.
      * rewrite length_insert. cbn [andb]. lia.
Qed.

(** ** New aliens *)

(** One pass of the loop of [load_aliens] draws a type and a hint, lets
    [get_rand_spawn] choose the position and appends the alien of that
    type at that position. *)
Lemma load_alien_appends sprite d l d' l' :
  outcome (load_alien sprite (d, l)) (d', l') →
  ∃ t r x,
    1 ≤ t ≤ 3 ∧ 1 ≤ r ≤ 3
    ∧ outcome (get_rand_spawn d r) d'
    ∧ d' !! "spawn_location"%string = Some x
    ∧ l' = l ++ [alien_of sprite t x].
Proof.
  unfold load_alien.
  intros (t & Ht%outcome_randint_inv & H)%outcome_bind.
  apply outcome_bind in H as (r & Hr%outcome_randint_inv & H).
  apply outcome_bind in H as (d1 & Hd1 & H).
  assert (t = 1 ∨ t = 2 ∨ t = 3) as Hcases by lia.
  destruct Hcases as [->|[->| ->]];
    cbn [decide_rel decide Z.eq_dec] in H; simpl in H;
    apply outcome_bind in H as (x & Hx%outcome_or_raise & H);
    apply outcome_ret_inv in H; injection H as -> ->.
  - exists 1, r, x. split_and!; (lia || done).
  - exists 2, r, x. split_and!; (lia || done).
  - exists 3, r, x. split_and!; (lia || done).
Qed.

Lemma alien_of_in_play sprite t x : in_play (alien_of sprite t x).
Proof.
  unfold alien_of, Spaceship_init, Entity_init, check_imagePath.
  split.
  - by repeat case_decide.
  - intros r. repeat case_decide; cbn [ship_entity];
      (destruct (_ && _); simpl; intros Hr;
       [injection Hr as <-; vm_compute; reflexivity|discriminate]).
Qed.

Lemma load_aliens_appends sprite l l' :
  outcome (load_aliens sprite l) l' →
  ∃ ta ra xa da tb rb xb db,
    1 ≤ ta ≤ 3 ∧ 1 ≤ ra ≤ 3 ∧ 1 ≤ tb ≤ 3 ∧ 1 ≤ rb ≤ 3
    ∧ outcome (get_rand_spawn
                 {[ "spawn_location"%string := 0;
                    "previous_location"%string := 0 ]} ra) da
    ∧ da !! "spawn_location"%string = Some xa
    ∧ outcome (get_rand_spawn da rb) db
    ∧ db !! "spawn_location"%string = Some xb
    ∧ l' = l ++ [alien_of sprite ta xa; alien_of sprite tb xb].
Proof.
  unfold load_aliens.
  intros ([d1 l1] & H1 & H)%outcome_bind.
  apply outcome_bind in H as ([d2 l2] & H2 & H).
  apply outcome_ret_inv in H. simpl in H. subst l'.
  apply load_alien_appends in H1 as (ta & ra & xa & Hta & Hra & Hda & Hxa & ->).
  apply load_alien_appends in H2 as (tb & rb & xb & Htb & Hrb & Hdb & Hxb & ->).
  exists ta, ra, xa, d1, tb, rb, xb, d2. rewrite <- app_assoc.
  split_and!; (lia || done).
Qed.

Lemma frame_status sprite keys g g' :
  game_inv g → status_inv g →
  outcome (frame sprite keys g) g' →
  status_inv g'.
Proof.
  intros Hinv (Hplay & _ & Hlen & Hrest) Hframe.
  pose proof Hframe as Hsteps.
  apply frame_steps in Hsteps
    as (Hrun & p & aliens & g2 & Hp & Ha & Hloop & Hheart).
  destruct (Hplay Hrun) as (Hpos & Hall & Htext).
  set (g1 := set_player _ _) in Hloop.
  assert (game_inv g1) as Hinv1.
  { destruct Hinv as (Hh & Hb & Hall' & Hr & Hs & Hl).
    apply player_controls_keeps in Hp as (Hhp & _ & Hbp).
    unfold game_inv, g1. simpl.
    refine (conj _ (conj _ (conj _ (conj _ (conj _ _))))); try done.
    - lia.
    - apply move_bullets_ok, Hbp. by apply bullet_ok_unfired_out.
    - destruct (_ <? _); [|by subst].
      apply load_aliens_outcome in Ha as (a & b & -> & Ha & Hb').
      apply Forall_app. split; [done|].
      constructor; [done|]. constructor; [done|]. constructor. }
  assert (status_loop_inv g1) as Hst1.
  { apply player_controls_keeps in Hp as (Hhp & _).
    unfold status_loop_inv, g1. simpl. split_and!; try done.
    - intros _. split_and!; [lia| |done].
      destruct (_ <? _); [|by subst].
      apply load_aliens_appends in Ha
        as (ta & ra & xa & da & tb & rb & xb & db & _ & _ & _ & _ & _ & _ & _
            & _ & ->).
      apply Forall_app. split; [done|].
      constructor; [apply alien_of_in_play|].
      constructor; [apply alien_of_in_play|]. constructor.
    - intros ?. congruence.
    - revert Ha.
      destruct (Z.ltb_spec (Z.of_nat (length (alien_list g))) (level g));
        intros Ha; [|by subst].
      apply load_aliens_outcome in Ha as (a & b & -> & _).
      rewrite length_app. simpl. lia. }
  assert (game_inv g2 ∧ status_loop_inv g2) as [Hinv2 Hst2].
  { refine (alien_loop_keeps_running (λ h, game_inv h ∧ status_loop_inv h)
              _ _ _ _ _ (conj Hinv1 Hst1) Hrun Hloop).
    intros i a h h' stop [Hi1 Hi2] Hr Hi Hturn. split.
    - by eapply alien_turn_inv.
    - by eapply alien_turn_status. }
  destruct Hst2 as (Hplay2 & Hover2 & Hlen2 & Hrest2).
  apply heart_section_keeps in Hheart
    as (_ & Hl' & Ha' & Ho' & Ht' & Hp' & Hr').
  unfold status_inv. rewrite Hl', Ha', Ho', Ht'. split_and!; try done.
  - intros Hnot. destruct (Hplay2 Hnot) as (Hpos2 & Hall2 & Htext2).
    split_and!; try done.
    destruct Hp' as [->|(h & -> & Hrh & _)]; [done|]. simpl.
    rewrite (proj1 (heal_spec _ _)), Hrh, Hrest2. lia.
  - intros Hyes. destruct (Hover2 Hyes) as (Hz & Htext2).
    split; [|done].
    destruct Hp' as [->|(h & -> & Hrh & _)]; [by left|]. simpl.
    rewrite (proj1 (heal_spec _ _)), Hrh, Hrest2, Hz. by right.
  - destruct Hr' as [->|?]; done.
Qed.

Lemma game_init_status sprite : status_inv (game_init sprite).
Proof. unfold status_inv. simpl. split_and!; done. Qed.

Lemma reachable_status sprite g : reachable sprite g → status_inv g.
Proof.
  induction 1 as [|keys g g' Hreach IH Hframe].
  - apply game_init_status.
  - eapply frame_status; [|exact IH|exact Hframe].
    by apply (reachable_inv sprite).
Qed.

(** X1: between the frames of a session, a game that is not over has a
    player with health above 0, only aliens that are alive with their
    lower edge above the danger line, and the reason text "YOU DIED"
    still unused; a game that is over has health 0, or 30 when a heart
    was collected in the last frame, and one of the two reasons; there
    are never more aliens than the level plus one; and no frame is
    played once the game is over. *)
Theorem session_status (sprite : string → bool) (g : Game) :
  reachable sprite g →
  (is_game_over g = false →
     0 < health (player g) ≤ 100
     ∧ Forall (λ a : Spaceship,
                 is_killed a = false
                 ∧ ∀ r, placeholder a = Some r →
                        rect_y r + height a < SCREEN_H - 120)
         (alien_list g))
  ∧ (is_game_over g = true →
       (health (player g) = 0 ∨ health (player g) = 30)
       ∧ (game_over_text g = "YOU DIED"%string
          ∨ game_over_text g = "ALIENS REACHED YOU"%string)
       ∧ ∀ keys g', ¬ outcome (frame sprite keys g) g')
  ∧ Z.of_nat (length (alien_list g)) ≤ level g + 1.
Proof.
  intros Hreach.
  pose proof (reachable_inv _ _ Hreach) as (Hh & _).
  pose proof (reachable_status _ _ Hreach) as (Hplay & Hover & Hlen & _).
  split_and!; try done.
  - intros Hnot. destruct (Hplay Hnot) as (Hpos & Hall & _).
    split; [lia|exact Hall].
  - intros Hyes. destruct (Hover Hyes) as [Hz Ht]. split_and!; try done.
    intros keys g' Hout. apply frame_steps in Hout as (Hnot & _). congruence.
Qed.

Lemma session_status_witness : 0 < health (player sample_state) ≤ 100.
Proof.
  exact (proj1 (proj1 (session_status all_sprites sample_state
                         sample_state_reachable) eq_refl)).
Defined.

(** ** The player's ship *)

(** The player's branch of [Spaceship.move]. *)
Lemma player_move_spec (p : Spaceship) (r : Rect)
    (direction screen_w screen_h : Z) :
  is_player p = true →
  placeholder p = Some r →
  width p ≤ screen_w →
  ∃ p' r',
    Spaceship_move p direction screen_w screen_h = Some p'
    ∧ placeholder p' = Some r'
    ∧ (0 <= x_pos p')%Q
    ∧ (x_pos p' + inject_Z (width p') <= inject_Z screen_w)%Q
    ∧ rect_x r' = to_int (x_pos p') ∧ rect_y r' = rect_y r
    ∧ y_pos p' = y_pos p ∧ width p' = width p ∧ height p' = height p
    ∧ is_killed p' = is_killed p ∧ health p' = health p
    ∧ bullet p' = bullet p
    ∧ (let x := (x_pos p + speed p * inject_Z direction)%Q in
       ((x <= 0)%Q → x_pos p' = 0%Q)
       ∧ ((0 < x)%Q → (inject_Z screen_w <= x + inject_Z (width p))%Q →
          x_pos p' = inject_Z (screen_w - width p))
       ∧ ((0 < x)%Q → (x + inject_Z (width p) < inject_Z screen_w)%Q →
          x_pos p' = x)).
Proof.
  intros Hp Hr Hw. unfold Spaceship_move. rewrite Hp, Hr.
  cbn [mbind option_bind]. eexists _, _. split; [reflexivity|].
  split; [reflexivity|]. cbn.
  set (x := (x_pos p + speed p * inject_Z direction)%Q).
  assert (inject_Z (screen_w - width p) + inject_Z (width p)
          == inject_Z screen_w)%Q as Hsum.
  { unfold Z.sub. rewrite inject_Z_plus, inject_Z_opp. ring. }
  assert (0 <= inject_Z (screen_w - width p))%Q as Hnn.
  { change 0%Q with (inject_Z 0). rewrite <- Zle_Qle. lia. }
  destruct (Qle_bool x 0) eqn:H0.
  - apply Qle_bool_iff in H0. split_and!; try done.
    + rewrite Qplus_0_l. rewrite <- Zle_Qle. done.
    + intros Hpos. by apply Qlt_not_le in Hpos.
    + intros Hpos. by apply Qlt_not_le in Hpos.
  - assert (0 < x)%Q as Hpos.
    { apply Qnot_le_lt. intros H. apply Qle_bool_iff in H. congruence. }
    destruct (Qle_bool (inject_Z screen_w) (x + inject_Z (width p))) eqn:H1.
    + apply Qle_bool_iff in H1. split_and!; try done.
      * rewrite Hsum. apply Qle_refl.
      * intros Hx. by apply Qlt_not_le in Hpos.
      * intros _ Hlt. by apply Qlt_not_le in Hlt.
    + assert (x + inject_Z (width p) < inject_Z screen_w)%Q as Hlt.
      { apply Qnot_le_lt. intros H. apply Qle_bool_iff in H. congruence. }
      split_and!; try done.
      * by apply Qlt_le_weak.
      * by apply Qlt_le_weak.
      * intros Hx. by apply Qlt_not_le in Hpos.
      * intros _ Hge. by apply Qlt_not_le in Hlt.
Qed.

(** X2: a move of the player's ship keeps it between the left edge and
    [screen_w - width] when it fits the screen: it goes by
    [speed * direction] where that stays strictly inside, and is put at
    the edge it would reach or cross; the rectangle follows with the
    position rounded to the nearest integer, a half away from zero,
    which lies between the same bounds; nothing else of the ship
    changes. *)
Theorem player_move_clamped (p : Spaceship) (r : Rect)
    (direction screen_w screen_h : Z) :
  is_player p = true →
  placeholder p = Some r →
  width p ≤ screen_w →
  ∃ p' r',
    Spaceship_move p direction screen_w screen_h = Some p'
    ∧ placeholder p' = Some r'
    ∧ (0 <= x_pos p')%Q
    ∧ (x_pos p' + inject_Z (width p') <= inject_Z screen_w)%Q
    ∧ rect_x r' = to_int (x_pos p')
    ∧ (inject_Z (rect_x r') - (1 # 2) <= x_pos p')%Q
    ∧ (x_pos p' <= inject_Z (rect_x r') + (1 # 2))%Q
    ∧ 0 ≤ rect_x r' ∧ rect_x r' + width p' ≤ screen_w
    ∧ rect_y r' = rect_y r
    ∧ y_pos p' = y_pos p ∧ width p' = width p ∧ height p' = height p
    ∧ is_killed p' = is_killed p ∧ health p' = health p
    ∧ bullet p' = bullet p
    ∧ (let x := (x_pos p + speed p * inject_Z direction)%Q in
       ((x <= 0)%Q → x_pos p' = 0%Q)
       ∧ ((0 < x)%Q → (inject_Z screen_w <= x + inject_Z (width p))%Q →
          x_pos p' = inject_Z (screen_w - width p))
       ∧ ((0 < x)%Q → (x + inject_Z (width p) < inject_Z screen_w)%Q →
          x_pos p' = x)).
Proof.
  intros Hp Hr Hw.
  destruct (player_move_spec p r direction screen_w screen_h Hp Hr Hw)
    as (p' & r' & Hmove & Hr' & Hx0 & Hx1 & Hrx & Hry & Hrest).
  exists p', r'.
  destruct (to_int_near (x_pos p')) as [Hlo Hhi].
  assert (0 ≤ rect_x r') as Hr0.
  { rewrite Hrx. by apply to_int_ge_int. }
  assert (rect_x r' + width p' ≤ screen_w) as Hr1.
  { rewrite Hrx.
    assert (to_int (x_pos p') ≤ screen_w - width p'); [|lia].
    apply to_int_le_int. unfold Z.sub.
    rewrite inject_Z_plus, inject_Z_opp. lra. }
  rewrite <- Hrx in Hlo, Hhi.
  repeat (split; [assumption|]). exact Hrest.
Qed.

Lemma player_move_clamped_witness :
  ∃ p', Spaceship_move (player sample_state) (-1) SCREEN_W SCREEN_H = Some p'
        ∧ (0 <= x_pos p')%Q.
Proof.
  destruct (player_move_clamped (player sample_state)
              {| rect_x := 285; rect_y := 715; rect_w := 130; rect_h := 130 |}
              (-1) SCREEN_W SCREEN_H eq_refl eq_refl)
    as (p' & r' & Hmove & _ & Hx & _).
  - vm_compute. discriminate.
  - exists p'. split; [exact Hmove|exact Hx].
Defined.

(** ** The player's ship in a session *)

Lemma same_ship_refl p : same_ship p p.
Proof. by unfold same_ship. Qed.

Lemma same_ship_trans p q r : same_ship p q → same_ship q r → same_ship p r.
Proof. unfold same_ship. intros (?&?&?&?&?) (?&?&?&?&?). split_and!; congruence. Qed.

Lemma take_damage_same p dmg : same_ship p (take_damage p dmg).
Proof. unfold take_damage. simpl. by destruct (_ <? _). Qed.

Lemma heal_same p amount : same_ship p (heal p amount).
Proof. unfold heal. simpl. by destruct (_ <? _). Qed.

Lemma set_bullet_same p b : same_ship p (set_bullet p b).
Proof. done. Qed.

Lemma shoot_same p p' : shoot p = Some p' → same_ship p p'.
Proof. unfold shoot. intros (r & Hr & [= <-])%bind_Some. done. Qed.

Lemma player_controls_steer keys p p' :
  player_controls keys p = Some p' →
  ∃ p2, steer keys p = Some p2 ∧ same_ship p2 p'
        ∧ health p' = health p2
        ∧ bullet p2 = bullet p.
Proof.
  unfold player_controls, steer.
  intros (p1 & H1 & (p2 & H2 & H3)%bind_Some)%bind_Some.
  exists p2. rewrite H1. cbn [mbind option_bind]. split; [done|].
  assert (bullet p1 = bullet p) as Hb1.
  { destruct (K_LEFT keys); [|by injection H1 as <-].
    apply Spaceship_move_keeps in H1. tauto. }
  assert (bullet p2 = bullet p1) as Hb2.
  { destruct (K_RIGHT keys); [|by injection H2 as <-].
    apply Spaceship_move_keeps in H2. tauto. }
  destruct (_ && _).
  - split; [by apply shoot_same|]. apply shoot_keeps in H3. split; [tauto|].
    congruence.
  - injection H3 as <-. split; [apply same_ship_refl|]. split; [done|].
    congruence.
Qed.

Lemma alien_turn_same i a g g' stop :
  alien_turn i a g = Some (g', stop) → same_ship (player g) (player g').
Proof.
  intros Hturn. apply alien_turn_cases in Hturn
    as [(_ & -> & _)|[(_ & a1 & _ & _ & -> & _)|Hplay]].
  - apply same_ship_refl.
  - done.
  - destruct Hplay as (_ & a1 & a2 & hit & struck & _ & _ & _ & _ & _
                       & -> & _).
    destruct hit, struck; cbn zeta;
      first [apply same_ship_refl | apply set_bullet_same
            | apply take_damage_same
            | eapply same_ship_trans; [|apply take_damage_same]; done].
Qed.

Lemma heart_section_same sprite g g' :
  heart_section sprite g = Some g' → same_ship (player g) (player g').
Proof.
  intros H. apply heart_section_keeps in H as (_ & _ & _ & _ & _ & Hp & _).
  destruct Hp as [->|(h & -> & _)]; [apply same_ship_refl|].
  eapply same_ship_trans; [apply heal_same|done].
Qed.

Lemma frame_player_same sprite keys g g' :
  outcome (frame sprite keys g) g' →
  ∃ p2, steer keys (player g) = Some p2 ∧ same_ship p2 (player g').
Proof.
  intros (_ & p & aliens & g2 & Hp & _ & Hloop & Hheart)%frame_steps.
  apply player_controls_steer in Hp as (p2 & Hsteer & Hsame & _).
  set (g1 := set_player _ _) in Hloop.
  assert (same_ship p2 (player g2)) as H2.
  { refine (alien_loop_keeps (λ h, same_ship p2 (player h)) _ _ _ _ _ _ Hloop).
    - intros i a h h' stop Hh _ Hturn.
      eapply same_ship_trans; [exact Hh|by eapply alien_turn_same].
    - exact Hsame. }
  apply heart_section_same in Hheart.
  exists p2. split; [done|]. by eapply same_ship_trans.
Qed.

(** X3: nothing but the arrow keys moves the player's ship in a frame:
    the ship after the frame is the one that [move(-1)] for the left key
    and then [move(1)] for the right key give, up to its health and its
    bullet; with neither key it is where it was. *)
Theorem frame_moves_player (sprite : string → bool) (keys : Keys)
    (g g' : Game) :
  outcome (frame sprite keys g) g' →
  ∃ p2, steer keys (player g) = Some p2
        ∧ same_ship p2 (player g')
        ∧ (K_LEFT keys = false → K_RIGHT keys = false →
           ship_entity (player g') = ship_entity (player g)).
Proof.
  intros (p2 & Hsteer & Hsame)%frame_player_same.
  exists p2. split_and!; try done.
  intros Hl Hr. unfold steer in Hsteer. rewrite Hl, Hr in Hsteer.
  injection Hsteer as <-. apply Hsame.
Qed.

Lemma frame_moves_player_witness :
  ship_entity (player sample_state_2) = ship_entity (player sample_state).
Proof.
  destruct (frame_moves_player all_sprites no_keys sample_state sample_state_2
              sample_state_2_outcome) as (p2 & _ & _ & Hsame).
  by apply Hsame.
Defined.

Lemma clamp_bounds (x : Q) (w screen_w : Z) :
  w ≤ screen_w →
  let x' := if Qle_bool x 0 then 0%Q
            else if Qle_bool (inject_Z screen_w) (x + inject_Z w)
                 then inject_Z (screen_w - w) else x in
  (0 <= x')%Q ∧ (x' + inject_Z w <= inject_Z screen_w)%Q.
Proof.
  intros Hw. cbn zeta.
  assert (inject_Z (screen_w - w) + inject_Z w == inject_Z screen_w)%Q as Hsum.
  { unfold Z.sub. rewrite inject_Z_plus, inject_Z_opp. ring. }
  assert (0 <= inject_Z (screen_w - w))%Q as Hnn.
  { change 0%Q with (inject_Z 0). rewrite <- Zle_Qle. lia. }
  destruct (Qle_bool x 0) eqn:H0.
  - split; [apply Qle_refl|]. rewrite Qplus_0_l. by rewrite <- Zle_Qle.
  - assert (0 < x)%Q as Hpos.
    { apply Qnot_le_lt. intros H. apply Qle_bool_iff in H. congruence. }
    destruct (Qle_bool (inject_Z screen_w) (x + inject_Z w)) eqn:H1.
    + split; [done|]. rewrite Hsum. apply Qle_refl.
    + split; [by apply Qlt_le_weak|]. apply Qlt_le_weak, Qnot_le_lt.
      intros H. apply Qle_bool_iff in H. congruence.
Qed.

Lemma player_move_on_screen p direction p' :
  on_screen p →
  Spaceship_move p direction SCREEN_W SCREEN_H = Some p' →
  on_screen p'.
Proof.
  intros (Hpl & Hk & Hw & Hh & Hs & Hy & Hx0 & Hx1 & Hr) Hmove.
  unfold Spaceship_move in Hmove. rewrite Hpl in Hmove.
  apply bind_Some in Hmove as (r & Hpr & [= <-]).
  assert (width p ≤ SCREEN_W) as Hfit by (by rewrite Hw).
  pose proof (clamp_bounds (x_pos p + speed p * inject_Z direction)
                (width p) SCREEN_W Hfit) as [Hq0 Hq1].
  cbn zeta in Hq0, Hq1.
  set (x' := if Qle_bool _ 0 then _ else _) in *.
  unfold on_screen. simpl. split_and!; try done.
  intros r0 [= <-]. simpl.
  destruct (Hr r Hpr) as (_ & Hry0 & _).
  pose proof (proj1 (to_int_bounds x') Hq0) as Hlo.
  assert (to_int x' ≤ SCREEN_W - width p) as Htrunc.
  { apply to_int_le_int. unfold Z.sub.
    rewrite inject_Z_plus, inject_Z_opp. lra. }
  split_and!; try done. lia.
Qed.

Lemma same_ship_on_screen p p' : same_ship p p' → on_screen p → on_screen p'.
Proof.
  intros (He & Hk & Hp & _). unfold on_screen. by rewrite He, Hk, Hp.
Qed.

Lemma steer_on_screen keys p p' :
  on_screen p → steer keys p = Some p' → on_screen p'.
Proof.
  unfold steer. intros Hon (p1 & H1 & H2)%bind_Some.
  assert (on_screen p1) as Hon1.
  { destruct (K_LEFT keys); [|by injection H1 as <-].
    by eapply player_move_on_screen. }
  destruct (K_RIGHT keys); [|by injection H2 as <-].
  by eapply player_move_on_screen.
Qed.

Lemma game_init_on_screen sprite : on_screen (player (game_init sprite)).
Proof.
  unfold on_screen, game_init, Spaceship_init, Entity_init, check_imagePath.
  cbn [player ship_entity is_player is_killed].
  destruct (_ && _); simpl; split_and!; try done.
  intros r [= <-]. by vm_compute.
Qed.

(** X4: in every state of a session the player's ship is alive, of the
    size 130 x 130 and the speed 10 it was created with, at the height it
    was created at, and between the left and the right edge of the
    screen: [0 <= x_pos] and [x_pos + width <= SCREEN_W]; its rectangle,
    when the sprite was loaded, is at [x_pos] rounded to the nearest
    integer, at height 715 and inside the screen as well. *)
Theorem player_stays_on_screen (sprite : string → bool) (g : Game) :
  reachable sprite g → on_screen (player g).
Proof.
  induction 1 as [|keys g g' _ IH Hframe].
  - apply game_init_on_screen.
  - apply frame_player_same in Hframe as (p2 & Hsteer & Hsame).
    eapply same_ship_on_screen; [exact Hsame|].
    by eapply steer_on_screen.
Qed.

Lemma player_stays_on_screen_witness : on_screen (player sample_state).
Proof.
  exact (player_stays_on_screen all_sprites sample_state
           sample_state_reachable).
Defined.

(** ** The player's bullet and the health pickup *)

(** The four ways of the health pickup in a frame. *)
Lemma heart_section_cases sprite g g' :
  heart_section sprite g = Some g' →
  (score g < goal g ∧ g' = g)
  ∨ (goal g ≤ score g ∧ is_claimed (heart g) = true
     ∧ g' = set_heart g (get_heart sprite))
  ∨ (goal g ≤ score g ∧ is_claimed (heart g) = false
     ∧ ∃ h, Heart_move (heart g) 1 SCREEN_W SCREEN_H = Some h
       ∧ check_collisions (bullet (player g)) (x_pos h) (y_pos h)
           (width h) (height h) = false
       ∧ g' = set_heart g h)
  ∨ (goal g ≤ score g ∧ is_claimed (heart g) = false
     ∧ ∃ h, Heart_move (heart g) 1 SCREEN_W SCREEN_H = Some h
       ∧ check_collisions (bullet (player g)) (x_pos h) (y_pos h)
           (width h) (height h) = true
       ∧ g' = set_goal
                (set_player (set_heart g (set_is_claimed h true))
                   (set_bullet (heal (player g) (restore_amount h))
                      (reset_bullets (bullet (player g)))))
                (goal g + 10)).
Proof.
  unfold heart_section. intros H.
  destruct (Z.leb_spec (goal g) (score g)); [|by injection H as <-; left].
  right. destruct (is_claimed (heart g)) eqn:Hc; cbn [negb] in H.
  { injection H as <-. by left. }
  right. apply bind_Some in H as (h & Hmove & H).
  destruct (check_collisions _ _ _ _ _) eqn:Hhit; injection H as <-.
  - right. split_and!; try done. exists h. split_and!; try done.
    by rewrite (proj1 (proj2 (heal_spec _ _))).
  - left. split_and!; try done. by exists h.
Qed.

Lemma check_collisions_fired b x y w h :
  check_collisions b x y w h = true → is_fired b = true.
Proof.
  unfold check_collisions.
  by intros [[Hf _]%andb_true_iff _]%andb_true_iff.
Qed.

Lemma reset_bullets_idle b : is_fired (reset_bullets b) = false.
Proof. done. Qed.

(** What a turn does with the player's bullet. *)
Lemma alien_turn_bullet i a g g' stop :
  alien_turn i a g = Some (g', stop) →
  goal g' = goal g ∧ heart g' = heart g
  ∧ ((bullet (player g') = bullet (player g) ∧ score g' = score g)
     ∨ (is_fired (bullet (player g)) = true
        ∧ bullet (player g') = reset_bullets (bullet (player g))
        ∧ score g' = score g + 1)).
Proof.
  intros Hturn. apply alien_turn_cases in Hturn
    as [(_ & -> & _)|[(_ & a1 & _ & _ & -> & _)|Hplay]].
  - split_and!; try done. by left.
  - split_and!; try done. by left.
  - destruct Hplay as (_ & a1 & a2 & hit & struck & _ & _ & _ & Hhit & _
                       & Hp & Hs & _ & _ & Hh & Hg & _).
    rewrite Hp, Hs, Hh, Hg. split_and!; try done.
    destruct hit.
    + right. symmetry in Hhit. apply check_collisions_fired in Hhit.
      split_and!; try done.
      destruct struck; cbn zeta;
        rewrite ?(proj1 (proj2 (take_damage_spec _ _))); done.
    + left. rewrite Z.add_0_r. split; [|done].
      destruct struck; cbn zeta;
        rewrite ?(proj1 (proj2 (take_damage_spec _ _))); done.
Qed.

(** The player's bullet and the score through the loop over the
    aliens. *)
Lemma alien_loop_bullet fuel i g g' :
  alien_loop fuel i g = Some g' →
  goal g' = goal g ∧ heart g' = heart g
  ∧ ((bullet (player g') = bullet (player g) ∧ score g' = score g)
     ∨ (is_fired (bullet (player g)) = true
        ∧ bullet (player g') = reset_bullets (bullet (player g))
        ∧ score g' = score g + 1)).
Proof.
  intros Hloop.
  refine (alien_loop_keeps (λ h,
    goal h = goal g ∧ heart h = heart g
    ∧ ((bullet (player h) = bullet (player g) ∧ score h = score g)
       ∨ (is_fired (bullet (player g)) = true
          ∧ bullet (player h) = reset_bullets (bullet (player g))
          ∧ score h = score g + 1))) _ _ _ _ _ _ Hloop).
  - intros j a h h' stop (Hg & Hh & Hb) _ Hturn.
    apply alien_turn_bullet in Hturn as (Hg' & Hh' & Hb').
    rewrite Hg', Hh', Hg, Hh. split_and!; try done.
    destruct Hb as [[Hb Hs]|(Hf & Hb & Hs)].
    + rewrite Hb, Hs in Hb'. destruct Hb' as [[-> ->]|(? & -> & ->)];
        [by left|by right].
    + rewrite Hb, Hs in Hb'. destruct Hb' as [[-> ->]|(Hf' & _)];
        [by right|]. by rewrite reset_bullets_idle in Hf'.
  - split_and!; try done. by left.
Qed.

Lemma frame_bullet_fate sprite keys g g' :
  outcome (frame sprite keys g) g' →
  ∃ p fate,
    player_controls keys (player g) = Some p
    ∧ bullet (player g')
      = (let b1 := move_bullets (bullet p) (-1) in
         match fate with Flies => b1 | _ => reset_bullets b1 end)
    ∧ score g' = score g + (match fate with Kills => 1 | _ => 0 end)
    ∧ goal g' = goal g + (match fate with Collects => 10 | _ => 0 end)
    ∧ (fate ≠ Flies → is_fired (move_bullets (bullet p) (-1)) = true)
    ∧ (fate = Collects →
       is_claimed (heart g) = false ∧ is_claimed (heart g') = true
       ∧ goal g ≤ score g).
Proof.
  intros (_ & p & aliens & g2 & Hp & _ & Hloop & Hheart)%frame_steps.
  exists p.
  apply alien_loop_bullet in Hloop as (Hg2 & Hh2 & Hb2). simpl in Hg2, Hh2, Hb2.
  apply heart_section_cases in Hheart
    as [[_ ->]|[(_ & _ & ->)|[(_ & _ & h & _ & _ & ->)
                              |(Hgoal & Hc & h & _ & Hhit & ->)]]];
    cbn [player set_heart set_goal set_player bullet set_bullet score goal
         heart is_claimed set_is_claimed].
  1-3: destruct Hb2 as [[-> ->]|(Hf & -> & ->)];
    [exists Flies|exists Kills]; rewrite Hg2, ?Z.add_0_r;
    split_and!; try done; intros ?; done.
  apply check_collisions_fired in Hhit.
  destruct Hb2 as [[Hb Hs]|(Hf & Hb & Hs)].
  - exists Collects. rewrite Hb, Hs, Hg2, Z.add_0_r.
    rewrite Hb in Hhit. rewrite Hh2, Hs in *.
    split_and!; try done. intros _. split_and!; try done. lia.
  - rewrite Hb in Hhit. by rewrite reset_bullets_idle in Hhit.
Qed.

(** X5: in a frame the player's bullet, after the controls and its own
    move, hits at most one thing: it flies on unchanged, with score and
    goal as they were; or it kills one alien, is reset, and the score
    grows by exactly one; or it collects the heart, is reset, and the
    goal grows by exactly ten, the heart being claimed.  A bullet is
    reset only when it was in flight. *)
Theorem player_bullet_hits_once (sprite : string → bool) (keys : Keys)
    (g g' : Game) :
  outcome (frame sprite keys g) g' →
  ∃ p,
    player_controls keys (player g) = Some p
    ∧ let b1 := move_bullets (bullet p) (-1) in
      (bullet (player g') = b1 ∧ score g' = score g ∧ goal g' = goal g)
      ∨ (is_fired b1 = true ∧ bullet (player g') = reset_bullets b1
         ∧ score g' = score g + 1 ∧ goal g' = goal g)
      ∨ (is_fired b1 = true ∧ bullet (player g') = reset_bullets b1
         ∧ score g' = score g ∧ goal g' = goal g + 10
         ∧ is_claimed (heart g') = true).
Proof.
  intros (p & fate & Hp & Hb & Hs & Hg & Hf & Hc)%frame_bullet_fate.
  exists p. split; [done|]. cbn zeta in *.
  destruct fate; rewrite ?Z.add_0_r in *.
  - by left.
  - right. left. split_and!; try done. by apply Hf.
  - right. right. split_and!; try done; [by apply Hf|by apply Hc].
Qed.

Lemma player_bullet_hits_once_witness :
  ∃ p, player_controls no_keys (player sample_state) = Some p.
Proof.
  destruct (player_bullet_hits_once all_sprites no_keys sample_state
              sample_state_2 sample_state_2_outcome) as (p & Hp & _).
  by exists p.
Defined.

Lemma Heart_move_spec h h' :
  Heart_move h 1 SCREEN_W SCREEN_H = Some h' →
  speed h' = speed h ∧ restore_amount h' = restore_amount h
  ∧ width h' = width h ∧ height h' = height h ∧ x_pos h' = x_pos h
  ∧ y_pos h' = (y_pos h + speed h * 1)%Q
  ∧ (is_claimed h' = false →
     ∀ r, placeholder h' = Some r → rect_y r < SCREEN_H + height h).
Proof.
  unfold Heart_move. intros (r & Hr & H)%bind_Some.
  destruct (Z.leb_spec (SCREEN_H + height
              (set_heart_entity h
                 (set_placeholder (set_y_pos h (y_pos h + speed h * inject_Z 1))
                    (set_rect_y r (y_pos h + speed h * inject_Z 1)))))
              (rect_y (set_rect_y r (y_pos h + speed h * inject_Z 1))))
    as [Hout|Hin]; injection H as <-; simpl in *; split_and!; try done.
  intros _ r' [= <-]. exact Hin.
Qed.

Lemma get_heart_inv sprite g :
  0 < goal g → goal g mod 10 = 0 →
  heart_inv sprite (set_heart g (get_heart sprite)).
Proof.
  intros Hg Hm. unfold heart_inv, get_heart, Heart_init, Entity_init,
    check_imagePath.
  cbn [heart set_heart heart_entity restore_amount is_claimed goal].
  destruct (_ && _); simpl; split_and!; try done.
  intros _ r [= <-]. by vm_compute.
Qed.

Lemma heart_section_heart sprite g g' :
  heart_inv sprite g → heart_section sprite g = Some g' → heart_inv sprite g'.
Proof.
  intros (Hs & Hr & Hw & Hh & Hx & Hy & Hg & Hm) Hsec.
  apply heart_section_cases in Hsec
    as [[_ ->]|[(_ & _ & ->)|[(_ & _ & h & Hmove & _ & ->)
                              |(_ & _ & h & Hmove & _ & ->)]]].
  - done.
  - by apply get_heart_inv.
  - apply Heart_move_spec in Hmove as (Hs' & Hr' & Hw' & Hh' & Hx' & _ & Hy').
    unfold heart_inv. simpl. rewrite Hs', Hr', Hw', Hh', Hx'.
    split_and!; try done. rewrite <- Hh. exact Hy'.
  - apply Heart_move_spec in Hmove as (Hs' & Hr' & Hw' & Hh' & Hx' & _ & Hy').
    unfold heart_inv. simpl. rewrite Hs', Hr', Hw', Hh', Hx'.
    split_and!; try done; [lia|].
    rewrite <- Z.add_mod_idemp_l by done. by rewrite Hm.
Qed.

Lemma frame_heart_inv sprite keys g g' :
  heart_inv sprite g → outcome (frame sprite keys g) g' → heart_inv sprite g'.
Proof.
  intros Hinv (_ & p & aliens & g2 & _ & _ & Hloop & Hheart)%frame_steps.
  apply alien_loop_bullet in Hloop as (Hg2 & Hh2 & _). simpl in Hg2, Hh2.
  eapply heart_section_heart; [|exact Hheart].
  unfold heart_inv. by rewrite Hg2, Hh2.
Qed.

Lemma reachable_heart sprite g : reachable sprite g → heart_inv sprite g.
Proof.
  induction 1 as [|keys g g' _ IH Hframe].
  - by apply (get_heart_inv sprite (game_init sprite)).
  - by eapply frame_heart_inv.
Qed.

(** X6: the health pickup of a session is the heart of [get_heart]: it
    restores 30, is 80 wide and high, falls with speed 1 in a fixed
    column, and as long as it is not claimed its rectangle is above the
    line [SCREEN_H + 80]; the goal is a positive multiple of 10.  In a
    frame the heart rests while the score is below the goal; once the
    score has reached the goal, a claimed heart is replaced by a new one
    and an unclaimed one falls by one pixel. *)
Theorem heart_falls_when_due (sprite : string → bool) (keys : Keys)
    (g g' : Game) :
  reachable sprite g →
  outcome (frame sprite keys g) g' →
  heart_inv sprite g
  ∧ (score g' < goal g → heart g' = heart g ∧ goal g' = goal g)
  ∧ (goal g ≤ score g' → is_claimed (heart g) = true →
     heart g' = get_heart sprite ∧ goal g' = goal g)
  ∧ (goal g ≤ score g' → is_claimed (heart g) = false →
     (y_pos (heart g') == y_pos (heart g) + 1)%Q
     ∧ x_pos (heart g') = x_pos (heart g)
     ∧ (goal g' = goal g ∨ goal g' = goal g + 10 ∧ is_claimed (heart g') = true)).
Proof.
  intros Hreach Hframe.
  pose proof (reachable_heart _ _ Hreach) as Hinv.
  split; [exact Hinv|].
  destruct Hinv as (Hs & _).
  apply frame_steps in Hframe as (_ & p & aliens & g2 & _ & _ & Hloop & Hheart).
  apply alien_loop_bullet in Hloop as (Hg2 & Hh2 & _). simpl in Hg2, Hh2.
  pose proof (heart_section_keeps _ _ _ Hheart) as (Hs' & _).
  rewrite Hs'. rewrite <- Hg2, <- Hh2.
  apply heart_section_cases in Hheart
    as [[Hlt ->]|[(Hge & Hc & ->)|[(Hge & Hc & h & Hmove & _ & ->)
                                  |(Hge & Hc & h & Hmove & _ & ->)]]];
    simpl; split_and!; try done; try lia; try congruence.
  - intros _ _. apply Heart_move_spec in Hmove as (_ & _ & _ & _ & Hx & Hy & _).
    rewrite Hy, Hx, Hh2, Hs. split_and!; try done; try ring. by left.
  - intros _ _. apply Heart_move_spec in Hmove as (_ & _ & _ & _ & Hx & Hy & _).
    rewrite Hy, Hx, Hh2, Hs. split_and!; try done; try ring. by right.
Qed.

Lemma heart_falls_when_due_witness : heart_inv all_sprites sample_state.
Proof.
  exact (proj1 (heart_falls_when_due all_sprites no_keys sample_state
                  sample_state_2 sample_state_reachable
                  sample_state_2_outcome)).
Defined.

(** A turn never lifts the player's health. *)
Lemma alien_turn_health i a g g' stop :
  game_inv g →
  alien_list g !! i = Some a →
  alien_turn i a g = Some (g', stop) →
  health (player g') ≤ health (player g).
Proof.
  intros (Hh & _ & Hall & _) Hi Hturn.
  pose proof (Forall_lookup_1 _ _ _ _ Hall Hi) as [Hdmg _].
  apply alien_turn_cases in Hturn
    as [(_ & -> & _)|[(_ & a1 & _ & _ & -> & _)|Hplay]].
  - done.
  - simpl. lia.
  - destruct Hplay as (_ & a1 & a2 & hit & struck & Hmove & _ & Hfire & _ & _
                       & -> & _).
    apply Spaceship_move_keeps in Hmove as (_ & Hb1 & _).
    apply alien_fire_keeps in Hfire as (_ & _ & _ & Hd2 & _).
    rewrite Hb1 in Hd2.
    destruct hit, struck; cbn zeta;
      rewrite ?(proj1 (take_damage_spec _ _)); simpl; lia.
Qed.

(** X7: in a frame of a session the player's health rises only by
    collecting the heart: either the goal stays and the health does not
    rise, or the goal grows by ten, the score having reached it, and the
    health is at least 30 and at most 100 afterwards. *)
Theorem health_rises_only_by_heart (sprite : string → bool) (keys : Keys)
    (g g' : Game) :
  reachable sprite g →
  outcome (frame sprite keys g) g' →
  (goal g' = goal g ∧ health (player g') ≤ health (player g))
  ∨ (goal g' = goal g + 10 ∧ goal g ≤ score g'
     ∧ 30 ≤ health (player g') ≤ 100
     ∧ health (player g') ≤ health (player g) + 30).
Proof.
  intros Hreach Hframe.
  pose proof (reachable_inv _ _ Hreach) as Hinv.
  pose proof (reachable_heart _ _ Hreach) as (_ & Hrest & _).
  pose proof (frame_inv _ _ _ _ Hinv Hframe) as (Hh' & _).
  apply frame_steps in Hframe as (_ & p & aliens & g2 & Hp & Ha & Hloop & Hheart).
  set (g1 := set_player _ _) in Hloop.
  assert (game_inv g1) as Hinv1.
  { destruct Hinv as (Hh & Hb & Hall' & Hr & Hs & Hl).
    pose proof (player_controls_keeps _ _ _ Hp) as (Hhp & _ & Hbp).
    unfold game_inv, g1. simpl.
    refine (conj _ (conj _ (conj _ (conj _ (conj _ _))))); try done.
    - lia.
    - apply move_bullets_ok, Hbp. by apply bullet_ok_unfired_out.
    - destruct (_ <? _); [|by subst].
      apply load_aliens_outcome in Ha as (a & b & -> & Ha & Hb').
      apply Forall_app. split; [done|].
      constructor; [done|]. constructor; [done|]. constructor. }
  assert (game_inv g2 ∧ health (player g2) ≤ health (player g1)) as [Hinv2 Hle].
  { refine (alien_loop_keeps
              (λ h, game_inv h ∧ health (player h) ≤ health (player g1))
              _ _ _ _ _ _ Hloop).
    - intros i a h h' stop [Hi1 Hi2] Hi Hturn. split.
      + by eapply alien_turn_inv.
      + pose proof (alien_turn_health _ _ _ _ _ Hi1 Hi Hturn). lia.
    - split; [done|lia]. }
  pose proof (alien_loop_bullet _ _ _ _ Hloop) as (Hg2 & Hh2 & _).
  apply player_controls_keeps in Hp as (Hhp & _).
  assert (health (player g1) = health (player g)) as Hh1 by done.
  change (goal g1) with (goal g) in Hg2. change (heart g1) with (heart g) in Hh2.
  destruct Hinv2 as (Hpos2 & _).
  pose proof (heart_section_keeps _ _ _ Hheart) as (Hs' & _).
  apply heart_section_cases in Hheart
    as [[Hlt ->]|[(Hge & Hc & ->)|[(Hge & Hc & h & Hmove & _ & ->)
                                  |(Hge & Hc & h & Hmove & _ & ->)]]];
    [left; simpl; split; lia ..|].
  right. apply Heart_move_spec in Hmove as (_ & Hr' & _).
  simpl in Hs' |- *. rewrite (proj1 (heal_spec _ _)), Hr', Hh2, Hrest.
  split_and!; lia.
Qed.

Lemma health_rises_only_by_heart_witness :
  health (player sample_state_2) ≤ 100.
Proof.
  destruct (health_rises_only_by_heart all_sprites no_keys sample_state
              sample_state_2 sample_state_reachable sample_state_2_outcome)
    as [[_ H]|(_ & _ & [_ H] & _)].
  - etransitivity; [exact H|]. vm_compute. discriminate.
  - exact H.
Defined.

(** ** Two new aliens *)

Lemma in_lane_range lane x : in_lane lane x → 1 ≤ lane ≤ 3 ∧ 75 ≤ x ≤ 625.
Proof. unfold in_lane. lia. Qed.

Lemma in_lane_apart la lb xa xb :
  in_lane la xa → in_lane lb xb → la ≠ lb → xa + 150 ≤ xb ∨ xb + 150 ≤ xa.
Proof. unfold in_lane. lia. Qed.

(** The alien of a type at a position, its sprite loaded: its size, and
    its position centred on the spawn point and just above the screen. *)
Lemma alien_of_loaded sprite t x :
  alien_sprites sprite → 1 ≤ t ≤ 3 →
  let a := alien_of sprite t x in
  ∃ w, (w = 100 ∨ w = 120 ∨ w = 150)
       ∧ width a = w ∧ height a = w
       ∧ has_image a = true
       ∧ (x_pos a == inject_Z x - inject_Z w / 2)%Q
       ∧ (y_pos a == - inject_Z w - inject_Z w / 2)%Q
       ∧ placeholder a
         = Some {| rect_x := x - w / 2; rect_y := - w - w / 2;
                   rect_w := w; rect_h := w |}
       ∧ is_player a = false ∧ is_killed a = false ∧ health a = 1.
Proof.
  intros (Hs & Hm & Hb) Ht. cbn zeta.
  assert (to_int (inject_Z x) = x) as Hx.
  { apply to_int_inject_Z. }
  assert (t = 1 ∨ t = 2 ∨ t = 3) as [->|[->| ->]] by lia;
    unfold alien_of, Spaceship_init, Entity_init, check_imagePath;
    cbn [decide decide_rel Z.eq_dec]; simpl; rewrite ?Hs, ?Hm, ?Hb; simpl;
    rewrite Hx.
  - exists 100. split_and!; try done; auto.
  - exists 120. split_and!; try done; auto.
  - exists 150. split_and!; try done; auto.
Qed.

Lemma load_aliens_lanes sprite l l' :
  outcome (load_aliens sprite l) l' →
  ∃ ta la xa tb lb xb,
    1 ≤ ta ≤ 3 ∧ 1 ≤ tb ≤ 3
    ∧ in_lane la xa ∧ in_lane lb xb ∧ la ≠ lb
    ∧ l' = l ++ [alien_of sprite ta xa; alien_of sprite tb xb].
Proof.
  intros (ta & ra & xa & da & tb & rb & xb & db & Hta & Hra & Htb & Hrb
          & Hda & Hxa & Hdb & Hxb & ->)%load_aliens_appends.
  apply spawn_fresh_outcome in Hda as (xa' & Hla & ->); [|done|done].
  rewrite lookup_insert_eq in Hxa. injection Hxa as ->.
  apply (spawn_again_outcome 0 _ _ ra) in Hdb
    as (lb & xb' & _ & Hxb' & _ & Hne & Hlb); [| |done].
  2:{ rewrite lookup_insert_ne by done. apply lookup_insert_eq. }
  rewrite Hxb in Hxb'. injection Hxb' as <-.
  exists ta, ra, xa, tb, lb, xb. split_and!; (lia || done).
Qed.

(** X8: [load_aliens] appends exactly two aliens, each of one of the
    three types, at positions of two different lanes; with the sprites of
    the aliens loaded, both lie with their whole width on the screen,
    their extents are apart from each other, and both start above the
    screen, alive. *)
Theorem load_aliens_two_lanes (sprite : string → bool)
    (l l' : list Spaceship) :
  outcome (load_aliens sprite l) l' →
  ∃ ta la xa tb lb xb,
    1 ≤ ta ≤ 3 ∧ 1 ≤ tb ≤ 3
    ∧ in_lane la xa ∧ in_lane lb xb ∧ la ≠ lb
    ∧ l' = l ++ [alien_of sprite ta xa; alien_of sprite tb xb]
    ∧ (alien_sprites sprite →
       let a := alien_of sprite ta xa in
       let b := alien_of sprite tb xb in
       fits_screen a ∧ fits_screen b ∧ apart a b
       ∧ (y_pos a + inject_Z (height a) < 0)%Q
       ∧ (y_pos b + inject_Z (height b) < 0)%Q
       ∧ is_killed a = false ∧ is_killed b = false).
Proof.
  intros (ta & la & xa & tb & lb & xb & Hta & Htb & Hla & Hlb & Hne & ->)
    %load_aliens_lanes.
  exists ta, la, xa, tb, lb, xb. split_and!; try done; try lia.
  intros Hsp. cbn zeta.
  destruct (alien_of_loaded sprite ta xa Hsp Hta)
    as (wa & Hwa & Hw1 & Hh1 & _ & Hx1 & Hy1 & _ & _ & Hk1 & _).
  destruct (alien_of_loaded sprite tb xb Hsp Htb)
    as (wb & Hwb & Hw2 & Hh2 & _ & Hx2 & Hy2 & _ & _ & Hk2 & _).
  pose proof (in_lane_range _ _ Hla) as [_ Hra].
  pose proof (in_lane_range _ _ Hlb) as [_ Hrb].
  pose proof (in_lane_apart _ _ _ _ Hla Hlb Hne) as Hap.
  unfold fits_screen, apart.
  rewrite Hw1, Hw2, Hh1, Hh2, Hx1, Hx2, Hy1, Hy2.
  assert (∀ z : Z, (inject_Z z / 2 == inject_Z z * (1 # 2))%Q) as Hhalf.
  { intros z. unfold Qdiv. by change (/ 2)%Q with (1 # 2)%Q. }
  rewrite !Hhalf. unfold SCREEN_W.
  assert (75 <= inject_Z xa)%Q as Ha1
    by (change 75%Q with (inject_Z 75); rewrite <- Zle_Qle; lia).
  assert (inject_Z xa <= 625)%Q as Ha2
    by (change 625%Q with (inject_Z 625); rewrite <- Zle_Qle; lia).
  assert (75 <= inject_Z xb)%Q as Hb1
    by (change 75%Q with (inject_Z 75); rewrite <- Zle_Qle; lia).
  assert (inject_Z xb <= 625)%Q as Hb2
    by (change 625%Q with (inject_Z 625); rewrite <- Zle_Qle; lia).
  assert (0 < inject_Z wa ∧ inject_Z wa <= 150)%Q as [Hwa1 Hwa2].
  { split; [change 0%Q with (inject_Z 0); rewrite <- Zlt_Qlt; lia|].
    change 150%Q with (inject_Z 150). rewrite <- Zle_Qle. lia. }
  assert (0 < inject_Z wb ∧ inject_Z wb <= 150)%Q as [Hwb1 Hwb2].
  { split; [change 0%Q with (inject_Z 0); rewrite <- Zlt_Qlt; lia|].
    change 150%Q with (inject_Z 150). rewrite <- Zle_Qle. lia. }
  change (inject_Z 700) with 700%Q.
  split_and!; try done; try lra.
  destruct Hap as [Hap|Hap].
  - left. assert (inject_Z xa + 150 <= inject_Z xb)%Q as Hq; [|lra].
    change 150%Q with (inject_Z 150). rewrite <- inject_Z_plus.
    by rewrite <- Zle_Qle.
  - right. assert (inject_Z xb + 150 <= inject_Z xa)%Q as Hq; [|lra].
    change 150%Q with (inject_Z 150). rewrite <- inject_Z_plus.
    by rewrite <- Zle_Qle.
Qed.

Lemma load_aliens_two_lanes_witness :
  ∃ a b, sample_aliens = [a; b] ∧ apart a b.
Proof.
  assert (outcome (load_aliens all_sprites []) sample_aliens) as Hout.
  { apply (run_outcome _ [1; 2; 350; 3; 1; 1; 600]). vm_compute. reflexivity. }
  destruct (load_aliens_two_lanes all_sprites [] _ Hout)
    as (ta & la & xa & tb & lb & xb & _ & _ & _ & _ & _ & Hl & Hsp).
  exists (alien_of all_sprites ta xa), (alien_of all_sprites tb xb).
  split; [exact Hl|]. apply Hsp. by unfold alien_sprites, all_sprites.
Defined.

(** ** The spawn state outside its ordinary use *)

Lemma spawn_fresh_outcome_iff n (d d' : gmap string Z) (r : Z) :
  d !! "previous_location"%string = Some 0 →
  1 ≤ r ≤ 3 →
  outcome (get_rand_spawn_depth (S n) d r) d'
  ↔ ∃ x, in_lane r x
         ∧ d' = <["spawn_location"%string := x]>
                  (<["previous_location"%string := r]> d).
Proof.
  intros Hd Hr. split; [by apply spawn_fresh_outcome|].
  intros (x & Hx & ->).
  destruct (spawn_fresh_shape n d r Hd Hr) as (lo & hi & Hrange & _ & ->).
  apply (outcome_randint _ _ _ x); [by apply Hrange|constructor].
Qed.

Lemma spawn_again_keys (d d' : gmap string Z) (p hint : Z) k :
  d !! "previous_location"%string = Some p →
  1 ≤ p ≤ 3 →
  outcome (get_rand_spawn d hint) d' →
  k ≠ "spawn_location"%string → k ≠ "previous_location"%string →
  d' !! k = d !! k.
Proof.
  intros Hd Hp Hout Hk1 Hk2. unfold get_rand_spawn in Hout.
  rewrite (spawn_again_shape 0 d p hint Hd Hp) in Hout.
  destruct (other_lanes_spec p Hp)
    as (l0 & l1 & Hl & H0 & H1 & _).
  rewrite Hl in Hout.
  apply outcome_Randint_inv in Hout as (v & Hv & Hk).
  assert (<["previous_location"%string := 0]> d !! "previous_location"%string
          = Some 0) as Hd0 by apply lookup_insert_eq.
  assert (∃ lane, 1 ≤ lane ≤ 3
    ∧ outcome (get_rand_spawn_depth 1
                 (<["previous_location"%string := 0]> d) lane) d')
    as (lane & Hlane & Hfresh).
  { assert (v = 0 ∨ v = 1) as [->| ->] by lia.
    - exists l0. change (Z.to_nat 0) with 0%nat in Hk.
      cbn [lookup list_lookup mbind Rand_mbind Rand_bind] in Hk. done.
    - exists l1. change (Z.to_nat 1) with 1%nat in Hk.
      cbn [lookup list_lookup mbind Rand_mbind Rand_bind] in Hk. done. }
  apply spawn_fresh_outcome in Hfresh as (x & _ & ->); [|done|done].
  by rewrite !lookup_insert_ne by done.
Qed.

(** X9: [get_rand_spawn] outside the lanes.  Without the key
    "previous_location" it raises [KeyError]; with a previous lane that
    is not 0, 1, 2 or 3 it returns the dictionary as it is; with no
    previous lane and a hint that is not 1, 2 or 3 it records the hint
    and draws nothing, after which every further call leaves the
    dictionary as it is unless the hint was 0; with no previous lane
    and a hint 1, 2 or 3 its results are exactly the dictionaries that
    record the hint and a position of its lane.  No call touches another
    key. *)
Theorem get_rand_spawn_edge_cases (d : gmap string Z) (hint : Z) :
  (d !! "previous_location"%string = None →
   get_rand_spawn d hint = Raise KeyError)
  ∧ (∀ p, d !! "previous_location"%string = Some p → ¬ (0 ≤ p ≤ 3) →
       get_rand_spawn d hint = Ret d)
  ∧ (d !! "previous_location"%string = Some 0 → ¬ (1 ≤ hint ≤ 3) →
       get_rand_spawn d hint
       = Ret (<["previous_location"%string := hint]> d)
       ∧ (hint ≠ 0 → ∀ hint',
            get_rand_spawn (<["previous_location"%string := hint]> d) hint'
            = Ret (<["previous_location"%string := hint]> d)))
  ∧ (d !! "previous_location"%string = Some 0 → 1 ≤ hint ≤ 3 →
     ∀ d', outcome (get_rand_spawn d hint) d'
           ↔ ∃ x, in_lane hint x
                  ∧ d' = <["spawn_location"%string := x]>
                           (<["previous_location"%string := hint]> d))
  ∧ (∀ d' k, outcome (get_rand_spawn d hint) d' →
       k ≠ "spawn_location"%string → k ≠ "previous_location"%string →
       d' !! k = d !! k).
Proof.
  assert (∀ (e : gmap string Z) p h,
            e !! "previous_location"%string = Some p → ¬ (0 ≤ p ≤ 3) →
            get_rand_spawn e h = Ret e) as Hout_of_range.
  { intros e p h He Hp. unfold get_rand_spawn. cbn [get_rand_spawn_depth].
    rewrite He. cbn [or_raise mbind Rand_mbind Rand_bind].
    destruct (decide (p = 0)); [lia|].
    destruct (decide (1 ≤ p ∧ p ≤ 3)); [lia|done]. }
  assert (d !! "previous_location"%string = Some 0 → ¬ (1 ≤ hint ≤ 3) →
          get_rand_spawn d hint
          = Ret (<["previous_location"%string := hint]> d)) as Hbad.
  { intros Hd Hh. unfold get_rand_spawn. cbn [get_rand_spawn_depth].
    rewrite Hd. cbn [or_raise mbind Rand_mbind Rand_bind].
    destruct (decide (0 = 0)); [|done].
    destruct (decide (hint = 1)); [lia|].
    destruct (decide (hint = 2)); [lia|].
    destruct (decide (hint = 3)); [lia|done]. }
  split_and!.
  - intros Hd. unfold get_rand_spawn. cbn [get_rand_spawn_depth].
    by rewrite Hd.
  - intros p. apply Hout_of_range.
  - intros Hd Hh. split; [by apply Hbad|].
    intros Hne hint'. apply (Hout_of_range _ hint); [|lia].
    apply lookup_insert_eq.
  - intros Hd Hh d'. by apply spawn_fresh_outcome_iff.
  - intros d' k Hout Hk1 Hk2.
    destruct (d !! "previous_location"%string) as [p|] eqn:Hd.
    2:{ unfold get_rand_spawn in Hout. cbn [get_rand_spawn_depth] in Hout.
        rewrite Hd in Hout. inversion Hout. }
    destruct (decide (p = 0)) as [->|Hp0].
    { destruct (decide (1 ≤ hint ≤ 3)) as [Hh|Hh].
      - apply spawn_fresh_outcome in Hout as (x & _ & ->); [|done|done].
        by rewrite !lookup_insert_ne by done.
      - rewrite Hbad in Hout by done. apply outcome_ret_inv in Hout as ->.
        by rewrite lookup_insert_ne by done. }
    destruct (decide (1 ≤ p ≤ 3)) as [Hp|Hp].
    + by eapply spawn_again_keys.
    + rewrite (Hout_of_range d p hint Hd) in Hout by lia.
      by apply outcome_ret_inv in Hout as ->.
Qed.

(** ** Sessions that do not crash *)

Lemma safe_bind {A B} (m : Rand A) (f : A → Rand B) :
  safe m → (∀ a, outcome m a → safe (f a)) → safe (m ≫= f).
Proof.
  induction 1 as [a|lo hi k Hle Hk IH]; intros Hf.
  - apply Hf. constructor.
  - cbn [mbind Rand_mbind Rand_bind]. constructor; [done|].
    intros v Hv. apply (IH v Hv).
    intros a Ha. apply Hf. by econstructor.
Qed.

Lemma safe_outcome {A} (m : Rand A) : safe m → ∃ a, outcome m a.
Proof.
  induction 1 as [a|lo hi k Hle Hk IH].
  - exists a. constructor.
  - destruct (IH lo ltac:(lia)) as [a Ha]. exists a.
    by apply (outcome_randint _ _ _ lo).
Qed.

Lemma safe_randint_ret lo hi : lo ≤ hi → safe (randint lo hi).
Proof. intros H. constructor; [done|]. intros v _. constructor. Qed.

(** [get_rand_spawn] returns whenever the dictionary has the key
    "previous_location". *)
Lemma get_rand_spawn_safe (d : gmap string Z) (hint : Z) :
  is_Some (d !! "previous_location"%string) → safe (get_rand_spawn d hint).
Proof.
  intros [p Hd].
  assert (∀ (e : gmap string Z) r, e !! "previous_location"%string = Some 0 →
            safe (get_rand_spawn_depth 1 e r)) as Hfresh.
  { intros e r He. cbn [get_rand_spawn_depth]. rewrite He.
    cbn [or_raise mbind Rand_mbind Rand_bind].
    destruct (decide (0 = 0)); [|done].
    repeat case_decide; try constructor; try lia; intros; constructor. }
  destruct (decide (p = 0)) as [->|Hp0].
  { unfold get_rand_spawn. cbn [get_rand_spawn_depth]. rewrite Hd.
    cbn [or_raise mbind Rand_mbind Rand_bind].
    destruct (decide (0 = 0)); [|done].
    repeat case_decide; try constructor; try lia; intros; constructor. }
  destruct (decide (1 ≤ p ≤ 3)) as [Hp|Hp].
  - unfold get_rand_spawn. rewrite (spawn_again_shape 0 d p hint Hd Hp).
    destruct (other_lanes_spec p Hp) as (l0 & l1 & -> & _).
    constructor; [done|]. intros v Hv.
    assert (v = 0 ∨ v = 1) as [->| ->] by lia.
    + change (Z.to_nat 0) with 0%nat.
      cbn [lookup list_lookup mbind Rand_mbind Rand_bind].
      apply Hfresh, lookup_insert_eq.
    + change (Z.to_nat 1) with 1%nat.
      cbn [lookup list_lookup mbind Rand_mbind Rand_bind].
      apply Hfresh, lookup_insert_eq.
  - unfold get_rand_spawn. cbn [get_rand_spawn_depth]. rewrite Hd.
    cbn [or_raise mbind Rand_mbind Rand_bind].
    destruct (decide (p = 0)); [done|].
    destruct (decide (1 ≤ p ∧ p ≤ 3)); [lia|constructor].
Qed.

(** The dictionary between the calls of [load_aliens]: both keys, and
    a previous lane 0, 1, 2 or 3. *)
Lemma load_alien_safe sprite (d : gmap string Z) l :
  (∃ p, d !! "previous_location"%string = Some p ∧ 0 ≤ p ≤ 3) →
  safe (load_alien sprite (d, l)).
Proof.
  intros (p & Hd & Hp). unfold load_alien.
  apply safe_bind; [by apply safe_randint_ret|].
  intros t Ht%outcome_randint_inv.
  apply safe_bind; [by apply safe_randint_ret|].
  intros r Hr%outcome_randint_inv.
  apply safe_bind; [apply get_rand_spawn_safe; by rewrite Hd|].
  intros d' Hd'.
  assert (∃ x, d' !! "spawn_location"%string = Some x) as [x Hx].
  { destruct (decide (p = 0)) as [->|Hp0].
    - apply spawn_fresh_outcome in Hd' as (x & _ & ->); [|done|done].
      exists x. apply lookup_insert_eq.
    - apply (spawn_again_outcome 0 _ _ p) in Hd'
        as (lane & x & _ & Hx & _); [|done|lia].
      by exists x. }
  rewrite Hx. cbn [or_raise mbind Rand_mbind Rand_bind].
  repeat case_decide; constructor.
Qed.

Lemma load_alien_state sprite (d d' : gmap string Z) l l' :
  (∃ p, d !! "previous_location"%string = Some p ∧ 0 ≤ p ≤ 3) →
  outcome (load_alien sprite (d, l)) (d', l') →
  ∃ p, d' !! "previous_location"%string = Some p ∧ 0 ≤ p ≤ 3.
Proof.
  intros (p & Hd & Hp)
    (t & r & x & _ & Hr & Hd' & _)%load_alien_appends.
  destruct (decide (p = 0)) as [->|Hp0].
  - apply spawn_fresh_outcome in Hd' as (x' & _ & ->); [|done|done].
    exists r. rewrite lookup_insert_ne by done.
    rewrite lookup_insert_eq. split; [done|lia].
  - apply (spawn_again_outcome 0 _ _ p) in Hd'
      as (lane & x' & Hl & _ & Hlane & _); [|done|lia].
    exists lane. split; [done|lia].
Qed.

Lemma load_aliens_safe sprite l : safe (load_aliens sprite l).
Proof.
  unfold load_aliens.
  assert (∃ p, ({[ "spawn_location"%string := 0;
                   "previous_location"%string := 0 ]} : gmap string Z)
               !! "previous_location"%string = Some p ∧ 0 ≤ p ≤ 3) as H0.
  { exists 0. split; [done|lia]. }
  apply safe_bind; [by apply load_alien_safe|].
  intros [d1 l1] H1.
  apply safe_bind; [|intros; constructor].
  apply load_alien_safe. by eapply load_alien_state.
Qed.

Lemma Spaceship_move_total (s : Spaceship) direction screen_w screen_h :
  has_rect s →
  ∃ s', Spaceship_move s direction screen_w screen_h = Some s' ∧ has_rect s'.
Proof.
  intros [r Hr]. unfold Spaceship_move, has_rect. rewrite Hr.
  destruct (is_player s); cbn [mbind option_bind].
  - eexists. split; [reflexivity|]. by eexists.
  - eexists. split; [reflexivity|]. destruct (_ <=? _); by eexists.
Qed.

Lemma shoot_total (s : Spaceship) : has_rect s → ∃ s', shoot s = Some s' ∧ has_rect s'.
Proof.
  intros [r Hr]. unfold shoot, has_rect. rewrite Hr. cbn [mbind option_bind].
  eexists. split; [reflexivity|]. by exists r.
Qed.

Lemma player_controls_total keys (p : Spaceship) :
  has_rect p → ∃ p', player_controls keys p = Some p' ∧ has_rect p'.
Proof.
  intros Hp. unfold player_controls.
  assert (∃ p1, (if K_LEFT keys then Spaceship_move p (-1) SCREEN_W SCREEN_H
                 else Some p) = Some p1 ∧ has_rect p1) as (p1 & -> & Hp1).
  { destruct (K_LEFT keys); [by apply Spaceship_move_total|by exists p]. }
  cbn [mbind option_bind].
  assert (∃ p2, (if K_RIGHT keys then Spaceship_move p1 1 SCREEN_W SCREEN_H
                 else Some p1) = Some p2 ∧ has_rect p2) as (p2 & -> & Hp2).
  { destruct (K_RIGHT keys); [by apply Spaceship_move_total|by exists p1]. }
  cbn [mbind option_bind].
  destruct (_ && _); [by apply shoot_total|by exists p2].
Qed.

Lemma alien_fire_total (a : Spaceship) :
  has_rect a → ∃ a', alien_fire a = Some a' ∧ has_rect a'.
Proof.
  intros Ha. unfold alien_fire.
  assert (∃ a1, (if negb (is_fired (bullet a)) then alien_shoot a else Some a)
                = Some a1 ∧ has_rect a1) as (a1 & -> & Ha1).
  { destruct (negb _); [|by exists a].
    unfold alien_shoot. destruct (_ && _); [|by eexists].
    destruct (shoot_total (set_shoot_timer a (shoot_timer a + 1)) Ha)
      as (s & -> & Hs).
    cbn [mbind option_bind]. by eexists. }
  cbn [mbind option_bind]. by eexists.
Qed.

(** The turn of an alien that has its rectangle returns, and leaves
    every entity with its rectangle. *)
Lemma alien_turn_total i a g :
  loaded g → alien_list g !! i = Some a →
  ∃ g' stop, alien_turn i a g = Some (g', stop) ∧ loaded g'.
Proof.
  intros (Hp & Hh & Hall) Hi.
  pose proof (Forall_lookup_1 _ _ _ _ Hall Hi) as Ha. cbn beta in Ha.
  unfold alien_turn.
  destruct (is_killed a); [by exists g, false|].
  destruct (Spaceship_move_total a 1 SCREEN_W SCREEN_H Ha) as (a1 & -> & Ha1).
  cbn [mbind option_bind].
  destruct (is_killed a1).
  { eexists _, _. split; [reflexivity|]. unfold loaded. simpl.
    split_and!; try done. by apply Forall_insert. }
  destruct (alien_fire_total a1 Ha1) as (a2 & -> & Ha2).
  cbn [mbind option_bind].
  destruct (check_collisions (bullet (player g)) _ _ _ _).
  - destruct (check_collisions (bullet (set_is_killed a2 true)) _ _ _ _);
      cbn [is_killed set_is_killed set_bullet];
      match goal with
      | |- ∃ _ _, (if ?c then _ else _) = _ ∧ _ => destruct c
      end; (eexists _, _; split; [reflexivity|]);
      unfold loaded, score_kill, take_damage; simpl;
      repeat match goal with |- context [if ?c then _ else _] => destruct c end;
      simpl; split_and!; try done; by apply Forall_delete.
  - destruct (check_collisions (bullet a2) _ _ _ _);
      cbn [is_killed set_is_killed set_bullet];
      match goal with
      | |- ∃ _ _, (if ?c then _ else _) = _ ∧ _ => destruct c
      end; (eexists _, _; split; [reflexivity|]);
      unfold loaded, take_damage; simpl;
      repeat match goal with |- context [if ?c then _ else _] => destruct c end;
      simpl; split_and!; try done;
      (by apply Forall_delete) || (by apply Forall_insert).
Qed.

Lemma alien_loop_total fuel : ∀ i g,
  loaded g → ∃ g', alien_loop fuel i g = Some g' ∧ loaded g'.
Proof.
  induction fuel as [|fuel IH]; intros i g Hg; [by exists g|].
  cbn [alien_loop].
  destruct (alien_list g !! i) as [a|] eqn:Hi; [|by exists g].
  destruct (alien_turn_total i a g Hg Hi) as (g1 & stop & -> & Hg1).
  cbn [mbind option_bind]. destruct stop; [by exists g1|]. by apply IH.
Qed.

Lemma get_heart_loaded sprite :
  sprite "raw/heart.png" = true → has_rect (get_heart sprite).
Proof.
  intros Hs. unfold get_heart, Heart_init, Entity_init, check_imagePath,
    has_rect.
  cbn [heart_entity]. rewrite Hs. by eexists.
Qed.

Lemma heart_section_total sprite g :
  sprite "raw/heart.png" = true → loaded g →
  ∃ g', heart_section sprite g = Some g' ∧ loaded g'.
Proof.
  intros Hs Hg. pose proof Hg as (Hp & [r Hr] & Hall). unfold heart_section.
  destruct (_ <=? _); [|by exists g].
  destruct (negb _).
  - unfold Heart_move. rewrite Hr. cbn [mbind option_bind].
    destruct (check_collisions _ _ _ _ _); (eexists; split; [reflexivity|]);
      unfold loaded, heal; simpl;
      repeat match goal with |- context [if ?c then _ else _] => destruct c end;
      simpl; split_and!; try done; by eexists.
  - eexists. split; [reflexivity|]. unfold loaded. simpl.
    split_and!; try done. by apply get_heart_loaded.
Qed.

Lemma alien_of_has_rect sprite t x :
  alien_sprites sprite → 1 ≤ t ≤ 3 → has_rect (alien_of sprite t x).
Proof.
  intros Hsp Ht.
  destruct (alien_of_loaded sprite t x Hsp Ht)
    as (w & _ & _ & _ & _ & _ & _ & Hr & _).
  unfold has_rect. cbn zeta in Hr. by rewrite Hr.
Qed.

(** The state in which the loop over the aliens starts has every
    rectangle. *)
Lemma frame_loop_loaded sprite keys g p aliens :
  game_sprites sprite → loaded g →
  player_controls keys (player g) = Some p →
  (if Z.of_nat (length (alien_list g)) <? level g
   then outcome (load_aliens sprite (alien_list g)) aliens
   else aliens = alien_list g) →
  loaded (set_player (set_alien_list (set_player g p) aliens)
            (set_bullet p (move_bullets (bullet p) (-1)))).
Proof.
  intros (_ & _ & Hsp) (Hp & Hh & Hall) Hctl Ha.
  destruct (player_controls_total keys (player g) Hp) as (p' & Hp' & Hr').
  rewrite Hctl in Hp'. injection Hp' as <-.
  unfold loaded. simpl. split_and!; try done.
  destruct (_ <? _); [|by subst].
  apply load_aliens_lanes in Ha
    as (ta & la & xa & tb & lb & xb & Hta & Htb & _ & _ & _ & ->).
  apply Forall_app. split; [done|].
  constructor; [by apply alien_of_has_rect|].
  constructor; [by apply alien_of_has_rect|]. constructor.
Qed.

Lemma frame_loaded sprite keys g g' :
  game_sprites sprite → loaded g →
  outcome (frame sprite keys g) g' → loaded g'.
Proof.
  intros Hsp Hg (_ & p & aliens & g2 & Hp & Ha & Hloop & Hheart)%frame_steps.
  pose proof (frame_loop_loaded _ _ _ _ _ Hsp Hg Hp Ha) as H1.
  destruct (alien_loop_total (length aliens) 0 _ H1) as (g2' & Hloop' & H2).
  rewrite Hloop in Hloop'. injection Hloop' as <-.
  destruct Hsp as (_ & Hhs & _).
  destruct (heart_section_total sprite g2 Hhs H2) as (g3 & Hheart' & H3).
  rewrite Hheart in Hheart'. by injection Hheart' as <-.
Qed.

Lemma game_init_loaded sprite : game_sprites sprite → loaded (game_init sprite).
Proof.
  intros (Hp & Hh & _). unfold loaded. split_and!.
  - unfold game_init, Spaceship_init, Entity_init, check_imagePath, has_rect.
    cbn [player ship_entity]. rewrite Hp. by eexists.
  - by apply get_heart_loaded.
  - constructor.
Qed.

Lemma reachable_loaded sprite g :
  game_sprites sprite → reachable sprite g → loaded g.
Proof.
  intros Hsp. induction 1 as [|keys g g' _ IH Hframe].
  - by apply game_init_loaded.
  - by eapply frame_loaded.
Qed.

(** X10: with the sprite files of the game loaded, a frame of a session
    that is not over never raises: whatever the keys and the random
    draws, every step of the frame returns, so the frame has a next
    state; and every entity keeps its rectangle throughout. *)
Theorem frame_never_raises (sprite : string → bool) (keys : Keys)
    (g : Game) :
  game_sprites sprite →
  reachable sprite g →
  is_game_over g = false →
  safe (frame sprite keys g)
  ∧ (∃ g', outcome (frame sprite keys g) g')
  ∧ loaded g.
Proof.
  intros Hsp Hreach Hrun.
  pose proof (reachable_loaded _ _ Hsp Hreach) as Hg.
  assert (safe (frame sprite keys g)) as Hsafe.
  { unfold frame. rewrite Hrun.
    destruct (player_controls_total keys (player g) (proj1 Hg))
      as (p & Hp & _).
    rewrite Hp. cbn [or_raise mbind Rand_mbind Rand_bind].
    apply safe_bind.
    { destruct (_ <? _); [apply load_aliens_safe|constructor]. }
    intros aliens Ha.
    assert (if Z.of_nat (length (alien_list g)) <? level g
            then outcome (load_aliens sprite (alien_list g)) aliens
            else aliens = alien_list g) as Ha'.
    { simpl in Ha. destruct (_ <? _); [done|by apply outcome_ret_inv in Ha]. }
    pose proof (frame_loop_loaded _ _ _ _ _ Hsp Hg Hp Ha') as H1.
    destruct (alien_loop_total (length aliens) 0 _ H1) as (g2 & Hloop & H2).
    cbn [alien_list player set_alien_list set_player].
    rewrite Hloop. cbn [or_raise mbind Rand_mbind Rand_bind].
    destruct Hsp as (_ & Hhs & _).
    destruct (heart_section_total sprite g2 Hhs H2) as (g3 & -> & _).
    constructor. }
  split_and!; [done|by apply safe_outcome|done].
Qed.

Lemma frame_never_raises_witness : safe (frame all_sprites no_keys sample_state).
Proof.
  apply (frame_never_raises all_sprites no_keys sample_state).
  - by unfold game_sprites, alien_sprites, all_sprites.
  - exact sample_state_reachable.
  - reflexivity.
Defined.

(** ** Sessions without the sprite files *)

Lemma alien_of_without_sprite sprite t x :
  sprite "raw/alien_small.png" = false →
  sprite "raw/alien_medium.png" = false →
  sprite "raw/alien_big.png" = false →
  placeholder (alien_of sprite t x) = None
  ∧ is_killed (alien_of sprite t x) = false.
Proof.
  intros Hs Hm Hb.
  unfold alien_of, Spaceship_init, Entity_init, check_imagePath.
  repeat case_decide; cbn [ship_entity is_killed]; rewrite ?Hs, ?Hm, ?Hb;
    by rewrite andb_false_r.
Qed.

Lemma no_rect_controls keys (p p' : Spaceship) :
  placeholder p = None →
  is_fired (bullet p) = false →
  player_controls keys p = Some p' →
  K_LEFT keys = false ∧ K_RIGHT keys = false ∧ K_SPACE keys = false ∧ p' = p.
Proof.
  intros Hr Hf. unfold player_controls, Spaceship_move, shoot.
  destruct (K_LEFT keys).
  { rewrite Hr. by destruct (is_player p). }
  cbn [mbind option_bind]. destruct (K_RIGHT keys).
  { rewrite Hr. by destruct (is_player p). }
  cbn [mbind option_bind]. rewrite Hf. destruct (K_SPACE keys).
  { rewrite Hr. done. }
  by intros [= <-].
Qed.

Lemma frame_without_player_sprite sprite keys g g' :
  placeholder (player g) = None →
  is_fired (bullet (player g)) = false →
  outcome (frame sprite keys g) g' →
  K_LEFT keys = false ∧ K_RIGHT keys = false ∧ K_SPACE keys = false
  ∧ placeholder (player g') = None
  ∧ is_fired (bullet (player g')) = false.
Proof.
  intros Hr Hf Hframe.
  pose proof (frame_player_same _ _ _ _ Hframe) as (p2 & Hsteer & He & _).
  apply frame_bullet_fate in Hframe as (p & fate & Hp & Hb & _).
  apply (no_rect_controls _ _ _ Hr Hf) in Hp as (Hl & Hrt & Hsp & ->).
  unfold steer in Hsteer. rewrite Hl, Hrt in Hsteer. injection Hsteer as <-.
  split_and!; try done.
  - by rewrite He.
  - rewrite Hb. cbn zeta. unfold move_bullets. rewrite Hf. by destruct fate.
Qed.

Lemma reachable_without_player_sprite sprite g :
  sprite "raw/player.png" = false →
  reachable sprite g →
  placeholder (player g) = None ∧ is_fired (bullet (player g)) = false.
Proof.
  intros Hs. induction 1 as [|keys g g' _ [IH1 IH2] Hframe].
  - unfold game_init, Spaceship_init, Entity_init, check_imagePath.
    cbn [player ship_entity bullet]. rewrite Hs. by rewrite andb_false_r.
  - by apply (frame_without_player_sprite _ _ _ _ IH1 IH2) in Hframe
      as (_ & _ & _ & ? & ?).
Qed.

Lemma first_frame_without_alien_sprites sprite keys g' :
  sprite "raw/alien_small.png" = false →
  sprite "raw/alien_medium.png" = false →
  sprite "raw/alien_big.png" = false →
  ¬ outcome (frame sprite keys (game_init sprite)) g'.
Proof.
  intros Hs Hm Hb
    (_ & p & aliens & g2 & _ & Ha & Hloop & _)%frame_steps.
  change (Z.of_nat (length (alien_list (game_init sprite)))
          <? level (game_init sprite)) with true in Ha.
  apply load_aliens_lanes in Ha
    as (ta & la & xa & tb & lb & xb & _ & _ & _ & _ & _ & ->).
  destruct (alien_of_without_sprite sprite ta xa Hs Hm Hb) as [Hr Hk].
  cbn [alien_list game_init app length alien_loop set_player set_alien_list
       lookup list_lookup] in Hloop.
  unfold alien_turn in Hloop. rewrite Hk in Hloop.
  unfold Spaceship_move in Hloop. rewrite Hr in Hloop.
  by destruct (is_player (alien_of sprite ta xa)).
Qed.

Lemma reachable_without_heart_sprite sprite g :
  sprite "raw/heart.png" = false →
  reachable sprite g →
  placeholder (heart g) = None ∧ is_claimed (heart g) = false
  ∧ goal g = 10 ∧ score g < 10.
Proof.
  intros Hs. induction 1 as [|keys g g' _ (IH1 & IH2 & IH3 & IH4) Hframe].
  - unfold game_init, get_heart, Heart_init, Entity_init, check_imagePath.
    cbn [heart heart_entity is_claimed goal score]. rewrite Hs.
    by rewrite andb_false_r.
  - apply frame_steps in Hframe
      as (_ & p & aliens & g2 & _ & _ & Hloop & Hheart).
    apply alien_loop_bullet in Hloop as (Hg2 & Hh2 & _).
    simpl in Hg2, Hh2.
    apply heart_section_cases in Hheart
      as [[Hlt ->]|[(_ & Hc & _)|[(_ & _ & h & Hmove & _)
                                 |(_ & _ & h & Hmove & _)]]].
    + rewrite Hh2, Hg2. split_and!; try done. lia.
    + rewrite Hh2 in Hc. congruence.
    + unfold Heart_move in Hmove. rewrite Hh2, IH1 in Hmove. done.
    + unfold Heart_move in Hmove. rewrite Hh2, IH1 in Hmove. done.
Qed.

(** X11: a session whose sprite files do not load.  Without the three
    sprites of the aliens no frame returns: the first alien's move
    raises, so the session never leaves its initial state.  Without the
    sprite of the player every frame with an arrow key or the space key
    pressed raises.  Without the sprite of the heart the score never
    reaches 10: the frame in which it would raises when the heart is to
    move. *)
Theorem session_without_sprites (sprite : string → bool) (g : Game) :
  reachable sprite g →
  (sprite "raw/alien_small.png" = false →
   sprite "raw/alien_medium.png" = false →
   sprite "raw/alien_big.png" = false →
   g = game_init sprite ∧ ∀ keys g', ¬ outcome (frame sprite keys g) g')
  ∧ (sprite "raw/player.png" = false →
     ∀ keys g',
       K_LEFT keys = true ∨ K_RIGHT keys = true ∨ K_SPACE keys = true →
       ¬ outcome (frame sprite keys g) g')
  ∧ (sprite "raw/heart.png" = false →
     score g < 10 ∧ goal g = 10
     ∧ ∀ keys g', outcome (frame sprite keys g) g' → score g' < 10).
Proof.
  intros Hreach. split_and!.
  - intros Hs Hm Hb.
    assert (g = game_init sprite) as ->.
    { induction Hreach as [|keys g g' _ IH Hframe]; [done|].
      rewrite IH in Hframe.
      by apply first_frame_without_alien_sprites in Hframe. }
    split; [done|]. intros keys g'.
    by apply first_frame_without_alien_sprites.
  - intros Hs keys g' Hkey Hframe.
    destruct (reachable_without_player_sprite _ _ Hs Hreach) as [Hr Hf].
    apply (frame_without_player_sprite _ _ _ _ Hr Hf) in Hframe
      as (Hl & Hrt & Hsp & _).
    destruct Hkey as [?|[?|?]]; congruence.
  - intros Hs.
    destruct (reachable_without_heart_sprite _ _ Hs Hreach)
      as (_ & _ & Hg & Hsc).
    split_and!; try done. intros keys g' Hframe.
    assert (reachable sprite g') as Hreach' by (by econstructor).
    by destruct (reachable_without_heart_sprite _ _ Hs Hreach')
      as (_ & _ & _ & ?).
Qed.

Lemma session_without_sprites_witness :
  (∀ keys g',
     ¬ outcome (frame (λ _, false) keys (game_init (λ _, false))) g')
  ∧ score (game_init (λ _, false)) < 10
  ∧ goal (game_init (λ _, false)) = 10.
Proof.
  destruct (session_without_sprites (λ _, false) (game_init (λ _, false))
              (reachable_init _)) as (Ha & _ & Hh).
  destruct (Ha eq_refl eq_refl eq_refl) as [_ H].
  destruct (Hh eq_refl) as (Hs & Hg & _).
  by split_and!.
Defined.

(** ** The loop over the aliens while the list shrinks *)

(** A turn changes the list at its own index only. *)
Lemma alien_turn_before i a g g' stop k :
  alien_turn i a g = Some (g', stop) → (k < i)%nat →
  alien_list g' !! k = alien_list g !! k.
Proof.
  intros Hturn Hk. apply alien_turn_cases in Hturn
    as [(_ & -> & _)|[(_ & a1 & _ & _ & -> & _)|Hplay]].
  - done.
  - simpl. apply list_lookup_insert_ne. lia.
  - destruct Hplay as (_ & a1 & a2 & hit & struck & _ & _ & _ & _ & _
                       & _ & _ & _ & -> & _).
    destruct hit.
    + by apply list_lookup_delete_lt.
    + apply list_lookup_insert_ne. lia.
Qed.

(** The loop from index [i] on leaves the list below [i] as it is. *)
Lemma alien_loop_before fuel : ∀ i g g' k,
  alien_loop fuel i g = Some g' → (k < i)%nat →
  alien_list g' !! k = alien_list g !! k.
Proof.
  induction fuel as [|fuel IH]; intros i g g' k Hloop Hk.
  { by injection Hloop as <-. }
  cbn [alien_loop] in Hloop.
  destruct (alien_list g !! i) as [a|] eqn:Hi; [|by injection Hloop as <-].
  apply bind_Some in Hloop as ([g1 stop] & Hturn & Hloop).
  pose proof (alien_turn_before _ _ _ _ _ k Hturn Hk) as H1.
  destruct stop; [by injection Hloop as <-|].
  rewrite <- H1. apply (IH (S i)); [done|lia].
Qed.

(** X12: the loop over the aliens goes by index while the turn of a
    killed alien takes it out of the list.  When the player's bullet
    kills the alien at index [i] and the player survives the turn, the
    alien that followed it takes its place at index [i] and is passed
    over: after the loop it is in the list as it was before, neither
    moved nor having fired. *)
Theorem killed_alien_shields_next (fuel i : nat) (g g1 g' : Game)
    (a b : Spaceship) :
  alien_list g !! i = Some a →
  alien_list g !! S i = Some b →
  alien_turn i a g = Some (g1, false) →
  score g1 = score g + 1 →
  alien_loop (S fuel) i g = Some g' →
  alien_list g1 = delete i (alien_list g)
  ∧ alien_list g' !! i = Some b.
Proof.
  intros Hi Hb Hturn Hscore Hloop.
  assert (alien_list g1 = delete i (alien_list g)) as Hdel.
  { pose proof Hturn as Hcases. apply alien_turn_cases in Hcases
      as [(_ & -> & _)|[(_ & a1 & _ & _ & _ & ?)|Hplay]]; [lia|done|].
    destruct Hplay as (_ & a1 & a2 & hit & struck & _ & _ & _ & _ & _
                       & _ & Hs & _ & Hl & _).
    destruct hit; [done|lia]. }
  split; [done|].
  cbn [alien_loop] in Hloop. rewrite Hi, Hturn in Hloop.
  cbn [mbind option_bind] in Hloop.
  rewrite (alien_loop_before _ _ _ _ i Hloop) by lia.
  rewrite Hdel. rewrite list_lookup_delete_ge by lia. done.
Qed.

Lemma killed_alien_shields_next_witness :
  ∃ g', alien_loop 2 0 kill_state = Some g'
        ∧ alien_list g' = [alien_of all_sprites 2 600].
Proof.
  destruct (alien_loop 2 0 kill_state) as [g'|] eqn:Hloop;
    [|by vm_compute in Hloop].
  exists g'. split; [done|].
  destruct (alien_turn 0 (alien_of all_sprites 1 350) kill_state)
    as [[g1 stop]|] eqn:Hturn; [|by vm_compute in Hturn].
  assert (stop = false) as ->.
  { vm_compute in Hturn. by injection Hturn as _ <-. }
  assert (score g1 = score kill_state + 1) as Hscore.
  { vm_compute in Hturn. injection Hturn as <-. reflexivity. }
  destruct (killed_alien_shields_next 1 0 kill_state g1 g'
              (alien_of all_sprites 1 350) (alien_of all_sprites 2 600)
              eq_refl eq_refl Hturn Hscore Hloop) as [Hdel Hnext].
  assert (length (alien_list g') ≤ 1)%nat as Hlen.
  { vm_compute in Hloop. injection Hloop as <-. simpl. lia. }
  clear Hloop Hturn Hscore Hdel.
  destruct (alien_list g') as [|x [|y l]];
    cbn [length lookup list_lookup] in Hlen, Hnext;
    [discriminate Hnext| |lia].
  by injection Hnext as ->.
Defined.

(** ** Integers as text and back *)

Lemma pretty_N_char_digit (d : N) :
  (d < 10)%N → Text.digit (pretty_N_char d) = Some (Z.of_N d).
Proof.
  intros Hd.
  assert (d = 0 ∨ d = 1 ∨ d = 2 ∨ d = 3 ∨ d = 4 ∨ d = 5 ∨ d = 6 ∨ d = 7
          ∨ d = 8 ∨ d = 9)%N as H by lia.
  repeat (destruct H as [->|H]; [reflexivity|]). by subst.
Qed.

(** A digit is neither white space nor a colon. *)
Lemma digit_plain (c : ascii) :
  is_Some (Text.digit c) →
  Text.isspace c = false ∧ c ≠ ":"%char
  ∧ Ascii.eqb c "-" = false ∧ Ascii.eqb c "+" = false.
Proof.
  intros [d Hd].
  destruct c as [[] [] [] [] [] [] [] []]; vm_compute in Hd;
    try discriminate Hd; split_and!; (reflexivity || discriminate).
Qed.

(** The decimal digits that [pretty] writes for a positive number, most
    significant first, and what [int] reads from them. *)
Lemma pretty_N_go_digits (x : N) :
  (0 < x)%N →
  ∃ ds : list ascii,
    ds ≠ []
    ∧ Forall (λ c, is_Some (Text.digit c)) ds
    ∧ (∀ s, list_ascii_of_string (pretty_N_go x s)
            = ds ++ list_ascii_of_string s)
    ∧ 10 ^ (Z.of_nat (length ds) - 1) ≤ Z.of_N x
    ∧ ∀ prev acc n rest,
        Text.digits_go prev acc n (ds ++ rest)
        = Text.digits_go true (acc * 10 ^ Z.of_nat (length ds) + Z.of_N x)
            (n + length ds) rest.
Proof.
  induction (N.lt_wf_0 x) as [x _ IH]. intros Hx.
  assert (x `mod` 10 < 10)%N as Hd by (apply N.mod_lt; lia).
  pose proof (pretty_N_char_digit _ Hd) as Hc.
  pose proof (N.div_mod x 10 ltac:(lia)) as Hdm.
  destruct (decide (x `div` 10 = 0)%N) as [Hq|Hq].
  - exists [pretty_N_char (x `mod` 10)]. split_and!.
    + done.
    + constructor; [by rewrite Hc|constructor].
    + intros s. rewrite pretty_N_go_step by done. by rewrite Hq.
    + simpl. clear IH; generalize dependent (x `mod` 10)%N; generalize dependent (x `div` 10)%N; intros; lia.
    + intros prev acc n rest. cbn [app Text.digits_go]. rewrite Hc.
      cbn [length]. f_equal; [|lia].
      change (Z.of_nat 1) with 1. rewrite Z.pow_1_r.
      clear IH; generalize dependent (x `mod` 10)%N; generalize dependent (x `div` 10)%N; intros; lia.
  - destruct (IH (x `div` 10)%N) as (ds & Hne & Hall & Hs & Hlow & Hgo).
    { apply N.div_lt; lia. }
    { lia. }
    exists (ds ++ [pretty_N_char (x `mod` 10)]). split_and!.
    + by destruct ds.
    + apply Forall_app. split; [done|].
      constructor; [by rewrite Hc|constructor].
    + intros s. rewrite pretty_N_go_step by done. rewrite Hs.
      by rewrite <- app_assoc.
    + rewrite length_app. cbn [length].
      replace (Z.of_nat (length ds + 1) - 1)
        with (1 + (Z.of_nat (length ds) - 1)) by lia.
      assert (0 < length ds)%nat by (destruct ds; [done|simpl; lia]).
      rewrite Z.pow_add_r by lia. change (10 ^ 1) with 10.
      clear IH; generalize dependent (x `mod` 10)%N; generalize dependent (x `div` 10)%N; intros; lia.
    + intros prev acc n rest. rewrite <- app_assoc. rewrite Hgo.
      cbn [app Text.digits_go]. rewrite Hc.
      rewrite length_app. cbn [length]. f_equal; [|lia].
      replace (Z.of_nat (length ds + 1)) with (Z.of_nat (length ds) + 1) by lia.
      rewrite Z.pow_add_r by lia. change (10 ^ 1) with 10.
      clear IH; generalize dependent (x `mod` 10)%N; generalize dependent (x `div` 10)%N; intros; lia.
Qed.

Lemma lstrip_plain (l : list ascii) :
  (∀ c, head l = Some c → Text.isspace c = false) → Text.lstrip l = l.
Proof.
  destruct l as [|c l]; [done|]. intros H. simpl. by rewrite (H c eq_refl).
Qed.

Lemma head_rev_last {A} (l : list A) : head (rev l) = last l.
Proof.
  induction l as [|x l _] using rev_ind; [done|].
  by rewrite rev_app_distr, last_snoc.
Qed.

Lemma rstrip_plain (l : list ascii) :
  (∀ c, last l = Some c → Text.isspace c = false) → Text.rstrip l = l.
Proof.
  intros H. unfold Text.rstrip. rewrite lstrip_plain; [apply rev_involutive|].
  intros c Hc. apply H. by rewrite <- head_rev_last, Hc.
Qed.

Lemma split_go_plain (s : string) : ∀ cur,
  Forall (λ c, c ≠ ":"%char) (list_ascii_of_string s) →
  Text.split_go ": " 0 cur s
  = [string_of_list_ascii (rev cur ++ list_ascii_of_string s)].
Proof.
  induction s as [|c s IH]; intros cur Hall.
  { simpl. by rewrite app_nil_r. }
  apply Forall_cons in Hall as [Hc Hall].
  cbn [Text.split_go String.prefix].
  destruct (ascii_dec ":" c) as [<-|_]; [done|].
  rewrite IH by done. cbn [rev list_ascii_of_string].
  by rewrite <- app_assoc.
Qed.

(** What [int] and [strip] make of a run of digits that [pretty] wrote. *)
Lemma digits_plain (x : N) (ds : list ascii) :
  ds ≠ [] →
  Forall (λ c, is_Some (Text.digit c)) ds →
  Text.rstrip (Text.lstrip ds) = ds
  ∧ Forall (λ c, c ≠ ":"%char) ds
  ∧ ∃ c ds', ds = c :: ds'
             ∧ Ascii.eqb c "-" = false ∧ Ascii.eqb c "+" = false.
Proof.
  intros Hne Hall. split_and!.
  - rewrite lstrip_plain.
    + apply rstrip_plain. intros c Hc.
      apply last_Some_elem_of in Hc.
      by apply (proj1 (Forall_forall _ _) Hall), digit_plain in Hc as [? _].
    + intros c Hc. destruct ds as [|c' ds]; [done|]. injection Hc as ->.
      apply Forall_cons in Hall as [Hc _]. by apply digit_plain in Hc as [? _].
  - eapply Forall_impl; [exact Hall|]. intros c Hc.
    by apply digit_plain in Hc as (_ & ? & _).
  - destruct ds as [|c ds]; [done|]. exists c, ds.
    apply Forall_cons in Hall as [Hc _].
    apply digit_plain in Hc as (_ & _ & ? & ?). done.
Qed.

Lemma unsigned_digits (x : N) (ds : list ascii) :
  Z.of_N x < 10 ^ 4300 →
  10 ^ (Z.of_nat (length ds) - 1) ≤ Z.of_N x →
  (∀ prev acc n rest,
     Text.digits_go prev acc n (ds ++ rest)
     = Text.digits_go true (acc * 10 ^ Z.of_nat (length ds) + Z.of_N x)
         (n + length ds) rest) →
  Text.unsigned ds = Some (Z.of_N x).
Proof.
  intros Hx Hlow Hgo. unfold Text.unsigned.
  rewrite <- (app_nil_r ds), Hgo. cbn [Text.digits_go].
  assert (Z.of_nat (length ds) - 1 < 4300) as Hlen.
  { apply (Z.pow_lt_mono_r_iff 10);
      [exact eq_refl|apply Pos2Z.is_nonneg
      |exact (Z.le_lt_trans _ _ _ Hlow Hx)]. }
  clear Hx. unfold Text.int_max_str_digits.
  destruct (Nat.leb_spec (0 + length ds) 4300) as [_|Hgt]; [|lia].
  f_equal; lia.
Qed.

Lemma str_read_back (n : Z) :
  Z.abs n < 10 ^ 4300 →
  Text.int (Text.str n) = Some n
  ∧ Text.strip (Text.str n) = Text.str n
  ∧ Text.split (Text.str n) ": " = [Text.str n].
Proof.
  intros Hn. destruct n as [|p|p].
  - split_and!; reflexivity.
  - unfold Text.str, pretty, pretty_Z, pretty_positive, pretty, pretty_N.
    destruct (decide (N.pos p = 0%N)); [done|].
    destruct (pretty_N_go_digits (N.pos p) eq_refl)
      as (ds & Hne & Hall & Hs & Hlow & Hgo).
    specialize (Hs ""%string). rewrite app_nil_r in Hs.
    destruct (digits_plain (N.pos p) ds Hne Hall)
      as (Hstrip & Hcolon & c & ds' & Hds & Hminus & Hplus).
    pose proof (unsigned_digits (N.pos p) ds Hn Hlow Hgo) as Hun.
    split_and!.
    + unfold Text.int. rewrite Hs, Hstrip. rewrite Hds in Hun |- *.
      by rewrite Hminus, Hplus.
    + unfold Text.strip. rewrite Hs, Hstrip, <- Hs.
      apply string_of_list_ascii_of_string.
    + unfold Text.split. rewrite split_go_plain by (by rewrite Hs).
      cbn [rev app]. by rewrite string_of_list_ascii_of_string.
  - unfold Text.str, pretty, pretty_Z, pretty_positive, pretty, pretty_N.
    destruct (decide (N.pos p = 0%N)); [done|].
    destruct (pretty_N_go_digits (N.pos p) eq_refl)
      as (ds & Hne & Hall & Hs & Hlow & Hgo).
    specialize (Hs ""%string). rewrite app_nil_r in Hs.
    destruct (digits_plain (N.pos p) ds Hne Hall)
      as (Hstrip & Hcolon & c & ds' & Hds & Hminus & Hplus).
    pose proof (unsigned_digits (N.pos p) ds Hn Hlow Hgo) as Hun.
    assert (list_ascii_of_string ("-" +:+ pretty_N_go (N.pos p) "")
            = "-"%char :: ds) as Hs'.
    { change (list_ascii_of_string ("-" +:+ pretty_N_go (N.pos p) ""))
        with ("-"%char :: list_ascii_of_string (pretty_N_go (N.pos p) "")).
      by rewrite Hs. }
    assert (Text.rstrip (Text.lstrip ("-"%char :: ds)) = "-"%char :: ds)
      as Hstrip'.
    { rewrite lstrip_plain by (by intros ? [= <-]).
      apply rstrip_plain. intros c0 Hc0.
      rewrite Hds in Hc0. rewrite last_cons_cons in Hc0. rewrite <- Hds in Hc0.
      apply last_Some_elem_of in Hc0.
      by apply (proj1 (Forall_forall _ _) Hall), digit_plain in Hc0 as [? _]. }
    split_and!.
    + unfold Text.int. rewrite Hs', Hstrip'.
      change (Ascii.eqb "-" "-") with true. cbn match. by rewrite Hun.
    + unfold Text.strip. rewrite Hs', Hstrip', <- Hs'.
      apply string_of_list_ascii_of_string.
    + unfold Text.split. rewrite split_go_plain.
      * cbn [rev app]. by rewrite string_of_list_ascii_of_string.
      * rewrite Hs'. by constructor.
Qed.

(** X13: an integer of up to 4300 digits written by [str] is read back by
    [int] as the same integer; the text has no white space at its ends
    and no ": " inside, so [strip] leaves it as it is and [split] on
    ": " gives it as its only part. *)
Theorem int_str_round_trip (n : Z) :
  Z.abs n < 10 ^ 4300 →
  Text.int (Text.str n) = Some n
  ∧ Text.strip (Text.str n) = Text.str n
  ∧ Text.split (Text.str n) ": " = [Text.str n].
Proof. apply str_read_back. Qed.

Lemma int_str_round_trip_witness : Text.int (Text.str (-42)) = Some (-42).
Proof.
  apply (int_str_round_trip (-42)).
  apply (Z.lt_le_trans _ (10 ^ 2)); [reflexivity|].
  apply Z.pow_le_mono_r; lia.
Defined.

(** ** Any name and score written and read back *)

Lemma string_of_list_ascii_app (l1 l2 : list ascii) :
  string_of_list_ascii (l1 ++ l2)
  = string_of_list_ascii l1 +:+ string_of_list_ascii l2.
Proof. induction l1 as [|c l1 IH]; simpl; [done|by rewrite IH]. Qed.

(** The text that [str] writes is not empty and has neither white space
    nor a colon. *)
Lemma str_plain (n : Z) :
  list_ascii_of_string (Text.str n) ≠ []
  ∧ Forall (λ c, Text.isspace c = false ∧ c ≠ ":"%char)
      (list_ascii_of_string (Text.str n)).
Proof.
  assert (∀ p, ∃ ds, ds ≠ []
            ∧ Forall (λ c, Text.isspace c = false ∧ c ≠ ":"%char) ds
            ∧ list_ascii_of_string (pretty_N_go (N.pos p) "") = ds) as Hpos.
  { intros p.
    destruct (pretty_N_go_digits (N.pos p) ltac:(lia))
      as (ds & Hne & Hall & Hs & _).
    exists ds. split_and!; [done| |by rewrite Hs, app_nil_r].
    eapply Forall_impl; [exact Hall|]. intros c Hc.
    by apply digit_plain in Hc as (? & ? & _). }
  destruct n as [|p|p].
  - split; [done|]. by repeat constructor.
  - unfold Text.str, pretty, pretty_Z, pretty_positive, pretty, pretty_N.
    destruct (decide (N.pos p = 0%N)); [done|].
    destruct (Hpos p) as (ds & Hne & Hall & ->). done.
  - unfold Text.str, pretty, pretty_Z, pretty_positive, pretty, pretty_N.
    destruct (decide (N.pos p = 0%N)); [done|].
    destruct (Hpos p) as (ds & Hne & Hall & Hs).
    change (list_ascii_of_string ("-" +:+ pretty_N_go (N.pos p) ""))
      with ("-"%char :: list_ascii_of_string (pretty_N_go (N.pos p) "")).
    rewrite Hs. split; [done|]. constructor; [|done]. by split.
Qed.

Lemma split_go_nonempty sep (s : string) : ∀ skip cur,
  Text.split_go sep skip cur s ≠ [].
Proof.
  induction s as [|c s IH]; intros skip cur; [done|].
  cbn [Text.split_go]. destruct skip; [|apply IH].
  destruct (String.prefix sep (String c s)); [done|apply IH].
Qed.

(** A text that does not split on ": ", followed by ": " and more text,
    splits into itself and the parts of the rest. *)
Lemma split_single_extend (a : string) : ∀ cur x (d : string),
  Text.split_go ": " 0 cur a = [x] →
  Text.split_go ": " 0 cur (a +:+ ": " +:+ d)
  = x :: Text.split_go ": " 0 [] d.
Proof.
  induction a as [|c a IH]; intros cur x d Hx.
  { simpl in Hx. injection Hx as <-.
    change ("" +:+ ": " +:+ d) with (String ":" (String " " d)).
    cbn [Text.split_go String.prefix].
    destruct (ascii_dec ":" ":"); [|done].
    destruct (ascii_dec " " " "); [|done].
    replace (String.prefix "" d) with true by (by destruct d).
    reflexivity. }
  change (String c a +:+ ": " +:+ d) with (String c (a +:+ ": " +:+ d)).
  cbn [Text.split_go] in Hx |- *.
  destruct (String.prefix ": " (String c a)) eqn:Hpre.
  { injection Hx as _ Hx. by apply split_go_nonempty in Hx. }
  assert (String.prefix ": " (String c (a +:+ ": " +:+ d)) = false) as ->.
  { cbn [String.prefix] in Hpre |- *.
    destruct (ascii_dec ":" c); [|done].
    destruct a as [|c' a]; [reflexivity|].
    change (String c' a +:+ ": " +:+ d) with (String c' (a +:+ ": " +:+ d)).
    cbn [String.prefix] in Hpre |- *.
    destruct (ascii_dec " " c'); [|done]. by destruct a. }
  by apply IH.
Qed.

Lemma lstrip_app (l1 l2 : list ascii) :
  Text.lstrip l1 ≠ [] → Text.lstrip (l1 ++ l2) = Text.lstrip l1 ++ l2.
Proof.
  induction l1 as [|c l1 IH]; [done|]. simpl.
  destruct (Text.isspace c); [exact IH|done].
Qed.

Lemma lstrip_last (l : list ascii) c :
  last l = Some c → Text.isspace c = false →
  Text.lstrip l ≠ [] ∧ last (Text.lstrip l) = Some c.
Proof.
  induction l as [|c' l IH]; [done|]. intros Hl Hc. simpl.
  destruct (Text.isspace c') eqn:Hc'; [|done].
  destruct l as [|c'' l]; [|by apply IH].
  injection Hl as ->. congruence.
Qed.

Lemma rstrip_line (l : list ascii) c :
  last l = Some c → Text.isspace c = false →
  Text.rstrip (l ++ [Text.LF]) = l.
Proof.
  intros Hl Hc. unfold Text.rstrip. rewrite rev_app_distr. simpl.
  change (Text.isspace Text.LF) with true. cbn match.
  rewrite lstrip_plain; [apply rev_involutive|].
  intros c' Hc'. rewrite head_rev_last, Hl in Hc'. by injection Hc' as <-.
Qed.

Lemma readlines_go_one_line (l : list ascii) : ∀ cur,
  Forall (λ c, c ≠ Text.LF ∧ c ≠ Text.CR) l →
  Text.readlines_go cur (l ++ [Text.LF])
  = [string_of_list_ascii (rev cur ++ l ++ [Text.LF])].
Proof.
  induction l as [|c l IH]; intros cur Hall.
  { cbn [app Text.readlines_go]. change (Ascii.eqb Text.LF Text.LF) with true.
    cbn match. cbn [rev]. reflexivity. }
  apply Forall_cons in Hall as [[Hlf Hcr] Hall].
  cbn [app Text.readlines_go].
  destruct (Ascii.eqb_spec c Text.LF); [done|].
  destruct (Ascii.eqb_spec c Text.CR); [done|].
  rewrite IH by done. cbn [rev]. by rewrite <- app_assoc.
Qed.

(** The line that [write_scores] writes for a name without a line break
    is one line for [readlines]. *)
Lemma readlines_written (name : string) (score : Z) :
  one_line name →
  Text.readlines (name +:+ " - Score: " +:+ Text.str score +:+ nl)
  = [name +:+ " - Score: " +:+ Text.str score +:+ nl].
Proof.
  intros Hname. unfold Text.readlines.
  rewrite !list_ascii_of_string_app.
  change (list_ascii_of_string nl) with [Text.LF].
  rewrite !app_assoc. rewrite readlines_go_one_line.
  - cbn [rev app]. rewrite <- !app_assoc.
    rewrite !string_of_list_ascii_app, !string_of_list_ascii_of_string.
    reflexivity.
  - rewrite <- app_assoc. apply Forall_app. split; [exact Hname|].
    apply Forall_app. split; [by repeat constructor|].
    eapply Forall_impl; [exact (proj2 (str_plain score))|].
    intros c [Hc _]. split; intros ->; done.
Qed.

(** The line that [write_scores] writes, stripped. *)
Lemma strip_written (name : string) (score : Z) :
  let a := Text.lstrip (list_ascii_of_string (name +:+ " - Score")) in
  Text.strip (name +:+ " - Score") = string_of_list_ascii a
  ∧ Text.strip (name +:+ " - Score: " +:+ Text.str score +:+ nl)
    = string_of_list_ascii a +:+ ": " +:+ Text.str score
  ∧ Text.strip (name +:+ " - Score: " +:+ Text.str score)
    = string_of_list_ascii a +:+ ": " +:+ Text.str score.
Proof.
  cbn zeta.
  set (a := Text.lstrip (list_ascii_of_string (name +:+ " - Score"))).
  destruct (str_plain score) as [Hne Hplain].
  set (d := list_ascii_of_string (Text.str score)) in *.
  assert (last (list_ascii_of_string (name +:+ " - Score")) = Some "e"%char)
    as Hlast.
  { rewrite list_ascii_of_string_app, last_app. reflexivity. }
  destruct (lstrip_last _ _ Hlast eq_refl) as [Ha Hlasta]. fold a in Ha, Hlasta.
  assert (∃ c, last d = Some c ∧ Text.isspace c = false) as (c & Hc & Hsp).
  { destruct (last d) as [c|] eqn:Hc; [|by apply last_None in Hc].
    exists c. split; [done|]. apply last_Some_elem_of in Hc.
    by apply (proj1 (Forall_forall _ _) Hplain) in Hc as [? _]. }
  assert (last (a ++ [":"%char; " "%char] ++ d) = Some c) as Hlast'.
  { rewrite !last_app, Hc. done. }
  assert (list_ascii_of_string (name +:+ " - Score: " +:+ Text.str score)
          = list_ascii_of_string (name +:+ " - Score")
            ++ [":"%char; " "%char] ++ d) as Hbody.
  { rewrite !list_ascii_of_string_app. rewrite <- app_assoc. reflexivity. }
  assert (Text.lstrip
            (list_ascii_of_string (name +:+ " - Score: " +:+ Text.str score))
          = a ++ [":"%char; " "%char] ++ d) as Hl.
  { rewrite Hbody. by apply lstrip_app. }
  assert (string_of_list_ascii (a ++ [":"%char; " "%char] ++ d)
          = string_of_list_ascii a +:+ ": " +:+ Text.str score) as Hstr.
  { rewrite !string_of_list_ascii_app. unfold d.
    by rewrite string_of_list_ascii_of_string. }
  split_and!.
  - unfold Text.strip. fold a. rewrite rstrip_plain; [done|].
    intros c' Hc'. rewrite Hlasta in Hc'. by injection Hc' as <-.
  - unfold Text.strip.
    assert (list_ascii_of_string
              (name +:+ " - Score: " +:+ Text.str score +:+ nl)
            = list_ascii_of_string (name +:+ " - Score")
              ++ ([":"%char; " "%char] ++ d ++ [Text.LF])) as ->.
    { rewrite !list_ascii_of_string_app. rewrite <- app_assoc. reflexivity. }
    rewrite lstrip_app by done. fold a.
    replace (a ++ [":"%char; " "%char] ++ d ++ [Text.LF])
      with ((a ++ [":"%char; " "%char] ++ d) ++ [Text.LF])
      by (by rewrite <- !app_assoc).
    by rewrite (rstrip_line _ c Hlast' Hsp).
  - unfold Text.strip. rewrite Hl. rewrite rstrip_plain; [done|].
    intros c' Hc'. rewrite Hlast' in Hc'. by injection Hc' as <-.
Qed.

(** The turn of [read_scores] on the line that [write_scores] wrote. *)
Lemma read_line_written (name : string) (score : Z) l :
  length (parts_of (name +:+ " - Score")) = 1%nat →
  Z.abs score < 10 ^ 4300 →
  read_line l (name +:+ " - Score: " +:+ Text.str score +:+ nl)
  = Some (l ++ [(Text.strip (name +:+ " - Score: " +:+ Text.str score),
                 score)]).
Proof.
  intros Hparts Hscore.
  destruct (strip_written name score) as (Ha & Hline & Hbody).
  destruct (str_read_back score Hscore) as (Hint & Hstrip & Hsplit).
  unfold parts_of, Text.split in Hparts. rewrite Ha in Hparts.
  destruct (Text.split_go ": " 0 [] _) as [|x [|y parts]] eqn:Hx in Hparts;
    try done.
  unfold read_line. rewrite Hline, Hbody. unfold Text.split.
  rewrite (split_single_extend _ _ _ _ Hx).
  unfold Text.split in Hsplit. rewrite Hsplit.
  cbn [length Nat.eqb nth]. by rewrite Hstrip, Hint.
Qed.

(** X14: any name and score written and read back.  For a file that is
    missing, or that ends with a line end (or is empty) and that
    [read_scores] reads to its end, a name without a line break whose
    text followed by " - Score" does not split on ": ", and a score of
    up to 4300 digits: [write_scores] appends the line
    "<name> - Score: <score>" and returns [True], and [read_scores] on
    the file then returns [True] and appends the entries of the earlier
    lines followed by the entry of that line, stripped, with that
    score. *)
Theorem write_then_read_any (fs : filesystem) (path text name : string)
    (score : Z) (old score_list : list (string * Z)) :
  open_append fs path = Some text →
  ends_line text →
  read_lines [] (Text.readlines text) = (old, true) →
  one_line name →
  length (parts_of (name +:+ " - Score")) = 1%nat →
  Z.abs score < 10 ^ 4300 →
  write_scores fs name path score
  = (<[path := Data (text +:+ name +:+ " - Score: " +:+ Text.str score
                       +:+ nl)]> fs, true)
  ∧ read_scores (write_scores fs name path score).1 score_list path
    = (score_list ++ old
         ++ [(Text.strip (name +:+ " - Score: " +:+ Text.str score), score)],
       true).
Proof.
  intros Hopen Hend Hold Hname Hparts Hscore.
  assert (write_scores fs name path score
          = (<[path := Data (text +:+ name +:+ " - Score: "
                               +:+ Text.str score +:+ nl)]> fs, true))
    as Hwrite.
  { unfold write_scores. by rewrite Hopen. }
  split; [exact Hwrite|]. rewrite Hwrite. unfold read_scores, open_read.
  cbn [fst]. rewrite lookup_insert_eq.
  rewrite readlines_app; [|done|].
  2:{ rewrite list_ascii_of_string_app.
      destruct (list_ascii_of_string name) as [|c l] eqn:Hl; [done|].
      unfold one_line in Hname. rewrite Hl in Hname.
      apply Forall_cons in Hname as [[Hc _] _]. simpl. congruence. }
  rewrite <- (app_nil_r score_list) at 1. rewrite read_lines_init.
  rewrite (read_lines_app _ _ [] old Hold).
  rewrite readlines_written by done. cbn [read_lines].
  rewrite read_line_written by done. done.
Qed.

Lemma write_then_read_any_witness :
  read_scores (write_scores two_scores_file "Eve" DEFAULT_FILE 9).1 []
    DEFAULT_FILE
  = ([("Zoe - Score: 50", 50); ("Bob - Score: 7", 7);
      ("Eve - Score: 9", 9)]%string, true).
Proof.
  assert (ends_line two_scores) as Hend.
  { intros c Hc. vm_compute in Hc. injection Hc as <-. by left. }
  assert (one_line "Eve") as Hname.
  { unfold one_line. simpl. repeat constructor; discriminate. }
  assert (Z.abs 9 < 10 ^ 4300) as Hscore.
  { apply (Z.lt_le_trans _ (10 ^ 1)); [reflexivity|].
    apply Z.pow_le_mono_r; lia. }
  exact (proj2
    (write_then_read_any two_scores_file DEFAULT_FILE two_scores "Eve" 9
       [("Zoe - Score: 50", 50); ("Bob - Score: 7", 7)]%string []
       eq_refl Hend eq_refl Hname eq_refl Hscore)).
Defined.

(** ** The score menu *)

Lemma read_scores_init fs l path :
  read_scores fs l path
  = (l ++ (read_scores fs [] path).1, (read_scores fs [] path).2).
Proof.
  unfold read_scores. destruct (open_read fs path) as [text|].
  - rewrite <- (app_nil_r l) at 1. apply read_lines_init.
  - simpl. by rewrite app_nil_r.
Qed.

Lemma merged_scores_cases fs user_path is_user_given :
  let u := user_scores fs user_path is_user_given in
  let d := read_scores fs [] DEFAULT_FILE in
  merged_scores fs user_path is_user_given
  = (if d.2 then sort_scores (u.1 ++ d.1) else u.1 ++ d.1,
     if d.2 then (if u.2 then "Top 5 Scores"%string
                  else "Error reading user file!"%string)
     else "Error reading file!"%string).
Proof.
  cbn zeta. unfold merged_scores, user_scores.
  destruct is_user_given.
  - destruct (read_scores fs [] user_path) as [lu ru]. cbn [fst snd].
    rewrite (read_scores_init fs lu).
    destruct (read_scores fs [] DEFAULT_FILE) as [ld rd]. cbn [fst snd].
    by destruct rd, ru.
  - cbn [fst snd app].
    destruct (read_scores fs [] DEFAULT_FILE) as [ld rd]. cbn [fst snd].
    by destruct rd.
Qed.

Lemma pad_scores_spec l :
  pad_scores l = l ++ replicate (5 - length l) ("___"%string, 0)
  ∧ (5 ≤ length (pad_scores l))%nat
  ∧ length (pad_scores l) = max 5 (length l).
Proof.
  unfold pad_scores. destruct (Nat.ltb_spec (length l) 5) as [Hlt|Hge].
  - rewrite length_app, length_replicate. split_and!; [done|lia|lia].
  - replace (5 - length l)%nat with 0%nat by lia. simpl.
    rewrite app_nil_r. split_and!; [done|lia|lia].
Qed.

(** X15: the list that [top_scores_menu] shows.  It holds the entries
    read from the user's file, when one is given, and from the default
    file, filled up with ("___", 0) to five entries, so that its first
    five entries always exist.  When the default file was read to its
    end the entries are sorted by descending score, entries of the same
    score in the order they were read; when it was not, they are left in
    the order they were read and the title is "Error reading file!",
    whatever happened with the user's file.  The title is
    "Top 5 Scores" exactly when no read failed.  When the user's file
    is the default file, every entry of it is held twice. *)
Theorem top_scores_menu_shows (fs : filesystem) (user_path : string)
    (is_user_given : bool) :
  let u := user_scores fs user_path is_user_given in
  let d := read_scores fs [] DEFAULT_FILE in
  let merged := (merged_scores fs user_path is_user_given).1 in
  let shown := (top_scores_menu fs user_path is_user_given).1 in
  let title := (top_scores_menu fs user_path is_user_given).2 in
  shown = merged ++ replicate (5 - length merged) ("___"%string, 0)
  ∧ (∀ i, (i < 5)%nat → is_Some (shown !! i))
  ∧ length merged = (length u.1 + length d.1)%nat
  ∧ (d.2 = true →
     StronglySorted descending merged
     ∧ Permutation merged (u.1 ++ d.1)
     ∧ ∀ n, filter (λ x, x.2 = n) merged = filter (λ x, x.2 = n) (u.1 ++ d.1))
  ∧ (d.2 = false →
     merged = u.1 ++ d.1 ∧ title = "Error reading file!"%string)
  ∧ (title = "Top 5 Scores"%string ↔ u.2 = true ∧ d.2 = true)
  ∧ (d.2 = true → u.2 = false → title = "Error reading user file!"%string)
  ∧ (is_user_given = true → user_path = DEFAULT_FILE → u = d).
Proof.
  cbn zeta. unfold top_scores_menu.
  rewrite (merged_scores_cases fs user_path is_user_given). cbn zeta.
  set (u := user_scores fs user_path is_user_given).
  set (d := read_scores fs [] DEFAULT_FILE).
  cbn [fst snd].
  set (merged := if d.2 then sort_scores (u.1 ++ d.1) else u.1 ++ d.1).
  destruct (pad_scores_spec merged) as (Hpad & Hlen & _).
  assert (length merged = (length u.1 + length d.1)%nat) as Hmerged.
  { unfold merged. destruct d.2.
    - by rewrite (Permutation_length (sort_scores_perm _)), length_app.
    - by rewrite length_app. }
  split_and!.
  - exact Hpad.
  - intros i Hi. apply lookup_lt_is_Some. lia.
  - exact Hmerged.
  - intros Hd. unfold merged. rewrite Hd. split_and!.
    + apply sort_scores_sorted.
    + apply sort_scores_perm.
    + apply sort_scores_stable.
  - intros Hd. unfold merged. by rewrite Hd.
  - destruct d.2, u.2; split; (done || by intros [? ?]).
  - by intros -> ->.
  - intros Hg Hp. unfold u, d, user_scores. by rewrite Hg, Hp.
Qed.

(** ** Input fields *)

Lemma drop_last_snoc (s : string) (c : ascii) :
  drop_last (s +:+ String c "") = s.
Proof.
  unfold drop_last. rewrite list_ascii_of_string_app. simpl.
  rewrite removelast_last. apply string_of_list_ascii_of_string.
Qed.

Lemma handle_event_color (f : InputField.t) (event : Event) :
  InputField.color f = InputField.is_active f →
  InputField.color (InputField.handle_event f event).1
  = InputField.is_active (InputField.handle_event f event).1.
Proof.
  intros Hc. destruct event as [x y|b u| |]; simpl; try done.
  destruct (InputField.is_active f) eqn:Ha; simpl; congruence.
Qed.

(** What [handle_event] returns: the text of the field, when a click
    outside finds it active. *)
Lemma handle_event_result (f : InputField.t) (event : Event) (s : string) :
  (InputField.handle_event f event).2 = Some s
  ↔ (∃ x y, event = MOUSEBUTTONDOWN x y
            ∧ collidepoint (InputField.rect f) x y = false)
    ∧ InputField.is_active f = true ∧ s = InputField.text f.
Proof.
  destruct event as [x y|b u| |]; simpl.
  - destruct (InputField.is_active f) eqn:Ha,
      (collidepoint (InputField.rect f) x y) eqn:Hin; simpl; split;
      first [ by intros [= <-]; split; [exists x, y|]
            | intros ((x' & y' & [= <- <-] & Hout) & Hact & ->); congruence
            | done ].
  - destruct (InputField.is_active f); simpl; split; try done;
      by intros [(x & y & ? & _) _].
  - split; [done|]. by intros [(x & y & ? & _) _].
  - split; [done|]. by intros [(x & y & ? & _) _].
Qed.

(** X16: [InputField.handle_event].  It returns the text of the field
    exactly when a mouse click outside the rectangle finds the field
    active, and the field is inactive afterwards; a click makes the
    field active exactly when it is inside, the right and the bottom
    edge counting as outside; a key changes nothing of an inactive
    field and never the activity of a field; the colour follows the
    activity; the rectangle is never changed; and in an active field a
    character typed and then the backspace key leave the text as it
    was, while backspace on an empty text leaves it empty. *)
Theorem input_field_events (f : InputField.t) (event : Event) :
  let f' := (InputField.handle_event f event).1 in
  let res := (InputField.handle_event f event).2 in
  (∀ s, res = Some s
        ↔ (∃ x y, event = MOUSEBUTTONDOWN x y
                  ∧ collidepoint (InputField.rect f) x y = false)
          ∧ InputField.is_active f = true ∧ s = InputField.text f)
  ∧ (res ≠ None →
     InputField.is_active f' = false
     ∧ InputField.text f' = InputField.text f)
  ∧ (∀ x y, event = MOUSEBUTTONDOWN x y →
       InputField.is_active f'
       = bool_decide (rect_x (InputField.rect f) ≤ x
                        < rect_x (InputField.rect f) + rect_w (InputField.rect f)
                      ∧ rect_y (InputField.rect f) ≤ y
                        < rect_y (InputField.rect f) + rect_h (InputField.rect f))
       ∧ InputField.text f' = InputField.text f)
  ∧ (∀ b u, event = KEYDOWN b u →
       InputField.is_active f' = InputField.is_active f
       ∧ (InputField.is_active f = false → f' = f))
  ∧ InputField.rect f' = InputField.rect f
  ∧ (InputField.color f = InputField.is_active f →
     InputField.color f' = InputField.is_active f')
  ∧ (InputField.is_active f = true →
     (∀ c u,
        InputField.text
          (InputField.handle_event
             (InputField.handle_event f (KEYDOWN false (String c ""))).1
             (KEYDOWN true u)).1
        = InputField.text f)
     ∧ (InputField.text f = ""%string →
        ∀ u, InputField.text (InputField.handle_event f (KEYDOWN true u)).1
             = ""%string)).
Proof.
  cbn zeta. split_and!.
  - intros s. apply handle_event_result.
  - destruct event as [x y|b u| |]; simpl; try done.
    + destruct (InputField.is_active f) eqn:Ha, (collidepoint _ x y);
        simpl; done.
    + by destruct (InputField.is_active f) eqn:Ha.
  - intros x y ->. simpl. split; [|done]. unfold collidepoint.
    apply eq_true_iff_eq. rewrite bool_decide_eq_true.
    rewrite !andb_true_iff, !Z.leb_le, !Z.ltb_lt. tauto.
  - intros b u ->. simpl.
    destruct (InputField.is_active f) eqn:Ha; simpl; [done|]. done.
  - destruct event as [x y|b u| |]; simpl; try done.
    by destruct (InputField.is_active f).
  - apply handle_event_color.
  - intros Ha. split.
    + intros c u. simpl. rewrite Ha. simpl. rewrite ?Ha. simpl.
      apply drop_last_snoc.
    + intros Ht u. simpl. rewrite Ha. simpl. by rewrite Ht.
Qed.

(** ** The save menu *)

Lemma name_for_idem s : name_for (name_for s) = name_for s.
Proof.
  unfold name_for. destruct (String.eqb_spec s "") as [->|Hne]; [done|].
  by destruct (String.eqb_spec s "").
Qed.

Lemma path_for_idem s : path_for (path_for s) = path_for s.
Proof.
  unfold path_for. destruct (String.eqb_spec s "") as [->|Hne]; [done|].
  by destruct (String.eqb_spec s "").
Qed.

Lemma name_for_not_empty s : name_for s ≠ ""%string.
Proof. unfold name_for. by destruct (String.eqb_spec s ""). Qed.

(** What a field and the value taken from it are after an event, for a
    value that was the one for the text while the field was inactive. *)
Lemma field_event (for_text : string → string) (f : InputField.t)
    (value : string) (event : Event) :
  InputField.color f = InputField.is_active f →
  (InputField.is_active f = false →
   for_text value = for_text (InputField.text f)) →
  let f' := (InputField.handle_event f event).1 in
  let value' := default value (InputField.handle_event f event).2 in
  InputField.color f' = InputField.is_active f'
  ∧ (InputField.is_active f' = false →
     for_text value' = for_text (InputField.text f')).
Proof.
  intros Hc Hv. cbn zeta. split; [by apply handle_event_color|].
  destruct event as [x y|b u| |]; simpl; try done.
  - destruct (InputField.is_active f) eqn:Ha,
      (collidepoint (InputField.rect f) x y) eqn:Hin; simpl; done.
  - destruct (InputField.is_active f) eqn:Ha; simpl; [done|]. intros _. by apply Hv.
Qed.

Lemma on_event_inv m event :
  save_menu_inv m → save_menu_inv (SaveMenu.on_event m event).
Proof.
  intros (Hcn & Hcp & Hn & Hp & Hs). unfold SaveMenu.on_event.
  pose proof (field_event name_for _ _ event Hcn Hn) as [Hcn' Hn'].
  pose proof (field_event path_for _ _ event Hcp Hp) as [Hcp' Hp'].
  destruct (InputField.handle_event (SaveMenu.name_field m) event)
    as [nf rn].
  destruct (InputField.handle_event (SaveMenu.path_field m) event)
    as [pf rp].
  by split_and!.
Qed.

Lemma on_events_inv events : ∀ m,
  save_menu_inv m → save_menu_inv (fold_left SaveMenu.on_event events m).
Proof.
  induction events as [|event events IH]; intros m Hm; [done|].
  simpl. by apply IH, on_event_inv.
Qed.

Lemma on_event_saved m event :
  SaveMenu.is_saved (SaveMenu.on_event m event) = SaveMenu.is_saved m.
Proof.
  unfold SaveMenu.on_event.
  by destruct (InputField.handle_event (SaveMenu.name_field m) event),
    (InputField.handle_event (SaveMenu.path_field m) event).
Qed.

Lemma on_events_saved events : ∀ m,
  SaveMenu.is_saved (fold_left SaveMenu.on_event events m)
  = SaveMenu.is_saved m.
Proof.
  induction events as [|event events IH]; intros m; [done|].
  simpl. by rewrite IH, on_event_saved.
Qed.

(** The state in which a pass tries to save: while both fields are
    inactive, the name and the path are those for the texts of the
    fields. *)
Lemma defaults_inv m :
  save_menu_inv m →
  save_menu_inv (SaveMenu.defaults m)
  ∧ (SaveMenu.idle (SaveMenu.defaults m) = true →
     SaveMenu.name (SaveMenu.defaults m)
     = name_for (InputField.text (SaveMenu.name_field m))
     ∧ SaveMenu.path (SaveMenu.defaults m)
       = path_for (InputField.text (SaveMenu.path_field m))).
Proof.
  intros (Hcn & Hcp & Hn & Hp & Hs).
  unfold save_menu_inv, SaveMenu.defaults, SaveMenu.idle. simpl.
  fold (name_for (SaveMenu.name m)). fold (path_for (SaveMenu.path m)).
  rewrite name_for_idem, path_for_idem. split; [by split_and!|].
  intros [Hn0%negb_true_iff Hp0%negb_true_iff]%andb_true_iff.
  split; [by apply Hn|by apply Hp].
Qed.

(** The attempt to save either leaves the files, or appends the line of
    the name and the score to the checked path. *)
Lemma save_cases locked_exists fs m K_s score :
  let fs' := (SaveMenu.save locked_exists fs m K_s score).1 in
  let m' := (SaveMenu.save locked_exists fs m K_s score).2 in
  SaveMenu.name m' = SaveMenu.name m ∧ SaveMenu.path m' = SaveMenu.path m
  ∧ SaveMenu.name_field m' = SaveMenu.name_field m
  ∧ SaveMenu.path_field m' = SaveMenu.path_field m
  ∧ SaveMenu.running m' = SaveMenu.running m
  ∧ ((SaveMenu.is_saved m = true ↔ SaveMenu.text m = "Score saved!"%string) →
     (SaveMenu.is_saved m' = true ↔ SaveMenu.text m' = "Score saved!"%string))
  ∧ (fs' = fs ∧ SaveMenu.is_saved m' = SaveMenu.is_saved m
     ∨ K_s = true ∧ SaveMenu.is_saved m = false
       ∧ SaveMenu.is_saved m' = true
       ∧ SaveMenu.idle m = true
       ∧ check_file_path locked_exists fs (SaveMenu.path m) = true
       ∧ ∃ old, open_append fs (SaveMenu.path m) = Some old
           ∧ fs' = <[SaveMenu.path m :=
                       Data (old +:+ SaveMenu.name m +:+ " - Score: "
                               +:+ Text.str score +:+ nl)]> fs).
Proof.
  cbn zeta. unfold SaveMenu.save.
  destruct K_s; cbn [andb].
  2:{ cbn [fst snd]. split_and!; try done. by left. }
  destruct (SaveMenu.is_saved m) eqn:Hsaved; cbn [andb negb].
  { cbn [fst snd]. rewrite ?Hsaved. split_and!; try done. by left. }
  destruct (SaveMenu.idle m) eqn:Hidle.
  2:{ cbn [fst snd]. rewrite ?Hsaved. split_and!; try done. by left. }
  destruct (check_file_path _ _ _) eqn:Hcheck.
  2:{ simpl. rewrite ?Hsaved.
      split_and!; try done; try (by left); intros _; by split. }
  unfold write_scores.
  destruct (open_append fs (SaveMenu.path m)) as [old|] eqn:Hopen; simpl.
  - split_and!; try done. right. split_and!; try done. by exists old.
  - rewrite ?Hsaved.
    split_and!; try done; try (by left); intros _; by split.
Qed.

Lemma check_file_path_cases locked_exists fs p :
  check_file_path locked_exists fs p = true →
  p = DEFAULT_FILE
  ∨ (endswith (lower p) ".txt" = true ∧ is_Some (fs !! p)).
Proof.
  unfold check_file_path, path_exists.
  destruct (String.eqb_spec p DEFAULT_FILE) as [->|_]; [by left|].
  destruct (endswith (lower p) ".txt"); [|done].
  destruct (fs !! p) as [e|]; [|done]. right. by split; [|exists e].
Qed.

Lemma pass_spec locked_exists txt_width fs m events K_s K_b score :
  save_menu_inv m →
  let r := SaveMenu.pass locked_exists txt_width fs m events K_s K_b score in
  save_menu_inv r.1.2
  ∧ (r.1.1 = fs ∧ SaveMenu.is_saved r.1.2 = SaveMenu.is_saved m
     ∨ K_s = true ∧ SaveMenu.is_saved m = false
       ∧ SaveMenu.is_saved r.1.2 = true
       ∧ SaveMenu.idle r.1.2 = true
       ∧ SaveMenu.name r.1.2
         = name_for (InputField.text (SaveMenu.name_field r.1.2))
       ∧ SaveMenu.path r.1.2
         = path_for (InputField.text (SaveMenu.path_field r.1.2))
       ∧ check_file_path locked_exists fs (SaveMenu.path r.1.2) = true
       ∧ ∃ old, open_append fs (SaveMenu.path r.1.2) = Some old
           ∧ r.1.1 = <[SaveMenu.path r.1.2 :=
                         Data (old +:+ SaveMenu.name r.1.2 +:+ " - Score: "
                                 +:+ Text.str score +:+ nl)]> fs)
  ∧ (r.2 = true → K_b = true ∧ SaveMenu.idle r.1.2 = true).
Proof.
  intros Hm. cbn zeta. unfold SaveMenu.pass.
  pose proof (on_events_inv events m Hm) as H0.
  pose proof (on_events_saved events m) as Hs0.
  set (m0 := fold_left SaveMenu.on_event events m) in *.
  destruct (defaults_inv m0 H0) as [H1 Hnames].
  assert (SaveMenu.is_saved (SaveMenu.defaults m0) = SaveMenu.is_saved m)
    as Hs1 by done.
  assert (SaveMenu.name_field (SaveMenu.defaults m0) = SaveMenu.name_field m0
          ∧ SaveMenu.path_field (SaveMenu.defaults m0)
            = SaveMenu.path_field m0) as [Hf1 Hf2] by done.
  set (m1 := SaveMenu.defaults m0) in *.
  pose proof (save_cases locked_exists fs m1 K_s score)
    as (Hn & Hp & Hnf & Hpf & Hr & Hiff & Hcase).
  cbn zeta in *.
  destruct (SaveMenu.save locked_exists fs m1 K_s score) as [fs2 m2].
  cbn [fst snd] in *.
  assert (SaveMenu.idle m2 = SaveMenu.idle m1) as Hidle.
  { unfold SaveMenu.idle. by rewrite Hnf, Hpf. }
  assert (save_menu_inv m2) as H2.
  { destruct H1 as (Hcn & Hcp & Hn1 & Hp1 & Hs).
    unfold save_menu_inv. rewrite Hn, Hp, Hnf, Hpf. split_and!; try done.
    by apply Hiff. }
  assert (r_case :
    fs2 = fs ∧ SaveMenu.is_saved m2 = SaveMenu.is_saved m
    ∨ K_s = true ∧ SaveMenu.is_saved m = false
      ∧ SaveMenu.is_saved m2 = true
      ∧ SaveMenu.idle m2 = true
      ∧ SaveMenu.name m2
        = name_for (InputField.text (SaveMenu.name_field m2))
      ∧ SaveMenu.path m2
        = path_for (InputField.text (SaveMenu.path_field m2))
      ∧ check_file_path locked_exists fs (SaveMenu.path m2) = true
      ∧ ∃ old, open_append fs (SaveMenu.path m2) = Some old
          ∧ fs2 = <[SaveMenu.path m2 :=
                      Data (old +:+ SaveMenu.name m2 +:+ " - Score: "
                              +:+ Text.str score +:+ nl)]> fs).
  { destruct Hcase as [[-> Hsame]|(Hk & Hno & Hyes & Hid & Hcheck & Hw)].
    - left. split; [done|]. by rewrite Hsame.
    - right. destruct (Hnames Hid) as [Hname Hpath].
      rewrite Hn, Hp, Hnf, Hpf, Hidle, Hf1, Hf2.
      split_and!; try done. by rewrite <- Hs1. }
  destruct (K_b && SaveMenu.idle m2) eqn:Hback; cbn [fst snd].
  - split_and!; try done. intros _.
    by apply andb_true_iff in Hback.
  - split_and!; try done.
Qed.

(** X17: one pass of the save menu.  It appends at most one line: the
    files are left as they are unless the key s is pressed, nothing was
    saved before, both fields are inactive and the path passes
    [check_file_path]; then the line of the name and the score is
    appended to that path, the name being the text of the name field,
    or "Player" for an empty one, and the path the text of the path
    field, or the default file for an empty one.  A path other than the
    default file is never written to unless it ends in ".txt" and
    exists, so that no other file is ever created; and once the score is
    saved no pass writes again. *)
Theorem save_pass_writes (locked_exists : string → bool)
    (txt_width : string → Z) (fs : filesystem) (m : SaveMenu.t)
    (events : list Event) (K_s K_b : bool) (score : Z) :
  save_menu_inv m →
  let r := SaveMenu.pass locked_exists txt_width fs m events K_s K_b score in
  let fs' := r.1.1 in
  let m' := r.1.2 in
  save_menu_inv m'
  ∧ (fs' = fs ∧ SaveMenu.is_saved m' = SaveMenu.is_saved m
     ∨ K_s = true ∧ SaveMenu.is_saved m = false
       ∧ SaveMenu.is_saved m' = true
       ∧ SaveMenu.idle m' = true
       ∧ SaveMenu.name m'
         = name_for (InputField.text (SaveMenu.name_field m'))
       ∧ SaveMenu.path m'
         = path_for (InputField.text (SaveMenu.path_field m'))
       ∧ check_file_path locked_exists fs (SaveMenu.path m') = true
       ∧ ∃ old, open_append fs (SaveMenu.path m') = Some old
           ∧ fs' = <[SaveMenu.path m' :=
                       Data (old +:+ SaveMenu.name m' +:+ " - Score: "
                               +:+ Text.str score +:+ nl)]> fs)
  ∧ (∀ p, p ≠ DEFAULT_FILE →
       endswith (lower p) ".txt" = false ∨ fs !! p = None →
       fs' !! p = fs !! p)
  ∧ (SaveMenu.is_saved m = true → fs' = fs)
  ∧ (r.2 = true → K_b = true ∧ SaveMenu.idle m' = true).
Proof.
  intros Hm. cbn zeta.
  destruct (pass_spec locked_exists txt_width fs m events K_s K_b score Hm)
    as (Hinv & Hcase & Hret).
  split_and!; try done.
  - intros p Hp Hbad.
    destruct Hcase as [[-> _]|(_ & _ & _ & _ & _ & _ & Hcheck & old & _ & ->)];
      [done|].
    apply lookup_insert_ne. intros <-.
    apply check_file_path_cases in Hcheck as [?|[Hext [e He]]]; [done|].
    destruct Hbad as [?|?]; congruence.
  - intros Hsaved. destruct Hcase as [[-> _]|(_ & ? & _)]; [done|congruence].
Qed.

Lemma passes_spec locked_exists txt_width score inputs : ∀ fs m,
  save_menu_inv m →
  let r := SaveMenu.passes locked_exists txt_width fs m inputs score in
  save_menu_inv r.2
  ∧ (r.1 = fs ∧ SaveMenu.is_saved r.2 = SaveMenu.is_saved m
     ∨ SaveMenu.is_saved m = false ∧ SaveMenu.is_saved r.2 = true
       ∧ ∃ name path old,
           name ≠ ""%string
           ∧ check_file_path locked_exists fs path = true
           ∧ open_append fs path = Some old
           ∧ r.1 = <[path := Data (old +:+ name +:+ " - Score: "
                                     +:+ Text.str score +:+ nl)]> fs).
Proof.
  induction inputs as [|[[events K_s] K_b] inputs IH]; intros fs m Hm.
  { cbn zeta. simpl. split; [done|by left]. }
  cbn zeta. cbn [SaveMenu.passes].
  destruct (SaveMenu.running m); [|simpl; split; [done|by left]].
  destruct (pass_spec locked_exists txt_width fs m events K_s K_b score Hm)
    as (Hinv & Hcase & _).
  cbn zeta in Hinv, Hcase.
  destruct (SaveMenu.pass locked_exists txt_width fs m events K_s K_b score)
    as [[fs1 m1] returned].
  cbn [fst snd] in Hinv, Hcase.
  assert (fs1 = fs ∧ SaveMenu.is_saved m1 = SaveMenu.is_saved m
     ∨ SaveMenu.is_saved m = false ∧ SaveMenu.is_saved m1 = true
       ∧ ∃ name path old,
           name ≠ ""%string
           ∧ check_file_path locked_exists fs path = true
           ∧ open_append fs path = Some old
           ∧ fs1 = <[path := Data (old +:+ name +:+ " - Score: "
                                     +:+ Text.str score +:+ nl)]> fs)
    as Hcase1.
  { destruct Hcase as [?|(_ & Hno & Hyes & _ & Hname & _ & Hcheck
                          & old & Hopen & ->)]; [by left|].
    right. split_and!; try done.
    exists (SaveMenu.name m1), (SaveMenu.path m1), old.
    split_and!; try done. rewrite Hname. apply name_for_not_empty. }
  destruct returned; [done|].
  destruct (IH fs1 m1 Hinv) as [Hinv' Hcase']. cbn zeta in Hinv', Hcase'.
  split; [done|].
  destruct Hcase1 as [[-> Hs1]|(Hno & Hyes & Hw)].
  - rewrite <- Hs1. exact Hcase'.
  - right. destruct Hcase' as [[-> Hs']|[? _]]; [|congruence].
    split_and!; try done. by rewrite Hs'.
Qed.

Lemma save_menu_init_inv : save_menu_inv SaveMenu.init.
Proof. unfold save_menu_inv. simpl. split_and!; done. Qed.

(** X18: a visit to the save menu, whatever the events and keys of its
    passes.  It appends at most one line in all: the files end as they
    were, or with the line of one non-empty name and the score appended
    to one path that passed [check_file_path], and then the menu shows
    "Score saved!".  Throughout, a field shows the active colour
    exactly when it is active. *)
Theorem save_menu_visit (locked_exists : string → bool)
    (txt_width : string → Z) (fs : filesystem)
    (inputs : list (list Event * bool * bool)) (score : Z) :
  let r := SaveMenu.passes locked_exists txt_width fs SaveMenu.init inputs
             score in
  save_menu_inv r.2
  ∧ (r.1 = fs ∧ SaveMenu.is_saved r.2 = false
     ∨ SaveMenu.is_saved r.2 = true
       ∧ SaveMenu.text r.2 = "Score saved!"%string
       ∧ ∃ name path old,
           name ≠ ""%string
           ∧ check_file_path locked_exists fs path = true
           ∧ open_append fs path = Some old
           ∧ r.1 = <[path := Data (old +:+ name +:+ " - Score: "
                                     +:+ Text.str score +:+ nl)]> fs).
Proof.
  cbn zeta.
  destruct (passes_spec locked_exists txt_width score inputs fs SaveMenu.init
              save_menu_init_inv) as [Hinv Hcase].
  cbn zeta in Hinv, Hcase. split; [done|].
  destruct Hcase as [?|(_ & Hyes & Hw)]; [by left|].
  right. split_and!; try done.
  by apply Hinv.
Qed.

(** A visit in which "Eve" is typed into the name field, with one
    character typed too many and erased, and the key s is pressed in
    the next pass. *)
Example save_menu_eve :
  (SaveMenu.passes (λ _, false) (λ _, 0) two_scores_file SaveMenu.init
     [(typing_eve, false, false); ([], true, false)] 9).1
  = {[ DEFAULT_FILE := Data (two_scores +:+ "Eve - Score: 9" +:+ nl) ]}.
Proof. vm_compute. reflexivity. Qed.

Lemma save_pass_writes_witness :
  save_menu_inv
    (SaveMenu.pass (λ _, false) (λ _, 0) two_scores_file SaveMenu.init
       typing_eve false false 9).1.2.
Proof.
  exact (proj1 (save_pass_writes (λ _, false) (λ _, 0) two_scores_file
                  SaveMenu.init typing_eve false false 9
                  save_menu_init_inv)).
Defined.

(** ** Buttons *)

Lemma Qle_bool_inject (a b : Z) :
  Qle_bool (inject_Z a) (inject_Z b) = (a <=? b).
Proof.
  apply eq_true_iff_eq. rewrite Qle_bool_iff, <- Zle_Qle. symmetry.
  apply Z.leb_le.
Qed.

Lemma Button_hover_plain sprite w h x y mouse_x mouse_y :
  y ≠ -1 →
  Button_hover (Button_init sprite w h x y 0 "N/A") mouse_x mouse_y
  = bool_decide (x < mouse_x < x + w ∧ y < mouse_y < y + h).
Proof.
  intros Hy. unfold Button_hover, Button_init, Entity_init, check_imagePath.
  cbn [String.eqb Ascii.eqb Bool.eqb negb andb width height x_pos y_pos].
  assert (Qeq_bool (inject_Z y) (-1) = false) as ->.
  { apply not_true_iff_false. intros H%Qeq_bool_iff.
    unfold Qeq in H. simpl in H. lia. }
  rewrite <- !inject_Z_plus, !Qle_bool_inject.
  apply eq_true_iff_eq. rewrite bool_decide_eq_true.
  rewrite !andb_true_iff, !negb_true_iff, !Z.leb_gt. tauto.
Qed.


(** The positions of the buttons of the two menus. *)
Lemma menu_buttons_hover sprite mouse_x mouse_y :
  map (λ b, Button_hover b mouse_x mouse_y) (main_menu_buttons sprite)
  = [bool_decide (250 < mouse_x < 250 + 200 ∧ 450 < mouse_y < 450 + 80);
     bool_decide (200 < mouse_x < 200 + 300 ∧ 575 < mouse_y < 575 + 80);
     bool_decide (250 < mouse_x < 250 + 200 ∧ 700 < mouse_y < 700 + 80)]
  ∧ map (λ b, Button_hover b mouse_x mouse_y) (game_over_buttons sprite)
  = [bool_decide (250 < mouse_x < 250 + 200 ∧ 450 < mouse_y < 450 + 80);
     bool_decide (250 < mouse_x < 250 + 200 ∧ 570 < mouse_y < 570 + 80);
     bool_decide (250 < mouse_x < 250 + 200 ∧ 690 < mouse_y < 690 + 80)].
Proof.
  unfold main_menu_buttons, game_over_buttons, SCREEN_W, SCREEN_H.
  change (700 / 2 - 100) with 250. change (700 / 2 - 150) with 200.
  change (900 / 2 + 125) with 575. change (900 / 2 + 250) with 700.
  change (900 / 2 + 120) with 570. change (900 / 2 + 240) with 690.
  change (900 / 2) with 450.
  cbn [map]. by rewrite !Button_hover_plain by lia.
Qed.

(** X19: a button is hovered exactly when the mouse is strictly inside
    it, its four edges counting as outside, and the action of a button
    that has one is called exactly when it is hovered and the mouse
    button is pressed; in the
    main menu and in the game-over menu no mouse position hovers two
    buttons, and every hovered position is on the screen. *)
Theorem buttons_apart (sprite : string → bool) (mouse_x mouse_y : Z) :
  (∀ w h x y pressed, y ≠ -1 →
     Button_draw (Button_init sprite w h x y 0 "N/A") mouse_x mouse_y pressed
     = bool_decide (x < mouse_x < x + w ∧ y < mouse_y < y + h) && pressed)
  ∧ ∀ buttons,
      buttons = main_menu_buttons sprite ∨ buttons = game_over_buttons sprite →
      (length (filter (λ b, Button_hover b mouse_x mouse_y = true) buttons)
       ≤ 1)%nat
      ∧ ∀ b, b ∈ buttons → Button_hover b mouse_x mouse_y = true →
             0 < mouse_x < SCREEN_W ∧ 0 < mouse_y < SCREEN_H.
Proof.
  split.
  { intros w h x y pressed Hy. unfold Button_draw.
    by rewrite Button_hover_plain. }
  pose proof (menu_buttons_hover sprite mouse_x mouse_y) as [Hm Ho].
  unfold SCREEN_W, SCREEN_H.
  intros buttons [-> | ->].
  - unfold main_menu_buttons in *. cbn [map] in Hm.
    injection Hm as H1 H2 H3. split.
    + rewrite !filter_cons, filter_nil. rewrite H1, H2, H3.
      repeat match goal with
             | |- context [bool_decide ?P] =>
                 destruct (bool_decide_reflect P)
             end; simpl; lia.
    + intros b Hb.
      repeat (apply elem_of_cons in Hb as [->|Hb]);
        [..|by apply elem_of_nil in Hb];
        rewrite ?H1, ?H2, ?H3; intros H%bool_decide_eq_true; lia.
  - unfold game_over_buttons in *. cbn [map] in Ho.
    injection Ho as H1 H2 H3. split.
    + rewrite !filter_cons, filter_nil. rewrite H1, H2, H3.
      repeat match goal with
             | |- context [bool_decide ?P] =>
                 destruct (bool_decide_reflect P)
             end; simpl; lia.
    + intros b Hb.
      repeat (apply elem_of_cons in Hb as [->|Hb]);
        [..|by apply elem_of_nil in Hb];
        rewrite ?H1, ?H2, ?H3; intros H%bool_decide_eq_true; lia.
Qed.

(** ** The aliens of a session *)

Lemma descends_from_refl sprite t x :
  descends_from (alien_of sprite t x) (alien_of sprite t x).
Proof.
  unfold descends_from. split_and!; try done.
  - apply Qle_refl.
  - intros r Hr. by exists r.
  - unfold alien_of. by repeat case_decide.
  - unfold alien_of. by repeat case_decide.
  - unfold alien_of. by repeat case_decide.
  - unfold alien_of, Spaceship_init, Bullet_init, Entity_init, check_imagePath.
    by repeat case_decide.
  - unfold alien_of, Spaceship_init, Bullet_init, Entity_init, check_imagePath.
    by repeat case_decide.
  - unfold alien_of, Spaceship_init, Bullet_init, Entity_init, check_imagePath.
    by repeat case_decide.
Qed.

Lemma alien_of_speed sprite t x : (0 < speed (alien_of sprite t x))%Q.
Proof.
  unfold alien_of, Spaceship_init, Entity_init, check_imagePath.
  repeat case_decide; cbn [ship_entity]; by destruct (_ && _).
Qed.

Lemma enemy_move_descends (a0 a a1 : Spaceship) :
  (0 < speed a0)%Q →
  descends_from a0 a →
  Spaceship_move a 1 SCREEN_W SCREEN_H = Some a1 →
  descends_from a0 a1.
Proof.
  intros Hpos (Hw & Hh & Hs & Hx & Hi & Hy & Hr & Hp & Hhl & Hd & Ht & Hdm
               & Hbs & Hbw & Hbh) Hmove.
  unfold Spaceship_move in Hmove. rewrite Hp in Hmove.
  apply bind_Some in Hmove as (r & Hpr & Hmove).
  assert (y_pos a0 <= y_pos a + speed a * inject_Z 1)%Q as Hy'.
  { rewrite Hs. change (inject_Z 1) with 1%Q. lra. }
  destruct (_ <=? _); injection Hmove as <-; unfold descends_from; simpl;
    split_and!; try done; intros r' [= <-]; simpl; by apply Hr.
Qed.

Lemma Bullet_move_kind b direction :
  damage (Bullet_move b direction SCREEN_W SCREEN_H) = damage b
  ∧ speed (Bullet_move b direction SCREEN_W SCREEN_H) = speed b
  ∧ width (Bullet_move b direction SCREEN_W SCREEN_H) = width b
  ∧ height (Bullet_move b direction SCREEN_W SCREEN_H) = height b.
Proof. unfold Bullet_move. by destruct (_ || _). Qed.

Lemma alien_fire_descends (a0 a a' : Spaceship) :
  descends_from a0 a → alien_fire a = Some a' → descends_from a0 a'.
Proof.
  intros (Hw & Hh & Hs & Hx & Hi & Hy & Hr & Hp & Hhl & Hd & Ht & Hdm
          & Hbs & Hbw & Hbh) Hfire.
  unfold alien_fire in Hfire. apply bind_Some in Hfire as (a1 & Ha1 & [= <-]).
  assert (ship_entity a1 = ship_entity a ∧ is_player a1 = is_player a
          ∧ health a1 = health a ∧ shoot_delay a1 = shoot_delay a
          ∧ 0 ≤ shoot_timer a1
          ∧ damage (bullet a1) = damage (bullet a)
          ∧ speed (bullet a1) = speed (bullet a)
          ∧ width (bullet a1) = width (bullet a)
          ∧ height (bullet a1) = height (bullet a))
    as (He & Hp1 & Hh1 & Hd1 & Ht1 & Hdm1 & Hbs1 & Hbw1 & Hbh1).
  { destruct (negb _); [|by injection Ha1 as <-].
    unfold alien_shoot in Ha1. destruct (_ && _).
    - apply bind_Some in Ha1 as (s & Hs1 & [= <-]).
      unfold shoot in Hs1. apply bind_Some in Hs1 as (r & _ & [= <-]).
      simpl. split_and!; try done.
    - injection Ha1 as <-. simpl. split_and!; try done. lia. }
  unfold descends_from. cbn [ship_entity set_bullet is_player health
    shoot_delay shoot_timer bullet].
  unfold move_bullets.
  destruct (is_fired (bullet a1));
    rewrite ?(proj1 (Bullet_move_kind _ _)),
      ?(proj1 (proj2 (Bullet_move_kind _ _))),
      ?(proj1 (proj2 (proj2 (Bullet_move_kind _ _)))),
      ?(proj2 (proj2 (proj2 (Bullet_move_kind _ _))));
    rewrite He, Hp1, Hh1, Hd1, Hdm1, Hbs1, Hbw1, Hbh1; split_and!; done.
Qed.

Lemma alien_turn_kind sprite i a g g' stop :
  Forall (alien_kind sprite) (alien_list g) →
  alien_list g !! i = Some a →
  alien_turn i a g = Some (g', stop) →
  Forall (alien_kind sprite) (alien_list g').
Proof.
  intros Hall Hi Hturn.
  pose proof (Forall_lookup_1 _ _ _ _ Hall Hi)
    as (t & x & lane & Ht & Hl & Ha).
  pose proof (alien_of_speed sprite t x) as Hpos.
  apply alien_turn_cases in Hturn
    as [(_ & -> & _)|[(_ & a1 & Hmove & _ & -> & _)|Hplay]].
  - done.
  - simpl. apply Forall_insert; [done|]. exists t, x, lane.
    split; [done|]. split; [done|]. by eapply enemy_move_descends.
  - destruct Hplay as (_ & a1 & a2 & hit & struck & Hmove & _ & Hfire & _ & _
                       & _ & _ & _ & -> & _).
    destruct hit; [by apply Forall_delete|].
    apply Forall_insert; [done|]. exists t, x, lane.
    split; [done|]. split; [done|].
    pose proof (enemy_move_descends _ _ _ Hpos Ha Hmove) as H1.
    pose proof (alien_fire_descends _ _ _ H1 Hfire) as H2.
    destruct struck; [|done].
    destruct H2 as (Hw & Hh & Hs & Hx & Hi' & Hy & Hr & Hp & Hhl & Hd & Ht'
                    & Hdm & Hbs & Hbw & Hbh).
    unfold descends_from. simpl. split_and!; done.
Qed.

Lemma frame_kind sprite keys g g' :
  Forall (alien_kind sprite) (alien_list g) →
  outcome (frame sprite keys g) g' →
  Forall (alien_kind sprite) (alien_list g').
Proof.
  intros Hall (_ & p & aliens & g2 & _ & Ha & Hloop & Hheart)%frame_steps.
  apply heart_section_keeps in Hheart as (_ & _ & -> & _).
  refine (alien_loop_keeps (λ h, Forall (alien_kind sprite) (alien_list h))
            _ _ _ _ _ _ Hloop).
  - intros i a h h' stop Hh Hi Hturn. by eapply alien_turn_kind.
  - simpl. destruct (_ <? _); [|by subst].
    apply load_aliens_lanes in Ha
      as (ta & la & xa & tb & lb & xb & Hta & Htb & Hla & Hlb & _ & ->).
    apply Forall_app. split; [done|].
    constructor.
    { exists ta, xa, la. split; [done|]. split; [done|].
      apply descends_from_refl. }
    constructor.
    { exists tb, xb, lb. split; [done|]. split; [done|].
      apply descends_from_refl. }
    constructor.
Qed.

Lemma reachable_kind sprite g :
  reachable sprite g → Forall (alien_kind sprite) (alien_list g).
Proof.
  induction 1 as [|keys g g' _ IH Hframe].
  - constructor.
  - by eapply frame_kind.
Qed.

(** X20: every alien of a session is one of the three types, spawned at
    a position of one of the lanes, with everything it was created with
    but its way down, its bullet in flight and its timer: it keeps its
    size, speed and column, never moves sideways or up, has health 1, a
    timer that is not negative, and a bullet of size 5 x 20 and speed 30
    whose damage is 10, 25 or 50. *)
Theorem aliens_keep_their_kind (sprite : string → bool) (g : Game) :
  reachable sprite g →
  Forall (λ a : Spaceship,
            alien_kind sprite a
            ∧ (width a = 100 ∧ damage (bullet a) = 10 ∧ shoot_delay a = 50
               ∨ width a = 120 ∧ damage (bullet a) = 25 ∧ shoot_delay a = 75
               ∨ width a = 150 ∧ damage (bullet a) = 50
                 ∧ shoot_delay a = 100))
    (alien_list g).
Proof.
  intros Hreach. eapply Forall_impl; [by apply reachable_kind|].
  intros a Hkind. split; [done|].
  destruct Hkind as (t & x & lane & Ht & _ & Hw & _ & _ & _ & _ & _ & _ & _
                     & _ & Hd & _ & Hdm & _).
  rewrite Hw, Hd, Hdm.
  assert (t = 1 ∨ t = 2 ∨ t = 3) as [->|[->| ->]] by lia;
    [left|right; left|right; right];
    unfold alien_of, Spaceship_init, Bullet_init, Entity_init,
      check_imagePath; simpl; by destruct (sprite _).
Qed.

Lemma aliens_keep_their_kind_witness :
  Forall (alien_kind all_sprites) (alien_list sample_state).
Proof.
  eapply Forall_impl;
    [exact (aliens_keep_their_kind all_sprites sample_state
              sample_state_reachable)|].
  by intros a [Ha _].
Defined.

(** ** The way down of the aliens of a session *)

Lemma on_track_refl (a : Spaceship) : on_track a a.
Proof.
  unfold on_track. split_and!; try done. exists 0%nat.
  change (inject_Z (Z.of_nat 0)) with 0%Q. ring.
Qed.

Lemma on_track_entity (a0 a a' : Spaceship) :
  ship_entity a' = ship_entity a → on_track a0 a → on_track a0 a'.
Proof. unfold on_track. by intros ->. Qed.

Lemma enemy_move_track (a0 a a1 : Spaceship) :
  is_player a = false →
  on_track a0 a →
  Spaceship_move a 1 SCREEN_W SCREEN_H = Some a1 →
  on_track a0 a1.
Proof.
  intros Hp (Hh & Hs & Hr & k & Hy) Hmove.
  unfold Spaceship_move in Hmove. rewrite Hp in Hmove.
  apply bind_Some in Hmove as (r & Hpr & Hmove).
  assert (is_Some (placeholder a0)) as Hr0 by (apply Hr; by eexists).
  assert (y_pos a + speed a * inject_Z 1
          == y_pos a0 + inject_Z (Z.of_nat (S k)) * speed a0)%Q as Hy'.
  { rewrite Hy, Hs, Nat2Z.inj_succ. unfold Z.succ.
    rewrite inject_Z_plus. change (inject_Z 1) with 1%Q. ring. }
  destruct (_ <=? _); injection Hmove as <-; unfold on_track; simpl;
    (split_and!; [done|done|done|by exists (S k)]).
Qed.

Lemma alien_turn_track sprite i a g g' stop :
  Forall alien_shape (alien_list g) →
  Forall (alien_track sprite) (alien_list g) →
  alien_list g !! i = Some a →
  alien_turn i a g = Some (g', stop) →
  Forall (alien_track sprite) (alien_list g').
Proof.
  intros Hshape Hall Hi Hturn.
  pose proof (Forall_lookup_1 _ _ _ _ Hall Hi) as (t & x & Ht & Ha).
  pose proof (Forall_lookup_1 _ _ _ _ Hshape Hi) as [Hp _].
  apply alien_turn_cases in Hturn
    as [(_ & -> & _)|[(_ & a1 & Hmove & _ & -> & _)|Hplay]].
  - done.
  - simpl. apply Forall_insert; [done|]. exists t, x.
    split; [done|]. by eapply enemy_move_track.
  - destruct Hplay as (_ & a1 & a2 & hit & struck & Hmove & _ & Hfire & _ & _
                       & _ & _ & _ & -> & _).
    destruct hit; [by apply Forall_delete|].
    apply Forall_insert; [done|]. exists t, x. split; [done|].
    pose proof (enemy_move_track _ _ _ Hp Ha Hmove) as H1.
    apply alien_fire_keeps in Hfire as (_ & _ & He & _).
    pose proof (on_track_entity _ _ _ He H1) as H2.
    destruct struck; [|done].
    by apply (on_track_entity _ a2).
Qed.

Lemma frame_track sprite keys g g' :
  shape_inv g →
  Forall (alien_track sprite) (alien_list g) →
  outcome (frame sprite keys g) g' →
  Forall (alien_track sprite) (alien_list g').
Proof.
  intros Hshape Hall Hframe.
  pose proof Hframe as (_ & p & aliens & g2 & Hc & Ha & Hloop & Hheart)%frame_steps.
  apply heart_section_keeps in Hheart as (_ & _ & -> & _).
  assert (shape_inv g2 ∧ Forall (alien_track sprite) (alien_list g2))
    as [_ H2]; [|done].
  refine (alien_loop_keeps
            (λ h, shape_inv h ∧ Forall (alien_track sprite) (alien_list h))
            _ _ _ _ _ _ Hloop).
  - intros i a h h' stop [Hs Ht] Hi Hturn. split.
    + by eapply alien_turn_shape.
    + eapply alien_turn_track; [exact (proj2 Hs)|done..].
  - assert (Forall (alien_track sprite) aliens) as Htrack.
    { destruct (_ <? _); [|by subst].
      apply load_aliens_lanes in Ha
        as (ta & la & xa & tb & lb & xb & Hta & Htb & _ & _ & _ & ->).
      apply Forall_app. split; [done|].
      constructor; [exists ta, xa; split; [done|apply on_track_refl]|].
      constructor; [exists tb, xb; split; [done|apply on_track_refl]|].
      constructor. }
    assert (Forall alien_shape aliens) as Hsh.
    { destruct (_ <? _); [|subst; apply Hshape].
      apply load_aliens_lanes in Ha
        as (ta & la & xa & tb & lb & xb & Hta & Htb & _ & _ & _ & ->).
      apply Forall_app. split; [apply Hshape|].
      assert (∀ t x, 1 ≤ t ≤ 3 → alien_shape (alien_of sprite t x)) as Hof.
      { intros t x Ht.
        assert (t = 1 ∨ t = 2 ∨ t = 3) as [->|[->| ->]] by lia;
          unfold alien_shape, alien_of, Spaceship_init, Entity_init,
            check_imagePath; simpl; by destruct (sprite _). }
      repeat constructor; by apply Hof. }
    apply (player_controls_shape _ _ _ (proj1 Hshape)) in Hc.
    split; [|done]. split; [done|done].
Qed.

Lemma reachable_track sprite g :
  reachable sprite g → Forall (alien_track sprite) (alien_list g).
Proof.
  induction 1 as [|keys g g' Hreach IH Hframe].
  - constructor.
  - eapply frame_track; [by apply (reachable_shape sprite)|done..].
Qed.

(** The alien that [load_aliens] builds, when it has its rectangle. *)
Lemma alien_of_start sprite t x :
  1 ≤ t ≤ 3 →
  is_Some (placeholder (alien_of sprite t x)) →
  let a := alien_of sprite t x in
  (height a = 100 ∧ speed a = 3%Q ∧ (y_pos a == -150)%Q)
  ∨ (height a = 120 ∧ speed a = (3 # 2)%Q ∧ (y_pos a == -180)%Q)
  ∨ (height a = 150 ∧ speed a = (3 # 4)%Q ∧ (y_pos a == -225)%Q).
Proof.
  intros Ht. cbn zeta.
  assert (t = 1 ∨ t = 2 ∨ t = 3) as [->|[->| ->]] by lia;
    unfold alien_of, Spaceship_init, Entity_init, check_imagePath;
    cbn [decide decide_rel Z.eq_dec]; simpl;
    destruct (sprite _); simpl; intros [r Hr]; try done;
    [left|right; left|right; right]; by split_and!.
Qed.

(** In a session an alien is killed by its move exactly when the lower
    edge of its float position is at or below the line: the positions
    on its way down are such that rounding makes no difference. *)
Lemma track_line sprite (a a1 : Spaceship) :
  alien_track sprite a →
  is_player a = false →
  is_killed a = false →
  Spaceship_move a 1 SCREEN_W SCREEN_H = Some a1 →
  is_killed a1 = true
  ↔ (inject_Z (SCREEN_H - 120) <= y_pos a1 + inject_Z (height a1))%Q.
Proof.
  intros (t & x & Ht & Hh & Hs & Hr & k & Hy) Hp Hk Hmove.
  pose proof Hmove as Hmove'.
  unfold Spaceship_move in Hmove'. rewrite Hp in Hmove'.
  apply bind_Some in Hmove' as (r & Hpr & _).
  destruct (enemy_move a r 1 SCREEN_W SCREEN_H Hp Hpr)
    as (a1' & r1 & Hmove1 & Hr1 & Hy1 & Hry & Hh1 & Hkilled).
  rewrite Hmove in Hmove1. injection Hmove1 as <-.
  rewrite Hkilled, Hk. cbn [orb]. rewrite Z.leb_le, Hry, Hh1.
  unfold SCREEN_H.
  set (m := Z.of_nat k + 1).
  assert (0 < m) as Hm by lia.
  assert (y_pos a1 == y_pos (alien_of sprite t x)
                      + inject_Z m * speed (alien_of sprite t x))%Q as Hym.
  { rewrite Hy1, Hy, Hs. unfold m. rewrite inject_Z_plus.
    change (inject_Z 1) with 1%Q. ring. }
  clearbody m. clear Hy Hy1 Hkilled Hry.
  assert (is_Some (placeholder (alien_of sprite t x))) as Hr0.
  { apply Hr. by eexists. }
  destruct (alien_of_start sprite t x Ht Hr0)
    as [(Hh0 & Hs0 & Hy0)|[(Hh0 & Hs0 & Hy0)|(Hh0 & Hs0 & Hy0)]];
    rewrite Hs0, Hy0 in Hym; rewrite Hh, Hh0.
  - transitivity (680 ≤ to_int (y_pos a1)); [lia|].
    rewrite to_int_ge by lia. change (inject_Z 680) with 680%Q.
    change (inject_Z (900 - 120)) with 780%Q.
    change (inject_Z 100) with 100%Q.
    split; intros H; [|lra].
    assert (inject_Z 276 < inject_Z m)%Q as Hlt.
    { change (inject_Z 276) with 276%Q. lra. }
    rewrite <- Zlt_Qlt in Hlt.
    assert (inject_Z 277 <= inject_Z m)%Q as Hle.
    { rewrite <- Zle_Qle. lia. }
    change (inject_Z 277) with 277%Q in Hle. lra.
  - transitivity (660 ≤ to_int (y_pos a1)); [lia|].
    rewrite to_int_ge by lia. change (inject_Z 660) with 660%Q.
    change (inject_Z (900 - 120)) with 780%Q.
    change (inject_Z 120) with 120%Q.
    split; intros H; [|lra].
    assert (inject_Z 559 < inject_Z m)%Q as Hlt.
    { change (inject_Z 559) with 559%Q. lra. }
    rewrite <- Zlt_Qlt in Hlt.
    assert (inject_Z 560 <= inject_Z m)%Q as Hle.
    { rewrite <- Zle_Qle. lia. }
    change (inject_Z 560) with 560%Q in Hle. lra.
  - transitivity (630 ≤ to_int (y_pos a1)); [lia|].
    rewrite to_int_ge by lia. change (inject_Z 630) with 630%Q.
    change (inject_Z (900 - 120)) with 780%Q.
    change (inject_Z 150) with 150%Q.
    split; intros H; [|lra].
    assert (inject_Z 1139 < inject_Z m)%Q as Hlt.
    { change (inject_Z 1139) with 1139%Q. lra. }
    rewrite <- Zlt_Qlt in Hlt.
    assert (inject_Z 1140 <= inject_Z m)%Q as Hle.
    { rewrite <- Zle_Qle. lia. }
    change (inject_Z 1140) with 1140%Q in Hle. lra.
Qed.

(** C7: for an alien that is alive, [Spaceship.move] sets [is_killed]
    exactly when the lower edge of the ship, after the move, is at or
    below the line [screen_h - 120].  The edge is that of the rectangle
    the ship is drawn in, which is at the float position rounded to the
    nearest integer; so for any ship shorter than the distance from the
    top to the line the flag is set exactly when the lower edge of the
    float position is no more than half a pixel above the line, and for
    every alien of a session exactly when that edge is at or below the
    line, the positions on its way down being such that rounding makes
    no difference.  In the loop of the game the turn of such an alien
    ends the loop at once, with the game over and the reason
    "ALIENS REACHED YOU", whatever the player's health; the other
    aliens are left as they were; and the flag and the reason outlast
    the rest of the frame, after which no further frame is played. *)
Theorem alien_reaching_player_ends_game (sprite : string → bool) (i : nat)
    (a : Spaceship) (r : Rect) (g : Game) :
  is_player a = false →
  is_killed a = false →
  placeholder a = Some r →
  alien_list g !! i = Some a →
  (∀ direction screen_w screen_h,
     ∃ a1 r1,
       Spaceship_move a direction screen_w screen_h = Some a1
       ∧ placeholder a1 = Some r1
       ∧ y_pos a1 = (y_pos a + speed a * inject_Z direction)%Q
       ∧ rect_y r1 = to_int (y_pos a1)
       ∧ height a1 = height a
       ∧ (is_killed a1 = true ↔ screen_h - 120 ≤ rect_y r1 + height a1)
       ∧ (height a < screen_h - 120 →
            (is_killed a1 = true ↔
               (inject_Z (screen_h - 120) - (1 # 2)
                <= y_pos a1 + inject_Z (height a1))%Q)))
  ∧ (∀ a1,
       Spaceship_move a 1 SCREEN_W SCREEN_H = Some a1 →
       is_killed a1 = true →
       ∃ g',
         alien_turn i a g = Some (g', true)
         ∧ is_game_over g' = true
         ∧ game_over_text g' = "ALIENS REACHED YOU"%string
         ∧ alien_list g' = <[i := a1]> (alien_list g)
         ∧ (∀ fuel, alien_loop (S fuel) i g = Some g')
         ∧ (∀ g'', heart_section sprite g' = Some g'' →
              is_game_over g'' = true
              ∧ game_over_text g'' = "ALIENS REACHED YOU"%string
              ∧ alien_list g'' = <[i := a1]> (alien_list g)
              ∧ ∀ keys, frame sprite keys g'' = Raise SystemExit))
  ∧ (reachable sprite g →
     ∀ a1,
       Spaceship_move a 1 SCREEN_W SCREEN_H = Some a1 →
       (is_killed a1 = true ↔
          (inject_Z (SCREEN_H - 120)
           <= y_pos a1 + inject_Z (height a1))%Q)).
Proof.
  intros Hp Hk Hr Hi. split; [|split].
  - intros direction screen_w screen_h.
    destruct (enemy_move a r direction screen_w screen_h Hp Hr)
      as (a1 & r1 & Hmove & Hr1 & Hy & Hry & Hh & Hkilled).
    exists a1, r1. split_and!; try done.
    + rewrite Hkilled, Hk. cbn [orb]. apply Z.leb_le.
    + intros Hshort. rewrite Hkilled, Hk. cbn [orb].
      rewrite Z.leb_le, Hry, Hh.
      transitivity (screen_h - 120 - height a ≤ to_int (y_pos a1)); [lia|].
      rewrite to_int_ge by lia.
      unfold Z.sub. rewrite !inject_Z_plus, !inject_Z_opp.
      split; intros; lra.
  - intros a1 Hmove Hk1.
    pose proof (aliens_reached_turn i a a1 g Hk Hmove Hk1) as Hturn.
    eexists. split; [exact Hturn|]. split_and!; try reflexivity.
    + intros fuel. cbn [alien_loop]. by rewrite Hi, Hturn.
    + intros g'' Hheart.
      apply heart_section_keeps in Hheart as (_ & _ & Ha & Ho & Ht & _).
      simpl in *. split_and!; try done.
      intros keys. unfold frame. by rewrite Ho.
  - intros Hreach a1 Hmove.
    pose proof (reachable_track sprite g Hreach) as Hall.
    pose proof (Forall_lookup_1 _ _ _ _ Hall Hi) as Ha.
    by apply (track_line sprite a a1).
Qed.

Lemma alien_reaching_player_ends_game_witness :
  ∃ g', alien_turn 0 near_alien danger_state = Some (g', true)
        ∧ is_game_over g' = true
        ∧ game_over_text g' = "ALIENS REACHED YOU"%string.
Proof.
  destruct (proj1 (proj2 (alien_reaching_player_ends_game all_sprites 0
                            near_alien
                            {| rect_x := 300; rect_y := 678;
                               rect_w := 100; rect_h := 100 |}
                            danger_state eq_refl eq_refl eq_refl eq_refl))
              (default near_alien
                 (Spaceship_move near_alien 1 SCREEN_W SCREEN_H))
              eq_refl eq_refl)
    as (g' & Hturn & Hover & Htext & _).
  exists g'. by split_and!.
Defined.

(** ** Writing a score and finding it in the menu *)



Example top_scores_after_write :
  top_scores_menu
    (write_scores {[ DEFAULT_FILE := Data ("Zoe - Score: 50" +:+ nl
                                            +:+ "Bob - Score: 7" +:+ nl) ]}
       "Ada" DEFAULT_FILE 42).1 "" false
  = ([("Zoe - Score: 50", 50); ("Ada - Score: 42", 42);
      ("Bob - Score: 7", 7); ("___", 0); ("___", 0)]%string,
     "Top 5 Scores"%string).
Proof. vm_compute. reflexivity. Qed.

